(** * Agent Session Runtime: event routing, scheduling descriptors, tool
      schema filtering and the sandbox boundary

    A shallow embedding of the TypeScript sources of the desktop agent
    (notification routing and preview, history staleness, the scheduler
    form, the tool schema filter, the workspace-scoped IPC handlers and the
    QuickJS sandbox; further the label of the next run, the text of a
    response, pasted images, the directory listing, the limits of two
    requests, the loading of the development server and the start of the
    page renderer), followed by the properties established for them.

    Conventions of the embedding:
    - a JavaScript string is the list of its UTF-16 code units ([jsstring]);
    - [string | null] is [option jsstring]; JavaScript truthiness of such a
      value ([!x]) is [truthy];
    - the scheduler form is embedded twice. Module [Scheduler] holds
      millisecond timestamps and intervals as integers of [Z] and reads
      local time at one fixed offset from UTC; it carries the properties
      that do not depend on how numbers are rounded or on the time zone.
      Module [HostScheduler] computes as the host does: on IEEE 754
      doubles, rounded at every operation, with an offset of local time
      that depends on the instant and with invalid dates; it carries the
      properties of intervals and of times of day;
    - a number that a handler receives from outside is a [Numbers.number]:
      not-a-number, an infinity or a finite rational;
    - host effects (alerts, emitted events, file-system calls) are returned
      as explicit traces. *)

From Stdlib Require Import ZArith NArith QArith Lia Ascii String DecimalString.
From stdpp Require Import base tactics numbers list strings gmap sorting.

Open Scope N_scope.

(** ** JavaScript strings *)

Module JS.

Definition code_unit := N.
Definition jsstring := list code_unit.

(** A string literal of the sources, as code units. *)
Definition js (s : string) : jsstring :=
  (λ a, N_of_ascii a) <$> list_ascii_of_string s.

Definition SPACE : code_unit := 32.

(** ECMAScript [WhiteSpace] and [LineTerminator] code units: the set matched
    by the regular expression class [\s] and stripped by [trim]. *)
Definition is_white_space (c : code_unit) : bool :=
  ((9 <=? c) && (c <=? 13)) || (c =? 32) || (c =? 160) || (c =? 5760)
  || ((8192 <=? c) && (c <=? 8202)) || (c =? 8232) || (c =? 8233)
  || (c =? 8239) || (c =? 8287) || (c =? 12288) || (c =? 65279).

(** The class [\d]: the ten ASCII digits. *)
Definition is_digit (c : code_unit) : bool := (48 <=? c) && (c <=? 57).

Definition is_ascii (c : code_unit) : bool := c <? 128.

(** [toLowerCase] on the ASCII range. *)
Definition ascii_lower (c : code_unit) : code_unit :=
  if (65 <=? c) && (c <=? 90) then c + 32 else c.

(** [String.prototype.trimStart]. *)
Fixpoint trimStart (s : jsstring) : jsstring :=
  match s with
  | [] => []
  | c :: s' => if is_white_space c then trimStart s' else s
  end.

(** [String.prototype.trimEnd]: the string without its trailing white
    space. *)
Fixpoint trimEnd (s : jsstring) : jsstring :=
  match s with
  | [] => []
  | c :: s' =>
      match trimEnd s' with
      | [] => if is_white_space c then [] else [c]
      | r => c :: r
      end
  end.

(** [String.prototype.trim]. *)
Definition trim (s : jsstring) : jsstring := trimEnd (trimStart s).

(** [String.prototype.startsWith]. *)
Fixpoint startsWith (s p : jsstring) {struct p} : bool :=
  match p, s with
  | [], _ => true
  | _ :: _, [] => false
  | a :: p', b :: s' => (a =? b) && startsWith s' p'
  end.

(** [String.prototype.endsWith] for a one-unit suffix. *)
Definition endsWith1 (s : jsstring) (c : code_unit) : bool :=
  match last s with Some d => d =? c | None => false end.

(** Truthiness of a [string | null | undefined] value: [null], [undefined]
    and the empty string are falsy. *)
Definition truthy (o : option jsstring) : bool :=
  match o with
  | Some (_ :: _) => true
  | _ => false
  end.

(** Truthiness of an optional boolean field. *)
Definition truthy_flag (o : option bool) : bool :=
  match o with
  | Some b => b
  | None => false
  end.

(** The integer that a string of decimal digits writes: the exact value of
    [parseInt(ds, 10)], which the host holds as a double
    ([HostScheduler.parseInt]). *)
Definition digit_value (c : code_unit) : Z := Z.of_N (c - 48).

Definition parseInt (ds : jsstring) : Z :=
  foldl (λ acc c, (10 * acc + digit_value c)%Z) 0%Z ds.

End JS.

Export JS.

(** ** Notification routing (electron/libs/notification-routing.ts) *)

Module NotificationRouting.

Definition shouldNotifyForSession
    (status : jsstring) (sessionId focusedSessionId : option jsstring) : bool :=
  if bool_decide (status ≠ js "completed") && bool_decide (status ≠ js "error")
  then false
  else if negb (truthy sessionId) then false
  else if negb (truthy focusedSessionId) then true
  else bool_decide (focusedSessionId ≠ sessionId).

(** The eligibility condition in the words of the specification, with
    "present" read as "not null". *)
Definition eligible_as_stated
    (status : jsstring) (sessionId focusedSessionId : option jsstring) : Prop :=
  (status = js "completed" ∨ status = js "error")
  ∧ sessionId ≠ None
  ∧ (focusedSessionId = None ∨ focusedSessionId ≠ sessionId).

(** The eligibility condition with "present" read as "a non-empty id". *)
Definition eligible
    (status : jsstring) (sessionId focusedSessionId : option jsstring) : Prop :=
  (status = js "completed" ∨ status = js "error")
  ∧ (∃ id, sessionId = Some id ∧ id ≠ [])
  ∧ (focusedSessionId = None ∨ focusedSessionId ≠ sessionId).

End NotificationRouting.

(** ** History staleness (ui/utils/history-sync.ts) *)

Module HistorySync.

Definition shouldMarkHistoryStale
    (activeSessionId : option jsstring) (sessionId status : jsstring) : bool :=
  if negb (truthy activeSessionId) then false
  else if bool_decide (activeSessionId = Some sessionId) then false
  else bool_decide (status = js "completed") || bool_decide (status = js "error").

(** A session is focused when the active id is a non-empty string. *)
Definition focused (activeSessionId : option jsstring) (id : jsstring) : Prop :=
  activeSessionId = Some id ∧ id ≠ [].

End HistorySync.

(** ** Notification preview (electron/libs/notification-preview.ts) *)

Module NotificationPreview.

Definition BODY_LIMIT : nat := 140.
Definition ELLIPSIS : jsstring := js "...".

(** [text.replace(/\s+/g, " ")]: every maximal run of white space becomes
    one space. [in_run] holds while the scan is inside a run whose space
    has been written already. *)
Fixpoint replace_ws_runs (in_run : bool) (text : jsstring) : jsstring :=
  match text with
  | [] => []
  | c :: rest =>
      if is_white_space c
      then (if in_run then replace_ws_runs true rest
            else SPACE :: replace_ws_runs true rest)
      else c :: replace_ws_runs false rest
  end.

Definition normalizeResponseText (text : jsstring) : jsstring :=
  trim (replace_ws_runs false text).

(** [text.slice(0, max)] is [take max text]; [Math.max(0, limit - 3)] is the
    truncated subtraction of [nat]. *)
Definition truncateResponseText (text : jsstring) (limit : nat) : jsstring :=
  if bool_decide (length text ≤ limit)%nat then text
  else
    let max := (limit - length ELLIPSIS)%nat in
    trimEnd (take max text) ++ ELLIPSIS.

Definition buildNotificationBody (rawText : option jsstring) : jsstring :=
  if negb (truthy rawText) then []
  else truncateResponseText (normalizeResponseText (default [] rawText)) BODY_LIMIT.

(** The words of a text: its maximal runs of non-white-space units, in
    order. [cur] is the word being read. *)
Fixpoint words_from (cur : jsstring) (text : jsstring) : list jsstring :=
  match text with
  | [] => match cur with [] => [] | _ => [cur] end
  | c :: rest =>
      if is_white_space c
      then match cur with
           | [] => words_from [] rest
           | _ => cur :: words_from [] rest
           end
      else words_from (cur ++ [c]) rest
  end.

Definition words (text : jsstring) : list jsstring := words_from [] text.

(** A word has no white space in it. *)
Definition visible (w : jsstring) : Prop :=
  Forall (λ c, is_white_space c = false) w.

(** The words joined by single spaces. *)
Fixpoint unwords (ws : list jsstring) : jsstring :=
  match ws with
  | [] => []
  | [w] => w
  | w :: ws' => w ++ SPACE :: unwords ws'
  end.

End NotificationPreview.

(** ** Tool schema offered to the model (electron/libs/tools-definitions.ts) *)

Module ToolSchema.

(** The part of [ApiSettings] read by [getTools]; every field is optional. *)
Record ApiSettings := {
  enableMemory : option bool;
  enableZaiReader : option bool;
  zaiApiKey : option jsstring;
}.

Record ToolFunction := {
  name : jsstring;
  description : jsstring;
  parameters : jsstring;  (* the JSON schema of the arguments, kept opaque *)
}.

Record ToolDefinition := {
  type : jsstring;
  function : ToolFunction;
}.

Definition tool_name (t : ToolDefinition) : jsstring := name (function t).

(** [settings?.enableMemory] and the Z.AI reader fields, as JavaScript
    truth values; [settings] itself may be [null]. *)
Definition memory_set (settings : option ApiSettings) : bool :=
  match settings with
  | Some s => truthy_flag (enableMemory s)
  | None => false
  end.

Definition zai_reader_set (settings : option ApiSettings) : bool :=
  match settings with
  | Some s => truthy_flag (enableZaiReader s)
  | None => false
  end.

Definition zai_key_set (settings : option ApiSettings) : bool :=
  match settings with
  | Some s => truthy (zaiApiKey s)
  | None => false
  end.

(** The two tools that the configuration can switch off. *)
Definition optional (t : ToolDefinition) : Prop :=
  tool_name t = js "manage_memory" ∨ tool_name t = js "read_page".

#[global] Instance optional_dec t : Decision (optional t).
Proof. unfold optional. apply _. Defined.

Section GetTools.

(** The registry [ALL_TOOL_DEFINITIONS] of tools/index.ts. *)
Variable ALL_TOOL_DEFINITIONS : list ToolDefinition.

Definition getTools (settings : option ApiSettings) : list ToolDefinition :=
  let tools := ALL_TOOL_DEFINITIONS in
  let tools :=
    if negb (memory_set settings)
    then filter (λ tool, tool_name tool ≠ js "manage_memory") tools
    else tools in
  let tools :=
    if negb (zai_reader_set settings) || negb (zai_key_set settings)
    then filter (λ tool, tool_name tool ≠ js "read_page") tools
    else tools in
  tools.

End GetTools.

End ToolSchema.

(** ** Regular expressions of the scheduler form

    The fragment of JavaScript regular expressions used by the schedule
    parser: literals under the [i] flag, the classes [\s] and [\d], greedy
    [*], [+] and [?], alternation and capturing groups. Every pattern of
    the sources is anchored by [^] and [$]. *)

Module Regex.

Inductive cclass :=
| CSpace                 (* \s *)
| CDigit                 (* \d *)
| CLit (c : code_unit).  (* a literal character, compared ignoring ASCII case *)

Definition cmatch (cl : cclass) (c : code_unit) : bool :=
  match cl with
  | CSpace => is_white_space c
  | CDigit => is_digit c
  | CLit l => ascii_lower c =? ascii_lower l
  end.

Inductive regex :=
| Eps
| Chr (cl : cclass)
| Seq (r1 r2 : regex)
| Alt (r1 r2 : regex)
| Opt (r : regex)        (* r? *)
| Star (cl : cclass)     (* cl* *)
| Plus (cl : cclass)     (* cl+ *)
| Group (r : regex).     (* ( r ), capturing *)

Definition captures := list jsstring.

(** Greedy iteration of a class: the longest run is tried first, then the
    shorter ones. *)
Fixpoint star_run (cl : cclass) (s : jsstring)
    (k : jsstring → option captures) : option captures :=
  match s with
  | c :: s' =>
      if cmatch cl c
      then match star_run cl s' k with
           | Some x => Some x
           | None => k s
           end
      else k s
  | [] => k []
  end.

(** The backtracking matcher, in continuation-passing style: [k] receives
    the rest of the input and the groups captured so far. Alternatives are
    tried left to right. The patterns below nest no capturing groups, so
    the groups are numbered in the order in which they close. *)
Fixpoint run (r : regex) (s : jsstring) (caps : captures)
    (k : jsstring → captures → option captures) : option captures :=
  match r with
  | Eps => k s caps
  | Chr cl =>
      match s with
      | c :: s' => if cmatch cl c then k s' caps else None
      | [] => None
      end
  | Seq r1 r2 => run r1 s caps (λ s' caps', run r2 s' caps' k)
  | Alt r1 r2 =>
      match run r1 s caps k with
      | Some x => Some x
      | None => run r2 s caps k
      end
  | Opt r1 =>
      match run r1 s caps k with
      | Some x => Some x
      | None => k s caps
      end
  | Star cl => star_run cl s (λ s', k s' caps)
  | Plus cl =>
      match s with
      | c :: s' => if cmatch cl c then star_run cl s' (λ s'', k s'' caps) else None
      | [] => None
      end
  | Group r1 =>
      run r1 s caps
        (λ s' caps', k s' (caps' ++ [take (length s - length s') s]))
  end.

(** [s.match(/^r$/i)]: the captured groups, or [None] for [null]. *)
Definition match_anchored (r : regex) (s : jsstring) : option captures :=
  run r s [] (λ s' caps, match s' with [] => Some caps | _ => None end).

(** The language of a pattern. *)
Inductive lang : regex → jsstring → Prop :=
| lang_eps : lang Eps []
| lang_chr cl c : cmatch cl c = true → lang (Chr cl) [c]
| lang_seq r1 r2 s1 s2 : lang r1 s1 → lang r2 s2 → lang (Seq r1 r2) (s1 ++ s2)
| lang_alt_l r1 r2 s : lang r1 s → lang (Alt r1 r2) s
| lang_alt_r r1 r2 s : lang r2 s → lang (Alt r1 r2) s
| lang_opt_none r : lang (Opt r) []
| lang_opt_some r s : lang r s → lang (Opt r) s
| lang_star cl s : forallb (cmatch cl) s = true → lang (Star cl) s
| lang_plus cl s : s ≠ [] → forallb (cmatch cl) s = true → lang (Plus cl) s
| lang_group r s : lang r s → lang (Group r) s.

(** A literal word of a pattern. *)
Definition lit (w : string) : regex :=
  foldr (λ c r, Seq (Chr (CLit c)) r) Eps (js w).

Declare Scope regex_scope.
Delimit Scope regex_scope with re.
Bind Scope regex_scope with regex.
Infix "⋅" := Seq (at level 40, left associativity) : regex_scope.
Infix "∣" := Alt (at level 50, left associativity) : regex_scope.

End Regex.

(** ** Scheduler form (ui/components/SchedulerTab.tsx) *)

Module Scheduler.

Import Regex.

(** In this module a number is an integer of [Z], with exact arithmetic,
    and local time is at one fixed offset from UTC; [HostScheduler] below
    computes on the doubles and the clock of the host. *)

(** *** The five descriptor patterns of [calculateNextRun] *)

Definition digits_1_2 : regex := (Chr CDigit ⋅ Opt (Chr CDigit))%re.  (* \d{1,2} *)
Definition digits_2 : regex := (Chr CDigit ⋅ Chr CDigit)%re.          (* \d{2} *)

(** [min(?:ute)?s?|hrs?|hours?] *)
Definition minute_hour_units : regex :=
  (lit "min" ⋅ Opt (lit "ute") ⋅ Opt (lit "s")
   ∣ lit "hr" ⋅ Opt (lit "s")
   ∣ lit "hour" ⋅ Opt (lit "s"))%re.

(** [/^in\s+(\d+)\s*(min(?:ute)?s?|hrs?|hours?|days?)$/i] *)
Definition in_re : regex :=
  (lit "in" ⋅ Plus CSpace ⋅ Group (Plus CDigit) ⋅ Star CSpace
   ⋅ Group (minute_hour_units ∣ lit "day" ⋅ Opt (lit "s")))%re.

(** [/^at\s+(\d{1,2}):(\d{2})$/i] *)
Definition at_re : regex :=
  (lit "at" ⋅ Plus CSpace ⋅ Group digits_1_2 ⋅ lit ":" ⋅ Group digits_2)%re.

(** [/^tomorrow\s+at\s+(\d{1,2}):(\d{2})$/i] *)
Definition tomorrow_re : regex :=
  (lit "tomorrow" ⋅ Plus CSpace ⋅ lit "at" ⋅ Plus CSpace
   ⋅ Group digits_1_2 ⋅ lit ":" ⋅ Group digits_2)%re.

(** [/^(?:every\s+day|daily)\s+at\s+(\d{1,2}):(\d{2})$/i] *)
Definition daily_re : regex :=
  ((lit "every" ⋅ Plus CSpace ⋅ lit "day" ∣ lit "daily") ⋅ Plus CSpace
   ⋅ lit "at" ⋅ Plus CSpace ⋅ Group digits_1_2 ⋅ lit ":" ⋅ Group digits_2)%re.

(** [/^every\s+(\d+)\s*(min(?:ute)?s?|hrs?|hours?)$/i] *)
Definition every_re : regex :=
  (lit "every" ⋅ Plus CSpace ⋅ Group (Plus CDigit) ⋅ Star CSpace
   ⋅ Group minute_hour_units)%re.

(** The forms of the descriptor grammar, in the order in which they are
    tried. *)
Definition descriptor_forms : list regex :=
  [in_re; at_re; tomorrow_re; daily_re; every_re].

(** *** Dates

    A [Date] is its time value, the milliseconds since the epoch. Local
    time is a fixed offset [tza] from UTC (no daylight-saving change inside
    the interval considered); [month_start d] is the day number of the first
    day of the month that contains day [d], as fixed by the calendar. *)

Section Dates.

Variable tza : Z.
Variable month_start : Z → Z.

Local Open Scope Z_scope.

Definition msPerDay : Z := 86400000.
Definition LocalTime (t : Z) : Z := t + tza.
Definition UTC (t : Z) : Z := t - tza.
Definition Day (t : Z) : Z := t / msPerDay.
Definition TimeWithinDay (t : Z) : Z := t mod msPerDay.
Definition MakeTime (hour min sec ms : Z) : Z :=
  hour * 3600000 + min * 60000 + sec * 1000 + ms.
Definition MakeDate (day time : Z) : Z := day * msPerDay + time.
Definition DateFromTime (t : Z) : Z := Day t - month_start (Day t) + 1.

(** [MakeDay(YearFromTime(t), MonthFromTime(t), date)]. *)
Definition MakeDay_in_month_of (t date : Z) : Z := month_start (Day t) + date - 1.

(** [d.setHours(hour, min, sec, ms)], [d.getDate()] and [d.setDate(date)]
    on the time value [t] of [d]; the setters give the new time value. *)
Definition setHours (t hour min sec ms : Z) : Z :=
  UTC (MakeDate (Day (LocalTime t)) (MakeTime hour min sec ms)).
Definition getDate (t : Z) : Z := DateFromTime (LocalTime t).
Definition setDate (t date : Z) : Z :=
  UTC (MakeDate (MakeDay_in_month_of (LocalTime t) date)
                (TimeWithinDay (LocalTime t))).

(** The target computed by the "daily" and "at" blocks. *)
Definition daily_target (now h m : Z) : Z :=
  let target := setHours now h m 0 0 in
  if bool_decide (target ≤ now)
  then setDate target (getDate target + 1)
  else target.

(** *** [calculateNextRun] *)

(** [String.prototype.toLowerCase], fixed by the Unicode tables of the
    runtime. *)
Variable toLowerCase : jsstring → jsstring.

(** The value returned by the first block that returns. *)
Definition or_else {A} (x : option A) (y : option A) : option A :=
  match x with Some _ => x | None => y end.
Infix "<|>" := or_else (at level 51, right associativity).

(** The block for "in X minutes/hours/days": it returns only when the unit
    is recognised. *)
Definition in_block (now : Z) (schedule : jsstring) : option Z :=
  match match_anchored in_re schedule with
  | Some [v; unit] =>
      let value := parseInt v in
      let unit := toLowerCase unit in
      if startsWith unit (js "min") then Some (now + value * 60 * 1000)
      else if startsWith unit (js "h") then Some (now + value * 60 * 60 * 1000)
      else if startsWith unit (js "d") then Some (now + value * 24 * 60 * 60 * 1000)
      else None
  | _ => None
  end.

(** The block for "at HH:MM" (today or tomorrow). *)
Definition at_block (now : Z) (schedule : jsstring) : option Z :=
  match match_anchored at_re schedule with
  | Some [h; m] =>
      let hours := parseInt h in
      let minutes := parseInt m in
      let target := setHours now hours minutes 0 0 in
      let target :=
        if bool_decide (target ≤ now) then setDate target (getDate target + 1)
        else target in
      Some target
  | _ => None
  end.

(** The block for "tomorrow at HH:MM". *)
Definition tomorrow_block (now : Z) (schedule : jsstring) : option Z :=
  match match_anchored tomorrow_re schedule with
  | Some [h; m] =>
      let hours := parseInt h in
      let minutes := parseInt m in
      let target := setDate now (getDate now + 1) in
      let target := setHours target hours minutes 0 0 in
      Some target
  | _ => None
  end.

(** The block for "every day at HH:MM" and "daily at HH:MM". *)
Definition daily_block (now : Z) (schedule : jsstring) : option Z :=
  match match_anchored daily_re schedule with
  | Some [h; m] =>
      let hours := parseInt h in
      let minutes := parseInt m in
      let target := setHours now hours minutes 0 0 in
      let target :=
        if bool_decide (target ≤ now) then setDate target (getDate target + 1)
        else target in
      Some target
  | _ => None
  end.

(** The block for "every X minutes/hours". *)
Definition every_block (now : Z) (schedule : jsstring) : option Z :=
  match match_anchored every_re schedule with
  | Some [v; unit] =>
      let value := parseInt v in
      let unit := toLowerCase unit in
      if startsWith unit (js "min") then Some (now + value * 60 * 1000)
      else if startsWith unit (js "h") then Some (now + value * 60 * 60 * 1000)
      else None
  | _ => None
  end.

(** [calculateNextRun(scheduleStr)], evaluated when the clock reads [now]
    ([new Date()]); [None] is [null]. *)
Definition calculateNextRun (now : Z) (scheduleStr : jsstring) : option Z :=
  let schedule := trim (toLowerCase scheduleStr) in
  in_block now schedule
  <|> at_block now schedule
  <|> tomorrow_block now schedule
  <|> daily_block now schedule
  <|> every_block now schedule.

(** *** [handleCreateTask] *)

Record ScheduledTask := {
  id : jsstring;
  title : jsstring;
  prompt : option jsstring;
  schedule : jsstring;
  nextRun : Z;
  isRecurring : bool;
  notifyBefore : option Z;
  enabled : bool;
}.

Inductive ClientEvent :=
| scheduler_tasks_get
| scheduler_task_create (payload : ScheduledTask)
| scheduler_task_update (task_id : jsstring) (task_enabled : bool)
| scheduler_task_delete (task_id : jsstring).

(** The state of the creation form. *)
Record Form := {
  form_showForm : bool;
  form_title : jsstring;
  form_prompt : jsstring;
  form_schedule : jsstring;
  form_notifyBefore : option Z;
  form_isSubmitting : bool;
}.

(** What one call of the handler did: the alerts shown, the events sent to
    the main process, and the form afterwards. *)
Record Handled := {
  alerts : list jsstring;
  sent : list ClientEvent;
  form_after : Form;
}.

Definition set_isSubmitting (b : bool) (f : Form) : Form :=
  {| form_showForm := form_showForm f; form_title := form_title f;
     form_prompt := form_prompt f; form_schedule := form_schedule f;
     form_notifyBefore := form_notifyBefore f; form_isSubmitting := b |}.

Definition reset_form : Form :=
  {| form_showForm := false; form_title := []; form_prompt := [];
     form_schedule := []; form_notifyBefore := None;
     form_isSubmitting := false |}.

(** The [disabled] attribute of the "Create Task" button. *)
Definition create_disabled (f : Form) : bool :=
  negb (truthy (Some (trim (form_title f))))
  || negb (truthy (Some (trim (form_schedule f))))
  || form_isSubmitting f.

(** [handleCreateTask], run when the clock reads [now] and
    [crypto.randomUUID()] gives [uuid]. The [finally] block clears
    [isSubmitting] on both exits of the [try]. *)
Definition handleCreateTask (now : Z) (uuid : jsstring) (f : Form) : Handled :=
  if negb (truthy (Some (trim (form_title f))))
     || negb (truthy (Some (trim (form_schedule f))))
  then {| alerts := []; sent := []; form_after := f |}
  else
    match calculateNextRun now (form_schedule f) with
    | None | Some 0 =>
        {| alerts := [js "Invalid schedule format"]; sent := [];
           form_after := set_isSubmitting false f |}
    | Some next =>
        let recurring :=
          startsWith (form_schedule f) (js "every")
          || startsWith (form_schedule f) (js "daily") in
        let task :=
          {| id := uuid;
             title := trim (form_title f);
             prompt := match trim (form_prompt f) with
                       | [] => None
                       | p => Some p
                       end;
             schedule := form_schedule f;
             nextRun := next;
             isRecurring := recurring;
             notifyBefore := form_notifyBefore f;
             enabled := true |} in
        {| alerts := []; sent := [scheduler_task_create task];
           form_after := reset_form |}
    end.

End Dates.

(** *** Descriptors in canonical spelling *)

(** The descriptors "every <ds> <unit>". *)
Definition every_descriptor (ds unit : jsstring) : jsstring :=
  js "every " ++ ds ++ js " " ++ unit.

(** The descriptors "daily at HH:MM" and "every day at HH:MM". *)
Definition daily_leads : list jsstring := [js "daily at "; js "every day at "].

Definition daily_descriptor (lead hh mm : jsstring) : jsstring :=
  lead ++ hh ++ js ":" ++ mm.

Definition digit_units : list code_unit := [48; 49; 50; 51; 52; 53; 54; 55; 56; 57].

(** The texts matched by [\d{1,2}] and by [\d{2}]. *)
Definition two_digit_texts : list jsstring :=
  d1 ← digit_units; d2 ← digit_units; [[d1; d2]].
Definition hour_texts : list jsstring :=
  ((λ d, [d]) <$> digit_units) ++ two_digit_texts.

(** What [calculateNextRun] needs of a daily descriptor: it is its own
    normal form, the three patterns tried before [daily_re] reject it, and
    [daily_re] captures the hour and the minute. *)
Definition daily_descriptor_parses (lead hh mm : jsstring) : bool :=
  let d := daily_descriptor lead hh mm in
  forallb is_ascii d
  && bool_decide (trim (ascii_lower <$> d) = d)
  && bool_decide (match_anchored in_re d = None)
  && bool_decide (match_anchored at_re d = None)
  && bool_decide (match_anchored tomorrow_re d = None)
  && bool_decide (match_anchored daily_re d = Some [hh; mm]).

(** A runtime whose [toLowerCase] is the ASCII one: it agrees with every
    runtime on ASCII strings. *)
Definition ascii_toLowerCase (s : jsstring) : jsstring := ascii_lower <$> s.

(** A calendar of thirty-day months, enough to run the date functions. *)
Definition thirty_day_months (d : Z) : Z := (d / 30 * 30)%Z.

(** A filled-in form whose schedule is in none of the five forms. *)
Definition next_week_form : Form :=
  {| form_showForm := true; form_title := js "Weekly report";
     form_prompt := js "Summarise the week"; form_schedule := js "next week";
     form_notifyBefore := None; form_isSubmitting := false |}.

End Scheduler.

(** ** The [path] module of Node.js, POSIX flavour *)

Module Path.

Definition SLASH : code_unit := 47.
Definition sep : jsstring := [SLASH].
Definition DOT : jsstring := js ".".
Definition DOTDOT : jsstring := js "..".

Definition isAbsolute (p : jsstring) : bool :=
  match p with
  | c :: _ => c =? SLASH
  | [] => false
  end.

(** The segments of a path between its separators; [cur] is the segment
    being read. *)
Fixpoint segments_from (cur : jsstring) (p : jsstring) : list jsstring :=
  match p with
  | [] => [cur]
  | c :: p' =>
      if c =? SLASH then cur :: segments_from [] p'
      else segments_from (cur ++ [c]) p'
  end.

Definition segments (p : jsstring) : list jsstring := segments_from [] p.

(** One step of [normalizeString]: empty and "." segments are dropped, ".."
    removes the segment before it, or is kept when there is none and the
    path may climb above its start. [kept] is in reverse order. *)
Definition normalize_step (allowAboveRoot : bool)
    (kept : list jsstring) (seg : jsstring) : list jsstring :=
  if bool_decide (seg = []) || bool_decide (seg = DOT) then kept
  else if bool_decide (seg = DOTDOT) then
    match kept with
    | top :: below =>
        if bool_decide (top = DOTDOT) then seg :: kept else below
    | [] => if allowAboveRoot then [seg] else []
    end
  else seg :: kept.

Fixpoint join_with_sep (segs : list jsstring) : jsstring :=
  match segs with
  | [] => []
  | [x] => x
  | x :: rest => x ++ SLASH :: join_with_sep rest
  end.

Definition normalizeString (p : jsstring) (allowAboveRoot : bool) : jsstring :=
  join_with_sep (rev (foldl (normalize_step allowAboveRoot) [] (segments p))).

(** [path.normalize]. *)
Definition normalize (p : jsstring) : jsstring :=
  match p with
  | [] => DOT
  | _ =>
      let absolute := isAbsolute p in
      let trailingSeparator := endsWith1 p SLASH in
      let body := normalizeString p (negb absolute) in
      match body with
      | [] =>
          if absolute then sep
          else if trailingSeparator then DOT ++ sep else DOT
      | _ =>
          let body := if trailingSeparator then body ++ sep else body in
          if absolute then SLASH :: body else body
      end
  end.

(** The right-to-left scan of [path.resolve]: arguments are prepended until
    an absolute one is met. *)
Fixpoint resolve_scan (args_rev : list jsstring) (acc : jsstring) : jsstring * bool :=
  match args_rev with
  | [] => (acc, false)
  | p :: rest =>
      match p with
      | [] => resolve_scan rest acc
      | _ =>
          let acc' := p ++ SLASH :: acc in
          if isAbsolute p then (acc', true) else resolve_scan rest acc'
      end
  end.

(** [path.resolve(...args)] in a process whose working directory is the
    absolute path [process_cwd]. *)
Definition resolve (process_cwd : jsstring) (args : list jsstring) : jsstring :=
  let '(acc, absolute) := resolve_scan (rev args) [] in
  let full := if absolute then acc else process_cwd ++ SLASH :: acc in
  SLASH :: normalizeString full false.

End Path.

(** ** Workspace-scoped IPC handlers (electron/main.ts) *)

Module Workspace.

(** The outcome of the containment check of a handler: either it refuses,
    with the logged or thrown message, or it goes on to the file system with
    the given path. *)
Inductive Checked :=
| Refused (message : jsstring)
| Allowed (target : jsstring).

(** The part of a stored session read by the handlers. *)
Record Session := {
  session_id : jsstring;
  cwd : option jsstring;
}.

Section Handlers.

Variable process_cwd : jsstring.

(** [String.prototype.toLowerCase] and [String.prototype.normalize("NFC")],
    fixed by the Unicode tables of the runtime. *)
Variable toLowerCase : jsstring → jsstring.
Variable normalizeNFC : jsstring → jsstring.

Definition comparable (p : jsstring) : jsstring :=
  normalizeNFC (toLowerCase (Path.resolve process_cwd [p])).

(** The handler of "list-directory", up to its call of [fs.readdir]. *)
Definition list_directory (allSessions : list Session) (dirPath : jsstring) : Checked :=
  let normalizedDirPath := comparable dirPath in
  let sessionCwd :=
    find (λ s, if negb (truthy (cwd s)) then false
               else startsWith normalizedDirPath (comparable (default [] (cwd s))))
      allSessions ≫= cwd in
  if negb (truthy sessionCwd)
  then Refused (js "No active session cwd found")
  else
    let normalizedCwd := comparable (default [] sessionCwd) in
    if negb (startsWith normalizedDirPath normalizedCwd)
    then Refused (js "Access denied: Path is outside session cwd")
    else Allowed dirPath.

(** The handler of "get-image-preview", up to its call of [fs.stat];
    [isWindows] is [process.platform === "win32"]. *)
Definition get_image_preview (isWindows : bool)
    (payload_cwd payload_path : option jsstring) : Checked :=
  if negb (truthy payload_cwd) || negb (truthy payload_path)
  then Refused (js "Missing image path or workspace folder")
  else
    let cwd := default [] payload_cwd in
    let path := default [] payload_path in
    let normalizedCwd := Path.normalize (Path.resolve process_cwd [cwd]) in
    let fullPath := Path.normalize (Path.resolve process_cwd [normalizedCwd; path]) in
    let normalizedCwdCheck := if isWindows then toLowerCase normalizedCwd else normalizedCwd in
    let fullPathCheck := if isWindows then toLowerCase fullPath else fullPath in
    let cwdWithSep :=
      if endsWith1 normalizedCwdCheck Path.SLASH then normalizedCwdCheck
      else normalizedCwdCheck ++ Path.sep in
    if negb (bool_decide (fullPathCheck = normalizedCwdCheck)
             || startsWith fullPathCheck cwdWithSep)
    then Refused (js "Access denied: Path is outside the workspace folder")
    else Allowed fullPath.

End Handlers.

(** The root with a separator at its end, as [cwdWithSep] builds it. *)
Definition with_sep (r : jsstring) : jsstring :=
  if endsWith1 r Path.SLASH then r else r ++ Path.sep.

(** The containment rule of the specification: [p] is the root [r] or lies
    below it, the root ending at a separator. *)
Definition within (r p : jsstring) : Prop :=
  p = r ∨ ∃ rest, p = with_sep r ++ rest.

(** A stored session whose workspace is /home/user/ws. *)
Definition ws_session : Session :=
  {| session_id := js "session-1"; cwd := Some (js "/home/user/ws") |}.

End Workspace.

(** ** The QuickJS sandbox (libs/container/quickjs-sandbox.ts) and the
       [execute_js] tool (libs/tools/execute-js-tool.ts) *)

Module Sandbox.

(** *** The file API given to guest scripts *)

(** A call of Node's [fs] made by the host on behalf of the guest. *)
Inductive HostCall :=
| call_readFileSync (path : jsstring)
| call_writeFileSync (path data : jsstring)
| call_existsSync (path : jsstring)
| call_readdirSync (path : jsstring).

(** What a host function hands back to the guest. *)
Inductive GuestValue :=
| v_undefined
| v_bool (b : bool)
| v_string (s : jsstring)
| v_array (items : list jsstring).

Inductive Completion :=
| Returned (v : GuestValue)
| Thrown (message : jsstring).

Section FileApi.

(** The host file system behind Node's [fs]: its state, and the four calls
    of it that the sandbox uses. A failing call gives the message of the
    exception it raises. *)
Variable Host : Type.
Variable host_readFileSync : jsstring → Host → jsstring + jsstring.
Variable host_writeFileSync : jsstring → jsstring → Host → Host + jsstring.
Variable host_existsSync : jsstring → Host → bool.
Variable host_readdirSync : jsstring → Host → list jsstring + jsstring.

(** The effect of one call of a guest-visible function: what the guest
    gets, the host calls made, and the host file system afterwards. *)
Record Effect := {
  completion : Completion;
  calls : list HostCall;
  host_after : Host;
}.

Variable process_cwd : jsstring.

(** The arguments [cwd] and [isPathSafe] of [executeInQuickJS]. *)
Variable cwd : jsstring.
Variable isPathSafe : jsstring → bool.

(** [resolve(cwd, p.startsWith('/') ? p.slice(1) : p)] *)
Definition full_path (p : jsstring) : jsstring :=
  Path.resolve process_cwd [cwd; if startsWith p (js "/") then drop 1 p else p].

Definition access_denied (p : jsstring) : jsstring :=
  js "Access denied: " ++ p ++ js " is outside workspace".

Definition readFileSyncFn (filePath : jsstring) (host : Host) : Effect :=
  let fullPath := full_path filePath in
  if negb (isPathSafe fullPath)
  then {| completion := Thrown (access_denied filePath); calls := [];
          host_after := host |}
  else
    {| completion :=
         match host_readFileSync fullPath host with
         | inl content => Returned (v_string content)
         | inr message => Thrown (js "Cannot read file: " ++ message)
         end;
       calls := [call_readFileSync fullPath];
       host_after := host |}.

Definition writeFileSyncFn (filePath data : jsstring) (host : Host) : Effect :=
  let fullPath := full_path filePath in
  if negb (isPathSafe fullPath)
  then {| completion := Thrown (access_denied filePath); calls := [];
          host_after := host |}
  else
    match host_writeFileSync fullPath data host with
    | inl host' =>
        {| completion := Returned v_undefined;
           calls := [call_writeFileSync fullPath data]; host_after := host' |}
    | inr message =>
        {| completion := Thrown (js "Cannot write file: " ++ message);
           calls := [call_writeFileSync fullPath data]; host_after := host |}
    end.

Definition existsSyncFn (filePath : jsstring) (host : Host) : Effect :=
  let fullPath := full_path filePath in
  {| completion := Returned (v_bool (host_existsSync fullPath host));
     calls := [call_existsSync fullPath];
     host_after := host |}.

Definition readdirSyncFn (dirPath : jsstring) (host : Host) : Effect :=
  let fullPath := full_path dirPath in
  if negb (isPathSafe fullPath)
  then {| completion := Thrown (access_denied dirPath); calls := [];
          host_after := host |}
  else
    {| completion :=
         match host_readdirSync fullPath host with
         | inl files => Returned (v_array files)
         | inr message => Thrown (js "Cannot read directory: " ++ message)
         end;
       calls := [call_readdirSync fullPath];
       host_after := host |}.

End FileApi.

(** *** Running guest code *)

(** What the interpreter does between two polls of the interrupt handler:
    it goes on, possibly after a [console.log], or the wrapped function
    returns (its value as [vm.dump] renders it, [None] for [undefined]) or
    throws. *)
Inductive Step (S : Type) :=
| Continue (s : S)
| Logged (message : jsstring) (s : S)
| Return (value : option jsstring)
| Throw (error : jsstring).
Arguments Continue {S} s.
Arguments Logged {S} message s.
Arguments Return {S} value.
Arguments Throw {S} error.

(** A guest script: its text, and its execution as a machine. *)
Record Script := {
  source : jsstring;
  state : Type;
  start : state;
  step : state → Step state;
}.

(** The result of [vm.evalCode]. *)
Inductive Evaluated :=
| eval_value (value : option jsstring)
| eval_error (error : jsstring).

(** [vm.evalCode] under an interrupt handler: the interpreter polls the
    handler while the script runs and aborts the script when the handler
    answers [true]. [fuel] bounds the number of polls looked at; [None]
    means that the script is still running after them. *)
Fixpoint evalCode (interruptHandler : unit → bool) (code : Script)
    (s : state code) (logs : list jsstring) (fuel : nat)
    : option (Evaluated * list jsstring) :=
  match fuel with
  | O => None
  | S fuel' =>
      match step code s with
      | Return value => Some (eval_value value, logs)
      | Throw error => Some (eval_error error, logs)
      | Continue s' =>
          if interruptHandler tt
          then Some (eval_error (js "InternalError: interrupted"), logs)
          else evalCode interruptHandler code s' logs fuel'
      | Logged message s' =>
          if interruptHandler tt
          then Some (eval_error (js "InternalError: interrupted"), logs ++ [message])
          else evalCode interruptHandler code s' (logs ++ [message]) fuel'
      end
  end.

Record QuickJSExecuteResult := {
  success : bool;
  output : jsstring;
  error : option jsstring;
  logs : list jsstring;
}.

(** [executeInQuickJS(code, cwd, isPathSafe, timeout)]. The handler
    installed by [setInterruptHandler] answers [false] at every poll, and
    [timeout] is not read. *)
Definition executeInQuickJS (code : Script) (cwd : jsstring)
    (isPathSafe : jsstring → bool) (timeout : Z) (fuel : nat)
    : option QuickJSExecuteResult :=
  match evalCode (λ _, false) code (start code) [] fuel with
  | None => None
  | Some (eval_error errorObj, logs) =>
      Some {| success := false; output := []; error := Some errorObj;
              logs := logs |}
  | Some (eval_value value, logs) =>
      Some {| success := true; output := default [] value; error := None;
              logs := logs |}
  end.

(** *** The tool *)

Record ExecuteJSArgs := {
  code : Script;
  explanation : jsstring;
  timeout : option Z;
}.

Record ToolResult := {
  tool_success : bool;
  tool_output : option jsstring;
  tool_error : option jsstring;
}.

Definition NL : jsstring := [10].
Definition CHECK_MARK : jsstring := [9989].
Definition CROSS_MARK : jsstring := [10060].
Definition LIGHT_BULB : jsstring := [55357; 56481].

(** [String.prototype.includes]. *)
Fixpoint includes (s sub : jsstring) : bool :=
  startsWith s sub || match s with [] => false | _ :: s' => includes s' sub end.

Definition join_lines (lines : list jsstring) : jsstring :=
  match lines with
  | [] => []
  | l :: ls => l ++ concat ((λ x, NL ++ x) <$> ls)
  end.

(** [Math.min(args.timeout || 5000, 30000)] *)
Definition effective_timeout (args : ExecuteJSArgs) : Z :=
  Z.min (match timeout args with
         | Some 0%Z | None => 5000
         | Some t => t
         end) 30000.

Definition success_text (r : QuickJSExecuteResult) : jsstring :=
  CHECK_MARK ++ js " Code executed successfully (QuickJS WASM Sandbox)" ++ NL ++ NL
  ++ (match logs r with
      | [] => []
      | _ => js "**Console Output:**" ++ NL ++ js "```" ++ NL
             ++ join_lines (logs r) ++ NL ++ js "```" ++ NL ++ NL
      end)
  ++ (match output r with
      | [] => []
      | _ => js "**Result:**" ++ NL ++ js "```json" ++ NL ++ output r ++ NL ++ js "```"
      end).

Definition failure_text (args : ExecuteJSArgs) (r : QuickJSExecuteResult) : jsstring :=
  let errorText := default [] (error r) in
  let text := source (code args) in
  CROSS_MARK ++ js " Execution failed: " ++ errorText ++ NL ++ NL
  ++ js "**Your code:**" ++ NL ++ js "```javascript" ++ NL ++ take 500 text
  ++ (if bool_decide (500 < length text)%nat then NL ++ js "// ... truncated ..." else [])
  ++ NL ++ js "```" ++ NL ++ NL
  ++ (if includes errorText (js "not defined") || includes errorText (js "is not a function")
      then LIGHT_BULB ++ js " **Available APIs:**" ++ NL
           ++ js "- **fs**: readFileSync, writeFileSync, existsSync, readdirSync" ++ NL
           ++ js "- **path**: join, resolve, dirname, basename, extname" ++ NL
           ++ js "- **console**: log, error, warn, info" ++ NL
           ++ js "- **Built-in**: JSON, Math, Date, String, Array, Object" ++ NL
           ++ js "- **env**: Environment variables (env.CWD)" ++ NL
      else if includes errorText (js "timeout")
      then LIGHT_BULB ++ js " **Hint**: Code execution timed out. Try:" ++ NL
           ++ js "- Simplifying your code" ++ NL
           ++ js "- Avoiding infinite loops" ++ NL
           ++ js "- Processing less data at once" ++ NL
      else [])
  ++ (match logs r with
      | [] => []
      | _ => NL ++ js "**Console output before error:**" ++ NL ++ js "```" ++ NL
             ++ join_lines (logs r) ++ NL ++ js "```"
      end).

(** [executeJSTool(args, context)], with [context.cwd] and
    [context.isPathSafe]. *)
Definition executeJSTool (args : ExecuteJSArgs) (context_cwd : jsstring)
    (context_isPathSafe : jsstring → bool) (fuel : nat) : option ToolResult :=
  let timeout := effective_timeout args in
  match executeInQuickJS (code args) context_cwd context_isPathSafe timeout fuel with
  | None => None
  | Some result =>
      if success result
      then Some {| tool_success := true; tool_output := Some (success_text result);
                   tool_error := None |}
      else Some {| tool_success := false; tool_output := None;
                   tool_error := Some (failure_text args result) |}
  end.

(** A script that never returns nor throws, whatever its state. *)
Definition never_returns (code : Script) : Prop :=
  ∀ s, match step code s with
       | Continue _ | Logged _ _ => True
       | Return _ | Throw _ => False
       end.

(** The script [while (true) {}]. *)
Definition infinite_loop : Script :=
  {| source := js "while (true) {}"; state := unit; start := tt;
     step := λ _, Continue tt |}.

(** A script that returns at once. *)
Definition return_42 : Script :=
  {| source := js "return 42"; state := unit; start := tt;
     step := λ _, Return (Some (js "42")) |}.

(** A path check that admits the workspace /home/user/ws and what lies
    below it. *)
Definition ws_isPathSafe (p : jsstring) : bool :=
  bool_decide (p = js "/home/user/ws") || startsWith p (js "/home/user/ws/").

End Sandbox.

(** ** Scheduler descriptors in canonical spelling, by kind *)

Module SchedulerDescriptors.
Import Regex Scheduler.

(** The descriptors "in <ds> <unit>", with the unit spellings of [in_re]. *)
Definition in_descriptor (ds unit : jsstring) : jsstring :=
  js "in " ++ ds ++ js " " ++ unit.

Definition in_units : list jsstring :=
  [js "min"; js "mins"; js "minute"; js "minutes";
   js "hr"; js "hrs"; js "hour"; js "hours"; js "day"; js "days"].

(** The length of a unit in milliseconds. *)
Definition unit_ms (unit : jsstring) : Z :=
  if startsWith unit (js "min") then 60000%Z
  else if startsWith unit (js "h") then 3600000%Z
  else 86400000%Z.

(** The descriptors "at HH:MM" and "tomorrow at HH:MM". *)
Definition at_descriptor (hh mm : jsstring) : jsstring :=
  js "at " ++ hh ++ js ":" ++ mm.

Definition tomorrow_descriptor (hh mm : jsstring) : jsstring :=
  js "tomorrow at " ++ hh ++ js ":" ++ mm.

Definition at_descriptor_parses (hh mm : jsstring) : bool :=
  let d := at_descriptor hh mm in
  forallb is_ascii d
  && bool_decide (trim (ascii_lower <$> d) = d)
  && bool_decide (match_anchored in_re d = None)
  && bool_decide (match_anchored at_re d = Some [hh; mm]).

Definition tomorrow_descriptor_parses (hh mm : jsstring) : bool :=
  let d := tomorrow_descriptor hh mm in
  forallb is_ascii d
  && bool_decide (trim (ascii_lower <$> d) = d)
  && bool_decide (match_anchored in_re d = None)
  && bool_decide (match_anchored at_re d = None)
  && bool_decide (match_anchored tomorrow_re d = Some [hh; mm]).

(** "Every <ds> <unit>", with a capital letter. *)
Definition capital_every_descriptor (ds unit : jsstring) : jsstring :=
  js "Every " ++ ds ++ js " " ++ unit.

(** A form with the given title and schedule, ready to be submitted. *)
Definition filled_form (title schedule : jsstring) : Form :=
  {| form_showForm := true; form_title := title; form_prompt := [];
     form_schedule := schedule; form_notifyBefore := None;
     form_isSubmitting := false |}.

End SchedulerDescriptors.

(** ** The label of the next run (ui/components/SchedulerTab.tsx) *)

Module NextRunLabel.
Import Scheduler.

(** The text of a non-negative integer in a template literal. *)
Definition number_text (n : Z) : jsstring :=
  js (NilZero.string_of_uint (N.to_uint (Z.to_N n))).

Section Label.

(** [date.toLocaleDateString()] of the date with the given time value. *)
Variable toLocaleDateString : Z → jsstring.

(** [formatNextRun(timestamp)] at the time [now]. *)
Definition formatNextRun (now timestamp : Z) : jsstring :=
  let diffMs := (timestamp - now)%Z in
  if bool_decide (diffMs < 0)%Z then js "Overdue"
  else
    let diffMins := (diffMs / 60000)%Z in
    let diffHours := (diffMins / 60)%Z in
    let diffDays := (diffHours / 24)%Z in
    if bool_decide (diffMins < 60)%Z then js "in " ++ number_text diffMins ++ js " min"
    else if bool_decide (diffHours < 24)%Z
    then js "in " ++ number_text diffHours ++ js " hrs"
    else if bool_decide (diffDays < 7)%Z
    then js "in " ++ number_text diffDays ++ js " days"
    else toLocaleDateString timestamp.

End Label.

End NextRunLabel.

(** ** The scheduler form on the numbers and the clock of the host

    [calculateNextRun] and [handleCreateTask] once more, now with what the
    engine (V8, in the renderer of the application) does where module
    [Scheduler] idealises:
    - a number is an IEEE 754 double. The numbers of [calculateNextRun] are
      sums and products of integers, so each is an integer that the double
      format holds, an infinity or not-a-number; every operation rounds its
      exact result to the nearest double, ties to the even significand;
    - the offset of local time from UTC depends on the instant
      ([LocalTZA(t, isUTC)] of ECMAScript): it changes when daylight saving
      time begins or ends;
    - a [Date] whose time value leaves the range of [TimeClip] is invalid
      and its [getTime()] is not-a-number. *)

Module HostScheduler.

Import Regex.

Local Open Scope Z_scope.

(** *** Numbers *)

(** The doubles met here. There is one zero: the sources add a clock
    reading to a product of non-negative factors, which never gives the
    negative zero. *)
Inductive number :=
| NaN
| Infinity (negative : bool)
| Int (z : Z).

(** [Number.MAX_SAFE_INTEGER], 2^53 - 1. *)
Definition MAX_SAFE_INTEGER : Z := 9007199254740991.

(** The integer nearest to [m ≥ 0] that has a significand of 53 bits; of
    two nearest ones, the one with the even significand. *)
Definition nearest_even (m : Z) : Z :=
  let e := Z.log2 m - 52 in
  if e <=? 0 then m
  else
    let q := m / 2 ^ e in
    let r := m mod 2 ^ e in
    let half := 2 ^ (e - 1) in
    if (half <? r) || ((r =? half) && Z.odd q)
    then (q + 1) * 2 ^ e
    else q * 2 ^ e.

(** The double of an exact integer result: rounded, and infinite when the
    rounded magnitude reaches 2^1024. *)
Definition to_double (z : Z) : number :=
  let m := nearest_even (Z.abs z) in
  if 2 ^ 1024 <=? m then Infinity (z <? 0) else Int (Z.sgn z * m).

(** [x * y] *)
Definition mul (x y : number) : number :=
  match x, y with
  | NaN, _ | _, NaN => NaN
  | Infinity s, Infinity s' => Infinity (xorb s s')
  | Infinity s, Int z | Int z, Infinity s =>
      if z =? 0 then NaN else Infinity (xorb s (z <? 0))
  | Int a, Int b => to_double (a * b)
  end.

(** [x + y] *)
Definition add (x y : number) : number :=
  match x, y with
  | NaN, _ | _, NaN => NaN
  | Infinity s, Infinity s' => if Bool.eqb s s' then Infinity s else NaN
  | Infinity s, Int _ | Int _, Infinity s => Infinity s
  | Int a, Int b => to_double (a + b)
  end.

(** [parseInt(ds, 10)] on a capture of [\d+]: the double nearest to the
    integer that the digits write; not-a-number when there is no digit. *)
Definition parseInt (ds : jsstring) : number :=
  match ds with
  | [] => NaN
  | _ => to_double (JS.parseInt ds)
  end.

(** A number that is at least [low]: an integer from [low] on, or the
    positive infinity. *)
Definition at_least (low : Z) (n : number) : Prop :=
  match n with
  | Int z => low ≤ z
  | Infinity false => True
  | _ => False
  end.

(** *** Dates

    A [Date] is its time value: [Some t] for [t] milliseconds since the
    epoch, [None] for the invalid date, whose time value is not-a-number.
    Time values are integers of at most 8.64e15 in magnitude; with the
    offsets of the time zone database, all below a day, every intermediate
    value of the functions below is an integer below 2^53, on which the
    arithmetic of doubles is exact. *)

Definition maxTime : Z := 8640000000000000.

Definition TimeClip (time : Z) : option Z :=
  if bool_decide (Z.abs time ≤ maxTime) then Some time else None.

(** [d.getTime()] *)
Definition getTime (d : option Z) : number :=
  match d with
  | Some t => Int t
  | None => NaN
  end.

(** The clock reads the time value [now], and both [interval] and
    [now + interval] are at most the largest safe integer: the products
    and the sum that lead from a number of minutes, hours or days to
    [now + interval] are then exact. *)
Definition in_safe_range (now interval : Z) : Prop :=
  Z.abs now ≤ maxTime
  ∧ interval ≤ MAX_SAFE_INTEGER
  ∧ now + interval ≤ MAX_SAFE_INTEGER.

Section Dates.

(** [LocalTZA(t, isUTC)]: the offset of local time at the instant [t] when
    [isUTC] holds, and otherwise the offset with which the local time [t]
    is read (the offset before the change, for a local time that a change
    of offset skips or repeats). *)
Variable LocalTZA : Z → bool → Z.

(** [month_start d] is the day number of the first day of the month that
    contains day [d], as fixed by the calendar. *)
Variable month_start : Z → Z.

(** [String.prototype.toLowerCase]. *)
Variable toLowerCase : jsstring → jsstring.

Definition LocalTime (t : Z) : Z := t + LocalTZA t true.
Definition UTC (t : Z) : Z := t - LocalTZA t false.

(** [d.setHours(hour, min, sec, ms)]: the date afterwards. *)
Definition setHours (d : option Z) (hour min sec ms : Z) : option Z :=
  match d with
  | Some t =>
      TimeClip (UTC (Scheduler.MakeDate (Scheduler.Day (LocalTime t))
                       (Scheduler.MakeTime hour min sec ms)))
  | None => None
  end.

(** [d.getDate()] of a valid date. *)
Definition getDate (t : Z) : Z := Scheduler.DateFromTime month_start (LocalTime t).

(** [d.setDate(date)]: the date afterwards. *)
Definition setDate (d : option Z) (date : Z) : option Z :=
  match d with
  | Some t =>
      TimeClip (UTC (Scheduler.MakeDate
                       (Scheduler.MakeDay_in_month_of month_start (LocalTime t) date)
                       (Scheduler.TimeWithinDay (LocalTime t))))
  | None => None
  end.

(** The target of the "at" and "daily" blocks. The hour and the minute are
    captures of at most two digits, whose value [parseInt] gives exactly.
    An invalid target is not moved: the comparison of not-a-number is
    false. *)
Definition daily_target (now hours minutes : Z) : option Z :=
  let target := setHours (Some now) hours minutes 0 0 in
  match target with
  | Some t =>
      if bool_decide (t ≤ now) then setDate target (getDate t + 1) else target
  | None => target
  end.

(** *** [calculateNextRun] *)

(** The block for "in X minutes/hours/days". *)
Definition in_block (now : Z) (schedule : jsstring) : option number :=
  match match_anchored Scheduler.in_re schedule with
  | Some [v; unit] =>
      let value := parseInt v in
      let unit := toLowerCase unit in
      if startsWith unit (js "min")
      then Some (add (Int now) (mul (mul value (Int 60)) (Int 1000)))
      else if startsWith unit (js "h")
      then Some (add (Int now) (mul (mul (mul value (Int 60)) (Int 60)) (Int 1000)))
      else if startsWith unit (js "d")
      then Some (add (Int now)
                   (mul (mul (mul (mul value (Int 24)) (Int 60)) (Int 60)) (Int 1000)))
      else None
  | _ => None
  end.

(** The block for "at HH:MM" (today or tomorrow). *)
Definition at_block (now : Z) (schedule : jsstring) : option number :=
  match match_anchored Scheduler.at_re schedule with
  | Some [h; m] =>
      let hours := JS.parseInt h in
      let minutes := JS.parseInt m in
      let target := setHours (Some now) hours minutes 0 0 in
      let target :=
        match target with
        | Some t =>
            if bool_decide (t ≤ now) then setDate target (getDate t + 1) else target
        | None => target
        end in
      Some (getTime target)
  | _ => None
  end.

(** The block for "tomorrow at HH:MM". *)
Definition tomorrow_block (now : Z) (schedule : jsstring) : option number :=
  match match_anchored Scheduler.tomorrow_re schedule with
  | Some [h; m] =>
      let hours := JS.parseInt h in
      let minutes := JS.parseInt m in
      let target := setDate (Some now) (getDate now + 1) in
      let target := setHours target hours minutes 0 0 in
      Some (getTime target)
  | _ => None
  end.

(** The block for "every day at HH:MM" and "daily at HH:MM". *)
Definition daily_block (now : Z) (schedule : jsstring) : option number :=
  match match_anchored Scheduler.daily_re schedule with
  | Some [h; m] =>
      let hours := JS.parseInt h in
      let minutes := JS.parseInt m in
      let target := setHours (Some now) hours minutes 0 0 in
      let target :=
        match target with
        | Some t =>
            if bool_decide (t ≤ now) then setDate target (getDate t + 1) else target
        | None => target
        end in
      Some (getTime target)
  | _ => None
  end.

(** The block for "every X minutes/hours". *)
Definition every_block (now : Z) (schedule : jsstring) : option number :=
  match match_anchored Scheduler.every_re schedule with
  | Some [v; unit] =>
      let value := parseInt v in
      let unit := toLowerCase unit in
      if startsWith unit (js "min")
      then Some (add (Int now) (mul (mul value (Int 60)) (Int 1000)))
      else if startsWith unit (js "h")
      then Some (add (Int now) (mul (mul (mul value (Int 60)) (Int 60)) (Int 1000)))
      else None
  | _ => None
  end.

(** [calculateNextRun(scheduleStr)], evaluated when the clock reads [now]
    ([new Date()], a valid date); [None] is [null]. *)
Definition calculateNextRun (now : Z) (scheduleStr : jsstring) : option number :=
  let schedule := trim (toLowerCase scheduleStr) in
  Scheduler.or_else (in_block now schedule)
    (Scheduler.or_else (at_block now schedule)
       (Scheduler.or_else (tomorrow_block now schedule)
          (Scheduler.or_else (daily_block now schedule)
             (every_block now schedule)))).

(** *** [handleCreateTask] *)

Record ScheduledTask := {
  id : jsstring;
  title : jsstring;
  prompt : option jsstring;
  schedule : jsstring;
  nextRun : number;
  isRecurring : bool;
  notifyBefore : option Z;
  enabled : bool;
}.

Inductive ClientEvent :=
| scheduler_tasks_get
| scheduler_task_create (payload : ScheduledTask)
| scheduler_task_update (task_id : jsstring) (task_enabled : bool)
| scheduler_task_delete (task_id : jsstring).

Record Handled := {
  alerts : list jsstring;
  sent : list ClientEvent;
  form_after : Scheduler.Form;
}.

(** [handleCreateTask], run when the clock reads [now] and
    [crypto.randomUUID()] gives [uuid]. The test [!nextRun] holds of [null],
    of zero and of not-a-number. *)
Definition handleCreateTask (now : Z) (uuid : jsstring) (f : Scheduler.Form)
    : Handled :=
  if negb (truthy (Some (trim (Scheduler.form_title f))))
     || negb (truthy (Some (trim (Scheduler.form_schedule f))))
  then {| alerts := []; sent := []; form_after := f |}
  else
    match calculateNextRun now (Scheduler.form_schedule f) with
    | None | Some NaN | Some (Int 0) =>
        {| alerts := [js "Invalid schedule format"]; sent := [];
           form_after := Scheduler.set_isSubmitting false f |}
    | Some next =>
        let recurring :=
          startsWith (Scheduler.form_schedule f) (js "every")
          || startsWith (Scheduler.form_schedule f) (js "daily") in
        let task :=
          {| id := uuid;
             title := trim (Scheduler.form_title f);
             prompt := match trim (Scheduler.form_prompt f) with
                       | [] => None
                       | p => Some p
                       end;
             schedule := Scheduler.form_schedule f;
             nextRun := next;
             isRecurring := recurring;
             notifyBefore := Scheduler.form_notifyBefore f;
             enabled := true |} in
        {| alerts := []; sent := [scheduler_task_create task];
           form_after := Scheduler.reset_form |}
    end.

End Dates.

(** *** Hosts and local times *)

(** Around [now] the offset of the zone is [tza]: for the instants from one
    day before [now] to two days after it, and for the local times in the
    same days. *)
Definition steady_zone (LocalTZA : Z → bool → Z) (now tza : Z) : Prop :=
  (∀ t, now - Scheduler.msPerDay ≤ t ≤ now + 2 * Scheduler.msPerDay →
        LocalTZA t true = tza)
  ∧ (∀ t, now + tza - Scheduler.msPerDay ≤ t ≤ now + tza + 2 * Scheduler.msPerDay →
          LocalTZA t false = tza).

(** The local time [x] is on the clock of the zone: it is read as a valid
    date, and at that instant the local clock shows [x]. A local time that
    a change of offset skips is not. *)
Definition on_the_clock (LocalTZA : Z → bool → Z) (x : Z) : Prop :=
  Z.abs (UTC LocalTZA x) ≤ maxTime ∧ LocalTime LocalTZA (UTC LocalTZA x) = x.

(** The texts HH and MM of a time of day. *)
Definition time_of_day (hh mm : jsstring) : Prop :=
  (1 ≤ length hh ≤ 2)%nat ∧ forallb is_digit hh = true
  ∧ length mm = 2%nat ∧ forallb is_digit mm = true
  ∧ JS.parseInt hh < 24 ∧ JS.parseInt mm < 60.

(** The zone America/New_York in 2026: five hours behind UTC, and four
    hours from 2026-03-08T07:00:00Z to 2026-11-01T06:00:00Z. A local time
    is read with the offset before the change when a change skips it (02:00
    to 03:00 on 8 March) or repeats it (01:00 to 02:00 on 1 November). *)
Definition new_york_2026 (t : Z) (isUTC : bool) : Z :=
  let spring := 1772953200000 in
  let autumn := 1793512800000 in
  let t := if isUTC then t else t + 14400000 in
  if t <? spring then -18000000
  else if t <? autumn then -14400000
  else -18000000.

(** A host in the zone UTC. *)
Definition utc_zone (t : Z) (isUTC : bool) : Z := 0.

End HostScheduler.

(** ** Lists of words *)

Module PreviewWords.
Import NotificationPreview.

(** Word lists as [words] produces them. *)
Definition well_formed (ws : list jsstring) : Prop :=
  Forall (λ w, w ≠ [] ∧ visible w) ws.

End PreviewWords.

(** ** The text of a response (electron/libs/notification-preview.ts) *)

Module ResponseText.
Import NotificationPreview.

(** An element of [message.content]; both fields are optional. *)
Record ContentItem := {
  item_type : option jsstring;
  item_text : option jsstring;
}.

(** The messages told apart by [extractResponseText]: a value that is no
    object, and objects by their [type]. For an assistant message
    [content] is [message?.content], [None] when a link is missing; an
    element of the array may itself be [null]. *)
Inductive AnyMessage :=
| not_an_object
| assistant_message (content : option (list (option ContentItem)))
| text_message (text : option jsstring)
| result_message (result : option jsstring)
| other_message (type : option jsstring).

(** [item?.type === "text" && typeof item.text === "string"] *)
Definition is_text_item (item : option ContentItem) : bool :=
  match item with
  | Some i => bool_decide (item_type i = Some (js "text")) && bool_decide (is_Some (item_text i))
  | None => false
  end.

(** [Array.prototype.join(" ")] *)
Fixpoint join_space (parts : list jsstring) : jsstring :=
  match parts with
  | [] => []
  | [p] => p
  | p :: rest => p ++ js " " ++ join_space rest
  end.

(** The texts kept by the [filter] and [map] of the assistant branch. *)
Definition text_parts (content : list (option ContentItem)) : list jsstring :=
  (λ item, default [] (item ≫= item_text)) <$> List.filter is_text_item content.

Definition extractResponseText (message : AnyMessage) : option jsstring :=
  match message with
  | not_an_object => None
  | assistant_message content =>
      let content := default [] content in
      let parts := text_parts content in
      let joined := trim (join_space parts) in
      if truthy (Some joined) then Some joined else None
  | text_message text => text
  | result_message result => result
  | other_message _ => None
  end.

End ResponseText.

(** ** Partial messages (electron/main.ts) *)

Module PartialMessages.

(** [shouldHandlePartialMessage] of the agent's main process. *)
Definition shouldHandlePartialMessage
    (activeSessionId eventSessionId : option jsstring) : bool :=
  if negb (truthy activeSessionId) || negb (truthy eventSessionId) then false
  else bool_decide (activeSessionId = eventSessionId).

End PartialMessages.

(** ** [basename], [extname] and [join] of Node.js, POSIX flavour *)

Module PathNames.
Import Path.

Definition DOT_UNIT : code_unit := 46.

(** [path.charCodeAt(i)] at an index of the string. *)
Definition charCodeAt (path : list code_unit) (i : nat) : code_unit :=
  default 0 (path !! i).

(** [path.slice(start, end)] for [0 <= start] and [0 <= end]. *)
Definition slice (path : jsstring) (start end_ : nat) : jsstring :=
  drop start (take end_ path).

(** The loop of [path.basename]: [i] counts the indices still to visit,
    from the end of the path; the answer is [(start, end)], [end] being
    [None] for -1. *)
Fixpoint basename_loop (path : jsstring) (i : nat)
    (end_ : option nat) (matchedSlash : bool) : nat * option nat :=
  match i with
  | O => (O, end_)
  | S j =>
      if charCodeAt path j =? SLASH then
        if negb matchedSlash then (S j, end_)
        else basename_loop path j end_ matchedSlash
      else
        match end_ with
        | None => basename_loop path j (Some (S j)) false
        | Some _ => basename_loop path j end_ matchedSlash
        end
  end.

(** [path.basename(path)] *)
Definition basename (path : jsstring) : jsstring :=
  match basename_loop path (length path) None true with
  | (_, None) => []
  | (start, Some end_) => slice path start end_
  end.

(** The variables of the loop of [path.extname]. *)
Record ExtScan := {
  startDot : option nat;
  startPart : nat;
  scan_end : option nat;
  matchedSlash : bool;
  preDotState : Z;
}.

Fixpoint extname_loop (path : jsstring) (i : nat) (st : ExtScan) : ExtScan :=
  match i with
  | O => st
  | S j =>
      let code := charCodeAt path j in
      if code =? SLASH then
        if negb (matchedSlash st)
        then {| startDot := startDot st; startPart := S j; scan_end := scan_end st;
                matchedSlash := matchedSlash st; preDotState := preDotState st |}
        else extname_loop path j st
      else
        let st :=
          match scan_end st with
          | None => {| startDot := startDot st; startPart := startPart st;
                       scan_end := Some (S j); matchedSlash := false;
                       preDotState := preDotState st |}
          | Some _ => st
          end in
        if code =? DOT_UNIT then
          match startDot st with
          | None =>
              extname_loop path j
                {| startDot := Some j; startPart := startPart st;
                   scan_end := scan_end st; matchedSlash := matchedSlash st;
                   preDotState := preDotState st |}
          | Some _ =>
              extname_loop path j
                {| startDot := startDot st; startPart := startPart st;
                   scan_end := scan_end st; matchedSlash := matchedSlash st;
                   preDotState := 1 |}
          end
        else
          match startDot st with
          | Some _ =>
              extname_loop path j
                {| startDot := startDot st; startPart := startPart st;
                   scan_end := scan_end st; matchedSlash := matchedSlash st;
                   preDotState := (-1) |}
          | None => extname_loop path j st
          end
  end.

(** [path.extname(path)] *)
Definition extname (path : jsstring) : jsstring :=
  let st := extname_loop path (length path)
              {| startDot := None; startPart := O; scan_end := None;
                 matchedSlash := true; preDotState := 0 |} in
  match startDot st, scan_end st with
  | Some dot, Some end_ =>
      if bool_decide (preDotState st = 0%Z)
         || (bool_decide (preDotState st = 1%Z)
             && bool_decide (dot = (end_ - 1)%nat)
             && bool_decide (dot = (startPart st + 1)%nat))
      then []
      else slice path dot end_
  | _, _ => []
  end.

(** [path.join(...args)] *)
Definition join (args : list jsstring) : jsstring :=
  match List.filter (λ arg, negb (bool_decide (arg = []))) args with
  | [] => DOT
  | arg :: rest => normalize (foldl (λ joined a, joined ++ SLASH :: a) arg rest)
  end.

(** The segments that [normalizeString] keeps when none is "..". *)
Definition proper (seg : jsstring) : bool :=
  negb (bool_decide (seg = []) || bool_decide (seg = DOT)).

(** A segment that [normalizeString] keeps as it is. *)
Definition clean (seg : jsstring) : Prop :=
  seg ≠ [] ∧ seg ≠ DOT ∧ seg ≠ DOTDOT ∧ SLASH ∉ seg.

(** The state of the loop of [extname] on a path without separators. *)
Definition plain_scan (path : jsstring) (st : ExtScan) : Prop :=
  startPart st = O
  ∧ (scan_end st = None ∨ scan_end st = Some (length path))
  ∧ (∀ dot, startDot st = Some dot →
       path !! dot = Some DOT_UNIT ∧ scan_end st = Some (length path)).

End PathNames.

(** ** Paths of the sandbox *)

Module SandboxPaths.
Import Path Sandbox.

(** The workspace of a sandbox run: [resolve(cwd)]. *)
Definition workspace_root (process_cwd cwd : jsstring) : jsstring :=
  resolve process_cwd [cwd].

End SandboxPaths.

(** ** Pasted images (electron/main.ts) *)

Module PastedImages.
Import Path PathNames.

Definition is_alphanumeric (c : code_unit) : bool :=
  ((97 <=? c) && (c <=? 122)) || ((65 <=? c) && (c <=? 90)) || is_digit c.

(** The class [[a-zA-Z0-9.+-]] of the MIME subtype. *)
Definition is_mime_unit (c : code_unit) : bool :=
  is_alphanumeric c || (c =? 46) || (c =? 43) || (c =? 45).

(** The class [[a-zA-Z0-9._-]] kept in a file name. *)
Definition is_name_unit (c : code_unit) : bool :=
  is_alphanumeric c || (c =? 46) || (c =? 95) || (c =? 45).

(** What [.] does not match: the line terminators. *)
Definition is_line_terminator (c : code_unit) : bool :=
  (c =? 10) || (c =? 13) || (c =? 8232) || (c =? 8233).

(** What follows the prefix [p] in [s], when [s] starts with it. *)
Definition strip (p s : jsstring) : option jsstring :=
  if startsWith s p then Some (drop (length p) s) else None.

(** The longest run of units of a class at the head of a string, and what
    follows it. *)
Fixpoint span (f : code_unit → bool) (s : jsstring) : jsstring * jsstring :=
  match s with
  | c :: s' => if f c then let '(run, rest) := span f s' in (c :: run, rest)
               else ([], s)
  | [] => ([], [])
  end.

(** [/^data:(image\/[a-zA-Z0-9.+-]+);base64,(.+)$/.exec(dataUrl)]: the two
    groups of the match. The unit after the subtype is ";", which is not in
    its class, so the subtype is the longest run of the class. *)
Definition match_data_url (dataUrl : jsstring) : option (jsstring * jsstring) :=
  s1 ← strip (js "data:") dataUrl;
  s2 ← strip (js "image/") s1;
  let '(subtype, rest) := span is_mime_unit s2 in
  if bool_decide (subtype = []) then None
  else
    s3 ← strip (js ";base64,") rest;
    if bool_decide (s3 = []) || existsb is_line_terminator s3 then None
    else Some (js "image/" ++ subtype, s3).

Definition mimeToExt : list (jsstring * jsstring) :=
  [ (js "image/png", js "png"); (js "image/jpeg", js "jpg");
    (js "image/jpg", js "jpg"); (js "image/webp", js "webp");
    (js "image/gif", js "gif"); (js "image/bmp", js "bmp");
    (js "image/tiff", js "tiff"); (js "image/heic", js "heic");
    (js "image/heif", js "heif") ].

(** [mimeToExt[mime]]; a key of the table starts with "image/", as [mime]
    does, so no inherited property is met. *)
Definition lookup_ext (mime : jsstring) : option jsstring :=
  snd <$> find (λ entry, bool_decide (entry.1 = mime)) mimeToExt.

(** [mimeToExt[mime] || "png"] *)
Definition preferred_ext (mime : jsstring) : jsstring :=
  match lookup_ext mime with
  | Some ext => if truthy (Some ext) then ext else js "png"
  | None => js "png"
  end.

(** [baseName.replace(/[^a-zA-Z0-9._-]/g, "_")] *)
Definition sanitize (baseName : jsstring) : jsstring :=
  (λ c, if is_name_unit c then c else 95) <$> baseName.

(** The extensions of the table. *)
Definition known_exts : list jsstring := snd <$> mimeToExt.

Definition maxBytes : N := 15 * 1024 * 1024.

(** What the handler does on the file system, and what it returns. *)
Record Written := {
  made_dir : jsstring;
  written_path : jsstring;
  written_data : list N;
  saved_name : jsstring;
  saved_mime : jsstring;
  saved_size : nat;
}.

Inductive Saved :=
| save_error (message : jsstring)
| save_ok (w : Written).

Section Handler.

Variable process_cwd : jsstring.
Variable toLowerCase : jsstring → jsstring.

(** [Buffer.from(base64, "base64")] *)
Variable decode_base64 : jsstring → list N.

(** [finalName], from the sanitised base name and the preferred
    extension. *)
Definition final_name (sanitizedBase preferredExt : jsstring) : jsstring :=
  let currentExt := toLowerCase (extname sanitizedBase) in
  if negb (truthy (Some currentExt))
  then sanitizedBase ++ js "." ++ preferredExt
  else if truthy (Some preferredExt)
          && bool_decide (currentExt ≠ js "." ++ preferredExt)
  then
    let withoutExt := take (length sanitizedBase - length currentExt) sanitizedBase in
    withoutExt ++ js "." ++ preferredExt
  else sanitizedBase.

(** The handler of "save-pasted-image" when [fs.mkdir] and [fs.writeFile]
    succeed, up to the relative path it returns; [now] is the decimal
    text of [Date.now()] and [uuid] is [randomUUID()]. *)
Definition save_pasted_image (dataUrl cwd fileName : option jsstring)
    (now uuid : jsstring) : Saved :=
  if negb (truthy dataUrl) || negb (truthy cwd)
  then save_error (js "Missing image data or workspace folder")
  else
    let normalizedCwd := resolve process_cwd [default [] cwd] in
    if negb (truthy (Some normalizedCwd)) || bool_decide (normalizedCwd = DOT)
    then save_error (js "Invalid workspace folder")
    else
      match match_data_url (default [] dataUrl) with
      | None => save_error (js "Invalid image data URL")
      | Some (group1, base64) =>
          let mime := toLowerCase group1 in
          let buffer := decode_base64 base64 in
          if bool_decide (maxBytes < N.of_nat (length buffer))
          then save_error (js "Image is too large (max 15MB)")
          else
            let attachmentsDir := join [normalizedCwd; js ".localdesk-attachments"] in
            let baseName :=
              if truthy fileName then basename (default [] fileName)
              else js "pasted-" ++ now ++ js "-" ++ take 8 uuid in
            let sanitizedBase := sanitize baseName in
            let preferredExt := preferred_ext mime in
            let finalName := final_name sanitizedBase preferredExt in
            let fullPath := join [attachmentsDir; finalName] in
            save_ok {| made_dir := attachmentsDir; written_path := fullPath;
                       written_data := buffer; saved_name := finalName;
                       saved_mime := mime; saved_size := length buffer |}
      end.

End Handler.

(** The attachment folder of a workspace whose resolved path is [root]. *)
Definition attachments_dir (root : jsstring) : jsstring :=
  (if bool_decide (root = sep) then [] else root) ++ js "/.localdesk-attachments".

End PastedImages.

(** ** The answer of "list-directory" (electron/main.ts) *)

Module DirectoryListing.
Import Path PathNames Workspace.

(** An entry of [fs.readdir(dirPath, { withFileTypes: true })]. *)
Record Dirent := {
  entry_name : jsstring;
  entry_isDirectory : bool;
}.

(** An item of the answer of "list-directory"; [size] is [undefined] for a
    directory and when [fs.stat] fails. *)
Record FileItem := {
  item_name : jsstring;
  item_path : jsstring;
  isDirectory : bool;
  size : option Z;
}.

Section Listing.

(** [a.localeCompare(b)], fixed by the locale of the runtime. *)
Variable localeCompare : jsstring → jsstring → Z.

(** The comparator handed to [sort]. *)
Definition compare_items (a b : FileItem) : Z :=
  if isDirectory a && negb (isDirectory b) then (-1)%Z
  else if negb (isDirectory a) && isDirectory b then 1%Z
  else localeCompare (item_name a) (item_name b).

(** [a] may stand before [b] in a sorted array. *)
Definition in_order (a b : FileItem) : Prop := (compare_items a b ≤ 0)%Z.

(** [Array.prototype.sort] is stable: an item goes before the first of the
    later items that it may precede. With a consistent comparator this
    fixes the result. *)
Fixpoint insert_item (x : FileItem) (sorted : list FileItem) : list FileItem :=
  match sorted with
  | [] => [x]
  | y :: rest =>
      if bool_decide (compare_items x y ≤ 0)%Z then x :: sorted
      else y :: insert_item x rest
  end.

Definition sort_items (files : list FileItem) : list FileItem :=
  foldr insert_item [] files.

(** The result of [fs.stat(fullPath)]: the size of the file, when the call
    succeeds. *)
Variable stat_size : jsstring → option Z.

Definition to_item (dirPath : jsstring) (entry : Dirent) : FileItem :=
  let fullPath := join [dirPath; entry_name entry] in
  {| item_name := entry_name entry;
     item_path := fullPath;
     isDirectory := entry_isDirectory entry;
     size := if negb (entry_isDirectory entry) then stat_size fullPath else None |}.

Variable process_cwd : jsstring.
Variable toLowerCase : jsstring → jsstring.
Variable normalizeNFC : jsstring → jsstring.

(** [fs.readdir]: the entries of a directory, or [None] when it throws. *)
Variable readdir : jsstring → option (list Dirent).

(** The answer of the handler of "list-directory". *)
Definition list_directory_answer (allSessions : list Session) (dirPath : jsstring)
    : list FileItem :=
  match list_directory process_cwd toLowerCase normalizeNFC allSessions dirPath with
  | Refused _ => []
  | Allowed target =>
      match readdir target with
      | None => []
      | Some entries => sort_items (to_item target <$> entries)
      end
  end.

End Listing.

(** What ECMAScript asks of a comparator for the result of [sort] to be
    defined: it is a total preorder. *)
Record consistent {A} (compare : A → A → Z) : Prop := {
  consistent_flip : ∀ a b, (compare a b < 0 ↔ 0 < compare b a)%Z;
  consistent_trans : ∀ a b c, (compare a b ≤ 0 → compare b c ≤ 0 → compare a c ≤ 0)%Z;
}.

End DirectoryListing.

(** ** JavaScript numbers and the limits of two handlers (electron/main.ts) *)

Module Numbers.

(** A JavaScript number: not-a-number, an infinity, or a finite value. *)
Inductive number :=
| NaN
| Infinity (negative : bool)
| Finite (q : Q).

(** [a < b] *)
Definition lt (a b : number) : bool :=
  match a, b with
  | NaN, _ | _, NaN => false
  | Infinity true, Infinity true => false
  | Infinity true, _ => true
  | _, Infinity true => false
  | Infinity false, _ => false
  | _, Infinity false => true
  | Finite x, Finite y => negb (Qle_bool y x)
  end.

(** [Math.min(a, b)] and [Math.max(a, b)] *)
Definition min (a b : number) : number :=
  match a, b with
  | NaN, _ | _, NaN => NaN
  | _, _ => if lt b a then b else a
  end.

Definition max (a b : number) : number :=
  match a, b with
  | NaN, _ | _, NaN => NaN
  | _, _ => if lt a b then b else a
  end.

(** Truthiness of [number | undefined]. *)
Definition truthy_number (n : option number) : bool :=
  match n with
  | Some (Finite q) => negb (Qeq_bool q 0)
  | Some (Infinity _) => true
  | Some NaN | None => false
  end.

Definition of_Z (z : Z) : number := Finite (inject_Z z).

End Numbers.

Module RequestLimits.
Import Numbers.

(** [boundedLimit] of the handler of "get-recent-cwds". *)
Definition boundedLimit (limit : option number) : number :=
  if truthy_number limit
  then min (max (default NaN limit) (of_Z 1)) (of_Z 20)
  else of_Z 8.

(** [maxPixels] of the handler of "get-image-preview". *)
Definition maxPixels (maxSize : option number) : number :=
  match maxSize with
  | Some n => if lt (of_Z 0) n then min n (of_Z 512) else of_Z 320
  | None => of_Z 320
  end.

(** A finite number between two integers. *)
Definition between (low high : Z) (n : number) : Prop :=
  ∃ q, n = Finite q ∧ (inject_Z low <= q)%Q ∧ (q <= inject_Z high)%Q.

End RequestLimits.

(** ** Loading the development server (electron/main.ts) *)

Module DevServer.

(** How [loadURLWithRetry] ends: the page is loaded, or the last failure
    is logged; each with the number of calls of [win.loadURL]. *)
Inductive Loading :=
| loaded (attempts : nat)
| gave_up (attempts : nat).

(** [tryLoad], called again by the timer after each failure.
    [loadURL k] tells whether the [k]-th call of [win.loadURL] succeeds,
    [attempt] is the counter before the call, and [fuel] bounds the number
    of calls looked at. *)
Fixpoint tryLoad (loadURL : nat → bool) (maxAttempts : Z) (attempt : nat)
    (fuel : nat) : option Loading :=
  match fuel with
  | O => None
  | S fuel' =>
      let attempt := S attempt in
      if loadURL attempt then Some (loaded attempt)
      else if bool_decide (maxAttempts ≤ Z.of_nat attempt)%Z
      then Some (gave_up attempt)
      else tryLoad loadURL maxAttempts attempt fuel'
  end.

(** [loadURLWithRetry(win, url, { maxAttempts })]; [maxAttempts] is 60
    when the option is absent. *)
Definition loadURLWithRetry (loadURL : nat → bool) (maxAttempts : option Z)
    (fuel : nat) : option Loading :=
  tryLoad loadURL (default 60%Z maxAttempts) O fuel.

End DevServer.

(** ** The [render_page] tool, in its version with Telegram links
       (libs/tools/render-page-tool.ts) *)

Module RenderPage.
Import Path PastedImages Numbers Sandbox.

(** The parts of [new URL(url)] read by [convertTelegramUrl]. *)
Record ParsedURL := {
  hostname : jsstring;
  pathname : jsstring;
}.

Record Converted := {
  converted_url : jsstring;
  isTelegram : bool;
  postId : option jsstring;
}.

(** The groups 1 and 3 of [/^([^\/]+)(\/(\d+))?$/], which the two
    patterns of [convertTelegramUrl] apply to what follows "/" or "/s/" in
    the path: a run of units other than the separator, which is the
    longest such run since what follows it is a separator or the end, then
    nothing or a separator and digits. *)
Definition match_channel (s : jsstring) : option (jsstring * option jsstring) :=
  let '(channel, rest) := span (λ c, negb (c =? SLASH)) s in
  if bool_decide (channel = []) then None
  else
    match rest with
    | [] => Some (channel, None)
    | _ :: ds =>
        if negb (bool_decide (ds = [])) && forallb is_digit ds
        then Some (channel, Some ds)
        else None
    end.

Section Convert.

(** [new URL(url)], [None] when it throws. *)
Variable parse_url : jsstring → option ParsedURL.

Definition convertTelegramUrl (url : jsstring) : Converted :=
  let other := {| converted_url := url; isTelegram := false; postId := None |} in
  match parse_url url with
  | None => other
  | Some parsed =>
      if bool_decide (hostname parsed = js "t.me")
         || bool_decide (hostname parsed = js "telegram.me")
      then
        let path := pathname parsed in
        if startsWith path (js "/s/")
        then
          let postId :=
            match strip (js "/s/") path ≫= match_channel with
            | Some (_, Some group3) => if truthy (Some group3) then Some group3 else None
            | _ => None
            end in
          {| converted_url := url; isTelegram := true; postId := postId |}
        else
          match strip (js "/") path ≫= match_channel with
          | Some (channel, group3) =>
              let postIdPart :=
                match group3 with
                | Some ds => js "/" ++ ds
                | None => []
                end in
              let postId :=
                match group3 with
                | Some ds => if truthy (Some ds) then Some ds else None
                | None => None
                end in
              {| converted_url := js "https://t.me/s/" ++ channel ++ postIdPart;
                 isTelegram := true; postId := postId |}
          | None => other
          end
      else other
  end.



End Convert.

(** One pass of the retry loop: the page finished loading, or the load
    was rejected with a message. *)
Inductive PageLoad :=
| page_loaded
| page_failed (message : jsstring).

Definition MAX_RETRIES : nat := 3.

(** The state at the end of the retry loop. *)
Record Loaded := {
  attempts : nat;
  lastError : option jsstring;
  renderWindow : bool;
}.

(** The retry loop from the pass [attempt] on; [remaining] passes are left
    before [attempt] exceeds [MAX_RETRIES]. *)
Fixpoint load_loop (load : nat → PageLoad) (attempt remaining : nat)
    (lastError : option jsstring) (renderWindow : bool) : Loaded :=
  match remaining with
  | O => {| attempts := attempt - 1; lastError := lastError;
            renderWindow := renderWindow |}
  | S remaining' =>
      match load attempt with
      | page_loaded =>
          {| attempts := attempt; lastError := None; renderWindow := true |}
      | page_failed message =>
          if includes message (js "timeout") || bool_decide (MAX_RETRIES ≤ attempt)%nat
          then {| attempts := attempt; lastError := Some message;
                  renderWindow := false |}
          else load_loop load (S attempt) remaining' (Some message) false
      end
  end.

Definition FAILED_TO_LOAD : jsstring :=
  [10060] ++ js " Failed to load page after "
  ++ NextRunLabel.number_text (Z.of_nat MAX_RETRIES) ++ js " attempts: ".

(** The loading phase of [executeRenderPageTool]: the number of passes
    made, and the error returned when the page could not be loaded. *)
Definition load_page (load : nat → PageLoad) : nat * option jsstring :=
  let ended := load_loop load 1 MAX_RETRIES None false in
  (attempts ended,
   match lastError ended with
   | Some message =>
       Some (FAILED_TO_LOAD
             ++ (if truthy (Some message) then message else js "Unknown error")
             ++ [10; 10] ++ js "**Possible causes:**" ++ [10]
             ++ js "- Network connectivity issues" ++ [10]
             ++ js "- SSL/TLS handshake problems" ++ [10]
             ++ js "- Site blocking automated requests")
   | None =>
       if negb (renderWindow ended)
       then Some (FAILED_TO_LOAD ++ js "Unknown error"
                  ++ [10; 10] ++ js "**Possible causes:**" ++ [10]
                  ++ js "- Network connectivity issues" ++ [10]
                  ++ js "- SSL/TLS handshake problems" ++ [10]
                  ++ js "- Site blocking automated requests")
       else None
   end).

End RenderPage.

(** * Properties *)

(** ** Strings *)

Module StringFacts.

Lemma trimEnd_length (s : jsstring) : (length (trimEnd s) ≤ length s)%nat.
Proof.
  induction s as [|c s IH]; simpl; [lia|].
  destruct (trimEnd s); [destruct (is_white_space c)|]; simpl in *; lia.
Qed.

Lemma trimStart_length (s : jsstring) : (length (trimStart s) ≤ length s)%nat.
Proof.
  induction s as [|c s IH]; simpl; [lia|].
  destruct (is_white_space c); simpl; lia.
Qed.

Lemma trimEnd_app (s t : jsstring) :
  trimEnd (s ++ t) = match trimEnd t with [] => trimEnd s | r => s ++ r end.
Proof.
  induction s as [|c s IH]; simpl.
  - by destruct (trimEnd t).
  - rewrite IH. destruct (trimEnd t) as [|x r]; [done|].
    by destruct s.
Qed.

Lemma trimEnd_cons (c : code_unit) (s : jsstring) :
  trimEnd (c :: s)
  = match trimEnd s with
    | [] => if is_white_space c then [] else [c]
    | r => c :: r
    end.
Proof. reflexivity. Qed.

Lemma trimEnd_cons_visible (c : code_unit) (s : jsstring) :
  is_white_space c = false → ∃ r, trimEnd (c :: s) = c :: r.
Proof. intros Hc. simpl. destruct (trimEnd s); rewrite ?Hc; eauto. Qed.

Lemma trimEnd_visible (s : jsstring) :
  Forall (λ c, is_white_space c = false) s → trimEnd s = s.
Proof.
  induction 1 as [|c s Hc _ IH]; simpl; [done|].
  rewrite IH, Hc. by destruct s.
Qed.

End StringFacts.

(** ** Notification routing *)

Module RoutingFacts.
Import NotificationRouting.

Lemma truthy_spec (o : option jsstring) :
  truthy o = true ↔ ∃ s, o = Some s ∧ s ≠ [].
Proof.
  destruct o as [[|c s]|]; simpl; split; try discriminate; eauto.
  - intros (s & [= <-] & H). by destruct H.
  - by intros (s & ? & _).
Qed.

Lemma truthy_false (o : option jsstring) :
  truthy o = false ↔ o = None ∨ o = Some [].
Proof. destruct o as [[|c s]|]; simpl; split; try discriminate; eauto; by intros [|]. Qed.

(** The cascade of early returns as one boolean expression. *)
Lemma shouldNotifyForSession_cascade status sessionId focusedSessionId :
  shouldNotifyForSession status sessionId focusedSessionId
  = (bool_decide (status = js "completed") || bool_decide (status = js "error"))
    && truthy sessionId
    && (negb (truthy focusedSessionId)
        || bool_decide (focusedSessionId ≠ sessionId)).
Proof.
  unfold shouldNotifyForSession.
  destruct (truthy sessionId), (truthy focusedSessionId);
    repeat case_bool_decide; try reflexivity; tauto.
Qed.

(** C4 (amended): [shouldNotifyForSession] answers [true] exactly when the
    status is "completed" or "error", the session id is present (neither
    [null] nor the empty string) and no session is focused or the focused
    one differs from it; it answers [false] for every "running" event and
    whenever the focused session is the session of the event. *)
Theorem shouldNotifyForSession_eligible :
  (∀ status sessionId focusedSessionId,
     shouldNotifyForSession status sessionId focusedSessionId = true
     ↔ eligible status sessionId focusedSessionId)
  ∧ (∀ sessionId focusedSessionId,
       shouldNotifyForSession (js "running") sessionId focusedSessionId = false)
  ∧ (∀ status sessionId,
       shouldNotifyForSession status sessionId sessionId = false).
Proof.
  split; [|split].
  - intros status sid foc. rewrite shouldNotifyForSession_cascade.
    unfold eligible.
    rewrite !andb_true_iff, !orb_true_iff, !bool_decide_eq_true,
      negb_true_iff, truthy_spec, truthy_false.
    split.
    + intros [[Hstatus (id & -> & Hid)] Hfocus]. split; [done|]. split; [eauto|].
      destruct Hfocus as [[-> | ->] | Hne]; [by left| |by right].
      right. congruence.
    + intros (Hstatus & Hid & [-> | Hne]); (split; [done|]); [by left; left|by right].
  - intros sid foc. rewrite shouldNotifyForSession_cascade.
    by rewrite !bool_decide_eq_false_2 by (vm_compute; congruence).
  - intros status sid. rewrite shouldNotifyForSession_cascade.
    rewrite (bool_decide_eq_false_2 (sid ≠ sid)) by tauto.
    destruct (truthy sid); [|by rewrite andb_false_r].
    by rewrite !andb_false_r.
Qed.

(** With "present" read as "not null" the equivalence fails: the empty
    string is not null, the status is terminal and nothing is focused, yet
    the answer is [false]. *)
Lemma shouldNotifyForSession_empty_id :
  eligible_as_stated (js "completed") (Some []) None
  ∧ shouldNotifyForSession (js "completed") (Some []) None = false.
Proof. split; [|by vm_compute]. repeat split; [by left|done|by left]. Qed.

End RoutingFacts.

(** ** History staleness *)

Module HistoryFacts.
Import HistorySync RoutingFacts.

(** C5: [shouldMarkHistoryStale] answers [true] exactly when some session
    is focused, the session of the event differs from it and the status is
    "completed" or "error"; a "running" event and any event of the focused
    session never mark the history stale. *)
Theorem shouldMarkHistoryStale_spec :
  (∀ activeSessionId sessionId status,
     shouldMarkHistoryStale activeSessionId sessionId status = true
     ↔ (∃ active, focused activeSessionId active ∧ active ≠ sessionId)
       ∧ (status = js "completed" ∨ status = js "error"))
  ∧ (∀ activeSessionId sessionId,
       shouldMarkHistoryStale activeSessionId sessionId (js "running") = false)
  ∧ (∀ sessionId status,
       shouldMarkHistoryStale (Some sessionId) sessionId status = false).
Proof.
  split; [|split].
  - intros a sid status. unfold shouldMarkHistoryStale, focused.
    destruct a as [[|c s]|]; simpl.
    + split; [discriminate|]. by intros [(f & [[= <-] Hf] & _) _].
    + case_bool_decide as Hsame; simpl.
      * split; [discriminate|]. intros [(f & [[= <-] Hf] & Hne) _]. congruence.
      * rewrite orb_true_iff, !bool_decide_eq_true.
        split; [intros Hst; split; [|done] | tauto].
        exists (c :: s). repeat split; congruence.
    + split; [discriminate|]. by intros [(f & [[=] _] & _) _].
  - intros a sid. unfold shouldMarkHistoryStale.
    destruct (truthy a); cbn [negb]; [|done]. case_bool_decide; [done|].
    by rewrite !bool_decide_eq_false_2 by (vm_compute; congruence).
  - intros sid status. unfold shouldMarkHistoryStale.
    destruct (truthy _); cbn [negb]; [|done]. by rewrite bool_decide_eq_true_2.
Qed.
End HistoryFacts.

(** ** Notification preview *)

Module PreviewFacts.
Import NotificationPreview StringFacts.

Lemma unwords_cons (w : jsstring) (ws : list jsstring) :
  ws ≠ [] → unwords (w :: ws) = w ++ SPACE :: unwords ws.
Proof. by destruct ws. Qed.

Lemma words_from_nonempty (cur text : jsstring) :
  cur ≠ [] → words_from cur text ≠ [].
Proof.
  revert cur. induction text as [|c text IH]; intros cur Hcur; simpl.
  - by destruct cur.
  - destruct (is_white_space c).
    + by destruct cur.
    + apply IH. by destruct cur.
Qed.

Lemma words_from_visible (cur text : jsstring) :
  visible cur → Forall (λ w, w ≠ [] ∧ visible w) (words_from cur text).
Proof.
  revert cur. induction text as [|c text IH]; intros cur Hcur; simpl.
  - destruct cur; [constructor|]. constructor; [done|constructor].
  - destruct (is_white_space c) eqn:Hc.
    + destruct cur; [apply IH; constructor|].
      constructor; [done|]. apply IH. constructor.
    + apply IH, Forall_app. split; [done|]. by constructor.
Qed.

Lemma space_is_white : is_white_space SPACE = true.
Proof. reflexivity. Qed.

(** The three situations of the scan of [replace_ws_runs], each related to
    the words read so far. *)
Lemma normalize_scan (text : jsstring) :
  (∀ cur, cur ≠ [] → visible cur →
     trimEnd (cur ++ replace_ws_runs false text) = unwords (words_from cur text))
  ∧ (∀ cur, cur ≠ [] → visible cur →
       trimEnd (cur ++ SPACE :: replace_ws_runs true text)
       = unwords (cur :: words_from [] text))
  ∧ (∀ in_run,
       trimEnd (trimStart (replace_ws_runs in_run text))
       = unwords (words_from [] text)).
Proof.
  induction text as [|c text (IHa & IHb & IHc)].
  - split; [|split].
    + intros cur Hne Hv. simpl. rewrite app_nil_r, trimEnd_visible by done.
      by destruct cur.
    + intros cur Hne Hv. simpl. rewrite trimEnd_app. simpl.
      by apply trimEnd_visible.
    + done.
  - destruct (is_white_space c) eqn:Hc.
    + split; [|split].
      * intros cur Hne Hv. cbn [replace_ws_runs words_from]. rewrite Hc.
        rewrite IHb by done. by destruct cur.
      * intros cur Hne Hv. cbn [replace_ws_runs words_from]. rewrite Hc.
        by apply IHb.
      * intros in_run. cbn [replace_ws_runs words_from]. rewrite Hc.
        destruct in_run; [apply IHc|].
        cbn [trimStart]. rewrite space_is_white. apply IHc.
    + split; [|split].
      * intros cur Hne Hv. cbn [replace_ws_runs words_from]. rewrite Hc.
        rewrite (cons_middle c), app_assoc.
        apply IHa; [by destruct cur|]. apply Forall_app; split; [done|].
        by constructor.
      * intros cur Hne Hv. cbn [replace_ws_runs words_from]. rewrite Hc.
        assert (trimEnd (c :: replace_ws_runs false text)
                = unwords (words_from [c] text)) as Hw.
        { apply (IHa [c]); [done|]. by constructor. }
        destruct (trimEnd_cons_visible c (replace_ws_runs false text) Hc) as [r Hr].
        rewrite unwords_cons by by apply words_from_nonempty.
        change ([] ++ [c]) with [c].
        by rewrite trimEnd_app, (trimEnd_cons SPACE), <- Hw, Hr.
      * intros in_run. cbn [replace_ws_runs words_from]. rewrite Hc.
        cbn [trimStart]. rewrite Hc. apply (IHa [c]); [done|]. by constructor.
Qed.

Example normalizeResponseText_sample :
  normalizeResponseText (js "  build   passed  in 3s ") = js "build passed in 3s".
Proof. reflexivity. Qed.

Lemma normalizeResponseText_words (text : jsstring) :
  normalizeResponseText text = unwords (words text).
Proof. apply (normalize_scan text). Qed.

Lemma truncateResponseText_length (text : jsstring) (limit : nat) :
  (3 ≤ limit)%nat → (length (truncateResponseText text limit) ≤ limit)%nat.
Proof.
  intros Hl. unfold truncateResponseText. case_bool_decide; [done|].
  rewrite length_app.
  pose proof (trimEnd_length (take (limit - length ELLIPSIS) text)) as Hkept.
  rewrite length_take in Hkept. change (length ELLIPSIS) with 3%nat in *. lia.
Qed.

(** C10: the body built by [buildNotificationBody] has at most 140 units;
    a [null] or empty text gives the empty body; any other text is
    normalised to its words joined by single spaces, which is the body when
    it has at most 140 units, and is otherwise cut to 137 units, stripped
    of trailing white space and followed by "...". *)
Theorem buildNotificationBody_spec (rawText : option jsstring) :
  (length (buildNotificationBody rawText) ≤ 140)%nat
  ∧ (rawText = None ∨ rawText = Some [] → buildNotificationBody rawText = [])
  ∧ (∀ text, rawText = Some text → text ≠ [] →
       let normalized := unwords (words text) in
       Forall (λ w, w ≠ [] ∧ visible w) (words text)
       ∧ normalizeResponseText text = normalized
       ∧ ((length normalized ≤ 140)%nat →
            buildNotificationBody rawText = normalized)
       ∧ ((140 < length normalized)%nat →
            buildNotificationBody rawText
            = trimEnd (take 137 normalized) ++ js "...")).
Proof.
  split; [|split].
  - unfold buildNotificationBody. destruct (truthy rawText); simpl; [|lia].
    by apply (truncateResponseText_length _ 140); lia.
  - by intros [-> | ->].
  - intros text -> Hne normalized.
    split; [apply words_from_visible; constructor|].
    split; [apply normalizeResponseText_words|].
    unfold buildNotificationBody. destruct text as [|c text]; [done|].
    cbn [truthy negb default from_option id]. rewrite normalizeResponseText_words.
    subst normalized. unfold truncateResponseText, BODY_LIMIT.
    split; intros Hlen.
    + by rewrite bool_decide_eq_true_2.
    + by rewrite bool_decide_eq_false_2 by lia.
Qed.

Example buildNotificationBody_long :
  length (buildNotificationBody (Some (concat (replicate 50 (js "word "))))) = 140%nat.
Proof. reflexivity. Qed.

End PreviewFacts.

(** ** Tool schema *)

Module ToolSchemaFacts.
Import ToolSchema.

Lemma memory_is_not_reader : js "manage_memory" ≠ js "read_page".
Proof. vm_compute. congruence. Qed.

Section Facts.

Variable ALL : list ToolDefinition.

Lemma filter_everything (P : ToolDefinition → Prop) `{!∀ t, Decision (P t)} :
  (∀ t, P t) → filter P ALL = ALL.
Proof.
  intros HP. induction ALL as [|t l IH]; [done|].
  by rewrite filter_cons_True, IH.
Qed.

Lemma getTools_filter (settings : option ApiSettings) :
  getTools ALL settings
  = filter (λ t, (tool_name t = js "manage_memory" → memory_set settings = true)
               ∧ (tool_name t = js "read_page" →
                    zai_reader_set settings = true ∧ zai_key_set settings = true))
      ALL.
Proof.
  unfold getTools.
  destruct (memory_set settings), (zai_reader_set settings), (zai_key_set settings);
    cbn [negb orb]; rewrite ?list_filter_filter;
    try (apply list_filter_iff; intros t; intuition congruence).
  symmetry. apply filter_everything. intros t. intuition congruence.
Qed.

End Facts.

(** C9: for every registry and every settings value, [getTools] offers no
    tool named manage_memory unless [enableMemory] is set, no tool named
    read_page unless both [enableZaiReader] and [zaiApiKey] are set, and
    every other tool of the registry unchanged and in order; an enabled
    optional tool is offered as registered. *)
Theorem getTools_offers_enabled_tools
    (ALL_TOOL_DEFINITIONS : list ToolDefinition) (settings : option ApiSettings) :
  let offered := getTools ALL_TOOL_DEFINITIONS settings in
  (memory_set settings = false →
     Forall (λ t, tool_name t ≠ js "manage_memory") offered)
  ∧ (zai_reader_set settings && zai_key_set settings = false →
       Forall (λ t, tool_name t ≠ js "read_page") offered)
  ∧ filter (λ t, ¬ optional t) offered
    = filter (λ t, ¬ optional t) ALL_TOOL_DEFINITIONS
  ∧ (memory_set settings = true →
       filter (λ t, tool_name t = js "manage_memory") offered
       = filter (λ t, tool_name t = js "manage_memory") ALL_TOOL_DEFINITIONS)
  ∧ (zai_reader_set settings && zai_key_set settings = true →
       filter (λ t, tool_name t = js "read_page") offered
       = filter (λ t, tool_name t = js "read_page") ALL_TOOL_DEFINITIONS)
  ∧ offered `sublist_of` ALL_TOOL_DEFINITIONS.
Proof.
  intros offered. subst offered. rewrite getTools_filter.
  pose proof memory_is_not_reader as Hne.
  repeat split.
  - intros Hm. apply Forall_forall. intros t [[H1 _] _]%list_elem_of_filter Ht.
    rewrite H1 in Hm by done. done.
  - intros Hz. apply Forall_forall. intros t [[_ H2] _]%list_elem_of_filter Ht.
    destruct (H2 Ht) as [Hr Hk]. by rewrite Hr, Hk in Hz.
  - rewrite list_filter_filter. apply list_filter_iff. intros t.
    unfold optional. intuition congruence.
  - intros Hm. rewrite list_filter_filter. apply list_filter_iff. intros t.
    split; [tauto|]. intros Ht. split; [done|]. split; [done|].
    intros Ht'. congruence.
  - intros [Hr Hk]%andb_true_iff. rewrite list_filter_filter.
    apply list_filter_iff. intros t.
    split; [tauto|]. intros Ht. split; [done|]. split; [|done].
    intros Ht'. congruence.
  - apply sublist_filter.
Qed.

End ToolSchemaFacts.

(** ** Regular expressions *)

Module RegexFacts.
Import Regex.

Lemma star_run_sound cl s k x :
  star_run cl s k = Some x →
  ∃ s1 s2, s = s1 ++ s2 ∧ forallb (cmatch cl) s1 = true ∧ k s2 = Some x.
Proof.
  induction s as [|c s IH]; simpl.
  - intros Hk. by exists [], [].
  - destruct (cmatch cl c) eqn:Hc.
    + destruct (star_run cl s k) as [y|] eqn:Hrun.
      * intros [= ->]. destruct (IH eq_refl) as (s1 & s2 & -> & Hs1 & Hk).
        exists (c :: s1), s2. simpl. by rewrite Hc, Hs1.
      * intros Hk. by exists [], (c :: s).
    + intros Hk. by exists [], (c :: s).
Qed.

Lemma run_sound r : ∀ s caps k x,
  run r s caps k = Some x →
  ∃ s1 s2 caps', s = s1 ++ s2 ∧ lang r s1 ∧ k s2 caps' = Some x.
Proof.
  induction r as [|cl|r1 IH1 r2 IH2|r1 IH1 r2 IH2|r1 IH1|cl|cl|r1 IH1];
    intros s caps k x; simpl.
  - intros Hk. exists [], s, caps. split; [done|]. split; [constructor|done].
  - destruct s as [|c s]; [done|]. destruct (cmatch cl c) eqn:Hc; [|done].
    intros Hk. exists [c], s, caps. split; [done|]. split; [by constructor|done].
  - intros (s1 & s' & caps1 & -> & Hl1 & H2)%IH1.
    apply IH2 in H2 as (s2 & s3 & caps2 & -> & Hl2 & Hk).
    exists (s1 ++ s2), s3, caps2. rewrite <- app_assoc.
    split; [done|]. split; [by constructor|done].
  - destruct (run r1 s caps k) as [y|] eqn:H1.
    + intros [= ->]. apply IH1 in H1 as (s1 & s2 & caps' & -> & Hl & Hk).
      exists s1, s2, caps'. split; [done|]. split; [by apply lang_alt_l|done].
    + intros (s1 & s2 & caps' & -> & Hl & Hk)%IH2.
      exists s1, s2, caps'. split; [done|]. split; [by apply lang_alt_r|done].
  - destruct (run r1 s caps k) as [y|] eqn:H1.
    + intros [= ->]. apply IH1 in H1 as (s1 & s2 & caps' & -> & Hl & Hk).
      exists s1, s2, caps'. split; [done|]. split; [by apply lang_opt_some|done].
    + intros Hk. exists [], s, caps. split; [done|]. split; [constructor|done].
  - intros (s1 & s2 & -> & Hs1 & Hk)%star_run_sound.
    exists s1, s2, caps. split; [done|]. split; [by constructor|done].
  - destruct s as [|c s]; [done|]. destruct (cmatch cl c) eqn:Hc; [|done].
    intros (s1 & s2 & -> & Hs1 & Hk)%star_run_sound.
    exists (c :: s1), s2, caps. split; [done|]. split; [|done].
    constructor; [done|]. simpl. by rewrite Hc, Hs1.
  - intros (s1 & s2 & caps' & -> & Hl & Hk)%IH1.
    eexists s1, s2, _. split; [done|]. split; [by constructor|exact Hk].
Qed.

Lemma star_run_complete cl s1 s2 k :
  forallb (cmatch cl) s1 = true → is_Some (k s2) →
  is_Some (star_run cl (s1 ++ s2) k).
Proof.
  intros Hs1 Hk. induction s1 as [|c s1 IH]; simpl.
  - destruct s2 as [|c s2]; simpl; [done|].
    destruct (cmatch cl c); [|done]. by destruct (star_run cl s2 k).
  - simpl in Hs1. apply andb_true_iff in Hs1 as [-> Hs1].
    destruct (IH Hs1) as [y ->]. done.
Qed.

Lemma run_complete r s1 :
  lang r s1 → ∀ s2 caps k,
  (∀ caps', is_Some (k s2 caps')) → is_Some (run r (s1 ++ s2) caps k).
Proof.
  induction 1 as [|cl c Hc|r1 r2 s1 s1' _ IH1 _ IH2|r1 r2 s1 _ IH|r1 r2 s1 _ IH
                 |r1|r1 s1 _ IH|cl s1 Hs1|cl s1 Hne Hs1|r1 s1 _ IH];
    intros s2 caps k Hk; simpl.
  - done.
  - by rewrite Hc.
  - rewrite <- app_assoc. apply IH1. intros caps'. by apply IH2.
  - destruct (IH s2 caps k Hk) as [y ->]. done.
  - destruct (run r1 (s1 ++ s2) caps k); [done|]. by apply IH.
  - destruct (run r1 s2 caps k); [done|]. apply Hk.
  - destruct (IH s2 caps k Hk) as [y ->]. done.
  - by apply star_run_complete.
  - destruct s1 as [|c s1]; [done|]. simpl in Hs1 |- *.
    apply andb_true_iff in Hs1 as [-> Hs1]. by apply star_run_complete.
  - apply IH. intros caps'. apply Hk.
Qed.

(** The matcher decides the language of an anchored pattern. *)
Lemma match_anchored_lang r s : is_Some (match_anchored r s) ↔ lang r s.
Proof.
  unfold match_anchored. split.
  - intros [x (s1 & s2 & caps' & -> & Hl & Hk)%run_sound].
    destruct s2; [|done]. by rewrite app_nil_r.
  - intros Hl. rewrite <- (app_nil_r s). by apply run_complete.
Qed.

Lemma match_anchored_None r s : match_anchored r s = None ↔ ¬ lang r s.
Proof.
  rewrite <- match_anchored_lang, <- eq_None_not_Some. done.
Qed.

(** Greedy iteration takes a whole run when the unit after it is outside
    the class and the rest of the pattern accepts there. *)
Lemma star_run_greedy cl s1 s2 k x :
  forallb (cmatch cl) s1 = true →
  match s2 with c :: _ => cmatch cl c = false | [] => True end →
  k s2 = Some x →
  star_run cl (s1 ++ s2) k = Some x.
Proof.
  intros Hs1 Hs2 Hk. induction s1 as [|c s1 IH]; simpl.
  - destruct s2 as [|c s2]; simpl; [done|]. by rewrite Hs2.
  - simpl in Hs1. apply andb_true_iff in Hs1 as [-> Hs1]. by rewrite IH.
Qed.

Example every_re_sample :
  match_anchored Scheduler.every_re (js "every 30 minutes")
  = Some [js "30"; js "minutes"].
Proof. reflexivity. Qed.

Example in_re_sample :
  match_anchored Scheduler.in_re (js "in 2hrs") = Some [js "2"; js "hrs"]
  ∧ match_anchored Scheduler.in_re (js "in two hours") = None.
Proof. split; reflexivity. Qed.

Lemma cmatch_lit_refl c : cmatch (CLit c) c = true.
Proof. simpl. apply N.eqb_refl. Qed.

End RegexFacts.

(** ** Scheduler: rejected descriptors *)

Module SchedulerFacts.
Import Regex RegexFacts Scheduler StringFacts.

Lemma or_else_None {A} (x y : option A) : x = None → or_else x y = y.
Proof. by intros ->. Qed.

Section Facts.

Variable tza : Z.
Variable month_start : Z → Z.
Variable toLowerCase : jsstring → jsstring.

Local Abbreviation calculateNextRun := (calculateNextRun tza month_start toLowerCase).
Local Abbreviation handleCreateTask := (handleCreateTask tza month_start toLowerCase).

(** A descriptor outside the five forms gets no next-run time. *)
Lemma calculateNextRun_None now scheduleStr :
  Forall (λ form, ¬ lang form (trim (toLowerCase scheduleStr))) descriptor_forms →
  calculateNextRun now scheduleStr = None.
Proof.
  unfold descriptor_forms. rewrite !Forall_cons.
  intros (Hin & Hat & Htom & Hday & Hev & _).
  apply match_anchored_None in Hin, Hat, Htom, Hday, Hev.
  unfold Scheduler.calculateNextRun, in_block, at_block, tomorrow_block,
    daily_block, every_block.
  by rewrite Hin, Hat, Htom, Hday, Hev.
Qed.

Lemma handleCreateTask_rejects now uuid f :
  calculateNextRun now (form_schedule f) = None →
  sent (handleCreateTask now uuid f) = []
  ∧ (create_disabled f = false →
       alerts (handleCreateTask now uuid f) = [js "Invalid schedule format"]).
Proof.
  intros Hnone. unfold Scheduler.handleCreateTask, create_disabled.
  rewrite Hnone.
  destruct (negb (truthy (Some (trim (form_title f))))
            || negb (truthy (Some (trim (form_schedule f))))); simpl; [|done].
  split; [done|]. done.
Qed.

End Facts.

(** C8: when the normalised descriptor is in the language of none of the
    five forms, [calculateNextRun] gives [null] and [handleCreateTask] sends
    no event, so no task is created; whenever the form can be submitted
    (its Create button is enabled) the handler shows the validation alert
    "Invalid schedule format". *)
Theorem unparseable_descriptor_rejected
    (tza : Z) (month_start : Z → Z) (toLowerCase : jsstring → jsstring)
    (now : Z) (uuid : jsstring) (f : Form) :
  Forall (λ form, ¬ lang form (trim (toLowerCase (form_schedule f))))
    descriptor_forms →
  calculateNextRun tza month_start toLowerCase now (form_schedule f) = None
  ∧ sent (handleCreateTask tza month_start toLowerCase now uuid f) = []
  ∧ (create_disabled f = false →
       alerts (handleCreateTask tza month_start toLowerCase now uuid f)
       = [js "Invalid schedule format"]).
Proof.
  intros Hforms. pose proof (calculateNextRun_None tza month_start toLowerCase now _ Hforms) as Hnone.
  split; [done|]. by apply handleCreateTask_rejects.
Qed.

Lemma unparseable_descriptor_rejected_next_week :
  calculateNextRun 0 thirty_day_months ascii_toLowerCase 1000 (js "next week") = None
  ∧ sent (handleCreateTask 0 thirty_day_months ascii_toLowerCase 1000 (js "id-1") next_week_form) = []
  ∧ (create_disabled next_week_form = false →
       alerts (handleCreateTask 0 thirty_day_months ascii_toLowerCase 1000 (js "id-1") next_week_form)
       = [js "Invalid schedule format"]).
Proof.
  apply (unparseable_descriptor_rejected 0 thirty_day_months ascii_toLowerCase
           1000 (js "id-1") next_week_form).
  repeat constructor; apply match_anchored_None; vm_compute; reflexivity.
Defined.

End SchedulerFacts.

(** ** Scheduler: interval descriptors *)

Module DescriptorFacts.
Import Regex RegexFacts Scheduler StringFacts PreviewFacts.

Lemma digit_cases d :
  is_digit d = true →
  d ∈ digit_units.
Proof.
  unfold is_digit, digit_units. rewrite andb_true_iff, !N.leb_le. intros [Hlo Hhi].
  assert (d = 48 ∨ d = 49 ∨ d = 50 ∨ d = 51 ∨ d = 52 ∨ d = 53 ∨ d = 54
          ∨ d = 55 ∨ d = 56 ∨ d = 57) as Hd by lia.
  rewrite !elem_of_cons. tauto.
Qed.

Lemma digit_is_ascii d : is_digit d = true → is_ascii d = true.
Proof.
  unfold is_digit, is_ascii. rewrite andb_true_iff, !N.leb_le, N.ltb_lt. lia.
Qed.

Lemma digit_lower d : is_digit d = true → ascii_lower d = d.
Proof.
  unfold is_digit, ascii_lower. rewrite andb_true_iff, !N.leb_le. intros [??].
  destruct (65 <=? d) eqn:H65; [|done]. apply N.leb_le in H65. lia.
Qed.

Lemma digit_not_space d : is_digit d = true → is_white_space d = false.
Proof. intros Hd%digit_cases. set_unfold. by destruct_or!; subst. Qed.

Lemma digits_ascii ds : forallb is_digit ds = true → forallb is_ascii ds = true.
Proof.
  induction ds as [|d ds IH]; simpl; [done|].
  rewrite !andb_true_iff. intros [Hd Hds]. auto using digit_is_ascii.
Qed.

Lemma digits_lower ds : forallb is_digit ds = true → ascii_lower <$> ds = ds.
Proof.
  induction ds as [|d ds IH]; [done|]. cbn [forallb].
  rewrite andb_true_iff, fmap_cons. intros [Hd Hds]. by rewrite digit_lower, IH.
Qed.

(** A string whose first and last units are visible is its own trim. *)
Lemma trim_visible_ends (c : code_unit) (s t : jsstring) :
  is_white_space c = false → t ≠ [] → trimEnd t = t →
  trim (c :: s ++ t) = c :: s ++ t.
Proof.
  intros Hc Ht Hend. unfold trim. cbn [trimStart]. rewrite Hc.
  rewrite app_comm_cons, trimEnd_app, Hend. by destruct t.
Qed.

Lemma run_seq r1 r2 s caps k :
  run (r1 ⋅ r2) s caps k = run r1 s caps (λ s' caps', run r2 s' caps' k).
Proof. reflexivity. Qed.

Lemma run_literal (w s : jsstring) caps k :
  run (foldr (λ c r, Chr (CLit c) ⋅ r)%re Eps w) (w ++ s) caps k = k s caps.
Proof.
  induction w as [|c w IH]; [done|]. cbn [foldr run app].
  by rewrite cmatch_lit_refl.
Qed.

Lemma run_lit (w : string) s caps k : run (lit w) (js w ++ s) caps k = k s caps.
Proof. apply run_literal. Qed.

(** One space before a visible unit. *)
Lemma run_plus_space c s caps k :
  is_white_space c = false →
  run (Plus CSpace) (SPACE :: c :: s) caps k = k (c :: s) caps.
Proof. intros Hc. cbn [run star_run cmatch]. by rewrite space_is_white, Hc. Qed.

(** A group of digits captures the whole run of digits. *)
Lemma run_group_digits ds rest caps k x :
  ds ≠ [] → forallb is_digit ds = true →
  match rest with c :: _ => is_digit c = false | [] => True end →
  k rest (caps ++ [ds]) = Some x →
  run (Group (Plus CDigit)) (ds ++ rest) caps k = Some x.
Proof.
  destruct ds as [|d ds]; [done|]. intros _ [Hd Hds]%andb_true_iff Hrest Hk.
  cbn [run app cmatch]. rewrite Hd.
  apply star_run_greedy; [done|done|].
  replace (length (d :: ds ++ rest) - length rest)%nat with (length (d :: ds))
    by (cbn [length]; rewrite length_app; lia).
  by rewrite app_comm_cons, take_app_length.
Qed.

Section Every.

Variable toLowerCase : jsstring → jsstring.
Hypothesis toLowerCase_ascii :
  ∀ s, forallb is_ascii s = true → toLowerCase s = ascii_lower <$> s.

Lemma every_descriptor_normal ds unit :
  forallb is_digit ds = true →
  unit = js "minutes" ∨ unit = js "hours" →
  trim (toLowerCase (every_descriptor ds unit)) = every_descriptor ds unit.
Proof.
  intros Hds Hunit. unfold every_descriptor.
  rewrite toLowerCase_ascii.
  - rewrite !fmap_app, (digits_lower ds) by done.
    assert (ascii_lower <$> unit = unit) as ->
      by (destruct Hunit as [-> | ->]; reflexivity).
    change (ascii_lower <$> js "every ") with (101 :: js "very ").
    change (ascii_lower <$> js " ") with (js " ").
    rewrite <- app_comm_cons, app_assoc.
    apply trim_visible_ends; [reflexivity| |];
      destruct Hunit as [-> | ->]; vm_compute; congruence.
  - rewrite !forallb_app, (digits_ascii ds) by done.
    destruct Hunit as [-> | ->]; reflexivity.
Qed.

Lemma every_descriptor_not_in ds unit :
  match_anchored in_re (every_descriptor ds unit) = None.
Proof. reflexivity. Qed.

Lemma every_descriptor_not_at ds unit :
  match_anchored at_re (every_descriptor ds unit) = None.
Proof. reflexivity. Qed.

Lemma every_descriptor_not_tomorrow ds unit :
  match_anchored tomorrow_re (every_descriptor ds unit) = None.
Proof. reflexivity. Qed.

Lemma every_descriptor_not_daily ds unit :
  ds ≠ [] → forallb is_digit ds = true →
  match_anchored daily_re (every_descriptor ds unit) = None.
Proof.
  destruct ds as [|d ds]; [done|]. intros _ [Hd%digit_cases _]%andb_true_iff.
  set_unfold. by destruct_or!; subst.
Qed.

Lemma every_descriptor_match ds unit :
  ds ≠ [] → forallb is_digit ds = true →
  unit = js "minutes" ∨ unit = js "hours" →
  match_anchored every_re (every_descriptor ds unit) = Some [ds; unit].
Proof.
  destruct ds as [|d ds]; [done|]. intros _ Hds Hunit.
  pose proof Hds as [Hd Hds']%andb_true_iff.
  unfold match_anchored, every_re, every_descriptor.
  rewrite !run_seq.
  change (js "every ") with (js "every" ++ js " "). rewrite <- app_assoc.
  rewrite run_lit.
  change (js " " ++ ?x) with (SPACE :: x).
  rewrite <- app_comm_cons, run_plus_space by by apply digit_not_space.
  rewrite app_comm_cons.
  apply run_group_digits; [done|done|done|].
  destruct Hunit as [-> | ->]; reflexivity.
Qed.

End Every.

End DescriptorFacts.

(** ** Scheduler: daily descriptors *)

Module DailyFacts.
Import Regex RegexFacts Scheduler StringFacts PreviewFacts DescriptorFacts.

Lemma two_digit_text_cases mm :
  length mm = 2%nat → forallb is_digit mm = true → mm ∈ two_digit_texts.
Proof.
  destruct mm as [|d1 [|d2 [|]]]; try done. intros _. cbn [forallb].
  rewrite !andb_true_iff. intros (H1%digit_cases & H2%digit_cases & _).
  unfold two_digit_texts. apply list_elem_of_bind. exists d1. split; [|done].
  apply list_elem_of_bind. exists d2. split; [|done]. apply list_elem_of_singleton. done.
Qed.

Lemma hour_text_cases hh :
  (1 ≤ length hh ≤ 2)%nat → forallb is_digit hh = true → hh ∈ hour_texts.
Proof.
  intros Hlen Hd. unfold hour_texts. apply elem_of_app.
  destruct hh as [|d1 [|d2 [|]]]; simpl in Hlen; try lia.
  - left. apply list_elem_of_fmap. exists d1. split; [done|].
    apply digit_cases. simpl in Hd. by destruct (is_digit d1).
  - right. by apply two_digit_text_cases.
Qed.

Lemma daily_descriptors_parse :
  forallb (λ lead,
    forallb (λ hh,
      forallb (λ mm, daily_descriptor_parses lead hh mm) two_digit_texts)
      hour_texts) daily_leads = true.
Proof. vm_compute. reflexivity. Qed.

Lemma daily_descriptor_parse lead hh mm :
  lead ∈ daily_leads →
  (1 ≤ length hh ≤ 2)%nat → forallb is_digit hh = true →
  length mm = 2%nat → forallb is_digit mm = true →
  daily_descriptor_parses lead hh mm = true.
Proof.
  intros Hlead Hlh Hdh Hlm Hdm.
  pose proof daily_descriptors_parse as Hall.
  rewrite forallb_forall in Hall. apply list_elem_of_In, Hall in Hlead.
  rewrite forallb_forall in Hlead.
  apply hour_text_cases, list_elem_of_In, Hlead in Hlh; [|done].
  rewrite forallb_forall in Hlh.
  by apply two_digit_text_cases, list_elem_of_In, Hlh in Hlm.
Qed.

Local Open Scope Z_scope.

Lemma parseInt_nonneg ds : 0 ≤ parseInt ds.
Proof.
  unfold parseInt.
  assert (∀ acc, 0 ≤ acc → 0 ≤ foldl (λ acc c, 10 * acc + digit_value c) acc ds)
    as Hacc; [|by apply Hacc].
  induction ds as [|d ds IH]; intros acc Hacc; simpl; [done|].
  apply IH. unfold digit_value. lia.
Qed.

Section Dates.

Variable tza : Z.
Variable month_start : Z → Z.

Lemma Day_bounds t : Day t * msPerDay ≤ t < (Day t + 1) * msPerDay.
Proof.
  unfold Day, msPerDay.
  pose proof (Z.div_mod t 86400000). pose proof (Z.mod_pos_bound t 86400000). lia.
Qed.

Lemma Day_MakeDate day time :
  0 ≤ time < msPerDay → Day (MakeDate day time) = day.
Proof.
  intros Htime. unfold Day, MakeDate.
  rewrite Z.div_add_l by done. rewrite Z.div_small by done. lia.
Qed.

Lemma TimeWithinDay_MakeDate day time :
  0 ≤ time < msPerDay → TimeWithinDay (MakeDate day time) = time.
Proof.
  intros Htime. unfold TimeWithinDay, MakeDate.
  rewrite Z.add_comm, Z.mod_add by done. by apply Z.mod_small.
Qed.

Lemma LocalTime_UTC t : LocalTime tza (UTC tza t) = t.
Proof. unfold LocalTime, UTC. lia. Qed.

Lemma MakeTime_in_day h m :
  0 ≤ h < 24 → 0 ≤ m < 60 → 0 ≤ MakeTime h m 0 0 < msPerDay.
Proof. unfold MakeTime, msPerDay. lia. Qed.

(** Moving a date to the next day of the month count keeps the time of
    day and adds one day, whatever the calendar. *)
Lemma setDate_next_day day time :
  0 ≤ time < msPerDay →
  let d := UTC tza (MakeDate day time) in
  setDate tza month_start d (getDate tza month_start d + 1)
  = UTC tza (MakeDate (day + 1) time).
Proof.
  intros Htime d. subst d. unfold setDate, getDate, DateFromTime, MakeDay_in_month_of.
  rewrite LocalTime_UTC, Day_MakeDate, TimeWithinDay_MakeDate by done.
  f_equal. f_equal. lia.
Qed.

Lemma daily_target_next_occurrence now h m :
  0 ≤ h < 24 → 0 ≤ m < 60 →
  let today := UTC tza (MakeDate (Day (LocalTime tza now)) (MakeTime h m 0 0)) in
  daily_target tza month_start now h m = (if bool_decide (today ≤ now) then today + msPerDay else today)
  ∧ now < daily_target tza month_start now h m ≤ now + msPerDay
  ∧ TimeWithinDay (LocalTime tza (daily_target tza month_start now h m)) = MakeTime h m 0 0.
Proof.
  intros Hh Hm today. pose proof (MakeTime_in_day h m Hh Hm) as Htime.
  unfold daily_target, setHours. fold today.
  pose proof (Day_bounds (LocalTime tza now)) as Hday.
  assert (today + msPerDay
          = UTC tza (MakeDate (Day (LocalTime tza now) + 1) (MakeTime h m 0 0))) as Hnext.
  { subst today. unfold UTC, MakeDate. lia. }
  case_bool_decide as Hle.
  - subst today. rewrite setDate_next_day by done. rewrite <- Hnext.
    split; [done|]. split.
    + unfold UTC, MakeDate, LocalTime in *. lia.
    + rewrite Hnext, LocalTime_UTC. by apply TimeWithinDay_MakeDate.
  - split; [done|]. split.
    + subst today. unfold UTC, MakeDate, LocalTime in *. lia.
    + subst today. rewrite LocalTime_UTC. by apply TimeWithinDay_MakeDate.
Qed.

End Dates.

End DailyFacts.

(** ** Workspace-scoped handlers *)

Module WorkspaceFacts.
Import Workspace StringFacts.

Lemma startsWith_prefix (s p : jsstring) :
  startsWith s p = true ↔ ∃ rest, s = p ++ rest.
Proof.
  revert s. induction p as [|a p IH]; intros s; simpl.
  - split; [by exists s|done].
  - destruct s as [|b s].
    + split; [done|]. by intros [rest ?].
    + rewrite andb_true_iff, N.eqb_eq, IH. split.
      * intros [-> [rest ->]]. eauto.
      * intros [rest [= -> ->]]. eauto.
Qed.

(** The image-preview handler keeps to the workspace, on a POSIX host. *)
Lemma get_image_preview_within process_cwd toLowerCase payload_cwd payload_path full :
  get_image_preview process_cwd toLowerCase false payload_cwd payload_path = Allowed full →
  ∃ cwd path,
    payload_cwd = Some cwd ∧ payload_path = Some path
    ∧ full = Path.normalize (Path.resolve process_cwd
               [Path.normalize (Path.resolve process_cwd [cwd]); path])
    ∧ within (Path.normalize (Path.resolve process_cwd [cwd])) full.
Proof.
  unfold get_image_preview.
  destruct payload_cwd as [[|c cwd]|], payload_path as [[|d path]|]; try done.
  cbn [truthy negb orb default from_option id].
  set (root := Path.normalize (Path.resolve process_cwd [c :: cwd])).
  set (target := Path.normalize (Path.resolve process_cwd [root; d :: path])).
  destruct (bool_decide (target = root) || startsWith target _) eqn:Hcheck;
    cbn [negb]; [|done].
  intros [= <-]. exists (c :: cwd), (d :: path). repeat split.
  apply orb_true_iff in Hcheck as [Heq%bool_decide_eq_true | Hpre%startsWith_prefix].
  - by left.
  - right. exact Hpre.
Qed.

Lemma sibling_not_within :
  ¬ within (js "/home/user/ws") (js "/home/user/ws-private").
Proof.
  intros [Heq | [rest Heq]]; vm_compute in Heq; discriminate.
Qed.

Section Comparable.

Variable process_cwd : jsstring.
Variables toLowerCase normalizeNFC : jsstring → jsstring.
Hypothesis toLowerCase_ascii :
  ∀ s, forallb is_ascii s = true → toLowerCase s = ascii_lower <$> s.
Hypothesis normalizeNFC_ascii :
  ∀ s, forallb is_ascii s = true → normalizeNFC s = s.

(** The comparison form of a path, from its resolved form. *)
Lemma comparable_ascii p resolved :
  Path.resolve process_cwd [p] = resolved →
  forallb is_ascii resolved = true →
  comparable process_cwd toLowerCase normalizeNFC p = ascii_lower <$> resolved.
Proof.
  intros <- Hascii. unfold comparable. rewrite toLowerCase_ascii by done.
  apply normalizeNFC_ascii.
  induction (Path.resolve process_cwd [p]) as [|c s IH]; [done|].
  cbn [forallb] in Hascii. apply andb_true_iff in Hascii as [Hc Hs].
  rewrite fmap_cons. cbn [forallb]. rewrite IH, andb_true_r by done.
  unfold is_ascii, ascii_lower in *. apply N.ltb_lt in Hc. apply N.ltb_lt.
  destruct (_ && _) eqn:Hup; [|done].
  apply andb_true_iff in Hup as [_ Hup%N.leb_le]. lia.
Qed.

(** The handler with one stored session, on a path given with its
    comparison form. *)
Lemma list_directory_one_session root dirPath dir_form root_form :
  root ≠ [] →
  comparable process_cwd toLowerCase normalizeNFC dirPath = dir_form →
  comparable process_cwd toLowerCase normalizeNFC root = root_form →
  list_directory process_cwd toLowerCase normalizeNFC
    [{| session_id := js "session-1"; cwd := Some root |}] dirPath
  = if startsWith dir_form root_form then Allowed dirPath
    else Refused (js "No active session cwd found").
Proof.
  intros Hroot Hdir Hform. unfold list_directory. rewrite Hdir.
  cbn [find cwd]. destruct root as [|c root]; [done|].
  cbn [truthy negb default from_option id]. rewrite Hform.
  destruct (startsWith dir_form root_form) eqn:Hstart; [|done].
  cbn [mbind option_bind cwd truthy negb default from_option id].
  by rewrite Hform, Hstart.
Qed.

End Comparable.
(** C3 (the code at the failing input): with a session whose workspace is
    /home/user/ws, the list-directory handler lets the sibling directory
    /home/user/ws-private through, although it is not within the workspace
    at a separator boundary; it does refuse a traversal string and an
    alternate-case absolute path that leave the workspace. The
    image-preview handler refuses the same sibling target, and allows a
    path only within the normalised root. *)
Theorem list_directory_allows_sibling
    (process_cwd : jsstring) (toLowerCase normalizeNFC : jsstring → jsstring) :
  (∀ s, forallb is_ascii s = true → toLowerCase s = ascii_lower <$> s) →
  (∀ s, forallb is_ascii s = true → normalizeNFC s = s) →
  let list_dir := list_directory process_cwd toLowerCase normalizeNFC [ws_session] in
  let preview := get_image_preview process_cwd toLowerCase false in
  list_dir (js "/home/user/ws-private") = Allowed (js "/home/user/ws-private")
  ∧ ¬ within (js "/home/user/ws") (js "/home/user/ws-private")
  ∧ list_dir (js "/home/user/ws/../../x") = Refused (js "No active session cwd found")
  ∧ list_dir (js "/ETC/passwd") = Refused (js "No active session cwd found")
  ∧ preview (Some (js "/home/user/ws")) (Some (js "../ws-private/notes.png"))
    = Refused (js "Access denied: Path is outside the workspace folder")
  ∧ (∀ payload_cwd payload_path full,
       preview payload_cwd payload_path = Allowed full →
       ∃ cwd, payload_cwd = Some cwd
              ∧ within (Path.normalize (Path.resolve process_cwd [cwd])) full).
Proof.
  intros Hlower Hnfc list_dir preview.
  pose proof (comparable_ascii process_cwd toLowerCase normalizeNFC Hlower Hnfc)
    as Hform.
  assert (∀ dirPath resolved,
            Path.resolve process_cwd [dirPath] = resolved →
            forallb is_ascii resolved = true →
            list_dir dirPath
            = if startsWith (ascii_lower <$> resolved) (js "/home/user/ws")
              then Allowed dirPath
              else Refused (js "No active session cwd found")) as Hlist.
  { intros dirPath resolved Hres Hascii. subst list_dir. unfold ws_session.
    apply list_directory_one_session; [done|by apply Hform|].
    rewrite (Hform _ (js "/home/user/ws")) by reflexivity. reflexivity. }
  split; [|split; [|split; [|split; [|split]]]].
  - rewrite (Hlist _ (js "/home/user/ws-private")) by reflexivity. reflexivity.
  - apply sibling_not_within.
  - rewrite (Hlist _ (js "/home/x")) by reflexivity. reflexivity.
  - rewrite (Hlist _ (js "/ETC/passwd")) by reflexivity. reflexivity.
  - reflexivity.
  - intros payload_cwd payload_path full
      (cwd & path & -> & _ & _ & Hin)%get_image_preview_within. eauto.
Qed.

Lemma list_directory_allows_sibling_ascii :
  list_directory (js "/opt/app") (fmap ascii_lower) id [ws_session]
    (js "/home/user/ws-private")
  = Allowed (js "/home/user/ws-private").
Proof.
  exact (proj1 (list_directory_allows_sibling (js "/opt/app") (fmap ascii_lower) id
                  (λ _ _, eq_refl) (λ _ _, eq_refl))).
Defined.

End WorkspaceFacts.

(** ** Sandbox *)

Module SandboxFacts.
Import Sandbox.

Lemma evalCode_never_returns code :
  never_returns code →
  ∀ fuel s logs, evalCode (λ _, false) code s logs fuel = None.
Proof.
  intros Hloop. induction fuel as [|fuel IH]; intros s logs; [done|].
  cbn [evalCode]. specialize (Hloop s).
  destruct (step code s); [apply IH|apply IH|done|done].
Qed.

Lemma infinite_loop_never_returns : never_returns infinite_loop.
Proof. by intros []. Qed.

(** C1 (the code at the failing input): on the script [while (true) {}],
    as on every script that never returns, neither [executeInQuickJS] nor
    [executeJSTool] produces a result, however long the script is left to
    run and whatever the timeout; the timeout has no influence on any
    run. A script that returns does give
    its result, and a handler that answered [true] would stop the loop with
    an "interrupted" error: the handler installed never does. *)
Theorem executeInQuickJS_ignores_timeout :
  (∀ cwd isPathSafe timeout fuel,
     executeInQuickJS infinite_loop cwd isPathSafe timeout fuel = None)
  ∧ (∀ code, never_returns code → ∀ cwd isPathSafe timeout fuel,
       executeInQuickJS code cwd isPathSafe timeout fuel = None)
  ∧ (∀ explanation timeout cwd isPathSafe fuel,
       executeJSTool {| code := infinite_loop; explanation := explanation;
                        timeout := timeout |} cwd isPathSafe fuel = None)
  ∧ (∀ code cwd isPathSafe timeout timeout' fuel,
       executeInQuickJS code cwd isPathSafe timeout fuel
       = executeInQuickJS code cwd isPathSafe timeout' fuel)
  ∧ (∀ cwd isPathSafe timeout fuel,
       executeInQuickJS return_42 cwd isPathSafe timeout (S fuel)
       = Some {| success := true; output := js "42"; error := None; logs := [] |})
  ∧ evalCode (λ _, true) infinite_loop tt [] 1
    = Some (eval_error (js "InternalError: interrupted"), []).
Proof.
  assert (∀ code, never_returns code → ∀ cwd isPathSafe timeout fuel,
            executeInQuickJS code cwd isPathSafe timeout fuel = None) as Hnone.
  { intros code Hloop cwd isPathSafe timeout fuel. unfold executeInQuickJS.
    by rewrite evalCode_never_returns. }
  split; [|split; [|split; [|split; [|split]]]].
  - intros. apply Hnone, infinite_loop_never_returns.
  - exact Hnone.
  - intros explanation timeout cwd isPathSafe fuel. unfold executeJSTool.
    cbn [code]. by rewrite Hnone by apply infinite_loop_never_returns.
  - reflexivity.
  - reflexivity.
  - reflexivity.
Qed.

Section FileApi.

Variable Host : Type.
Variable host_readFileSync : jsstring → Host → jsstring + jsstring.
Variable host_writeFileSync : jsstring → jsstring → Host → Host + jsstring.
Variable host_existsSync : jsstring → Host → bool.
Variable host_readdirSync : jsstring → Host → list jsstring + jsstring.
Variable process_cwd cwd : jsstring.
Variable isPathSafe : jsstring → bool.

(** The three guarded functions refuse a path that fails the check, before
    any host call. *)
Lemma guarded_functions_deny p data host :
  isPathSafe (full_path process_cwd cwd p) = false →
  let denied := {| completion := Thrown (access_denied p); calls := [];
                   host_after := host |} in
  readFileSyncFn Host host_readFileSync process_cwd cwd isPathSafe p host = denied
  ∧ writeFileSyncFn Host host_writeFileSync process_cwd cwd isPathSafe p data host = denied
  ∧ readdirSyncFn Host host_readdirSync process_cwd cwd isPathSafe p host = denied.
Proof.
  intros Hunsafe denied.
  unfold readFileSyncFn, writeFileSyncFn, readdirSyncFn. by rewrite Hunsafe.
Qed.

Lemma existsSyncFn_calls_host p host :
  existsSyncFn Host host_existsSync process_cwd cwd p host
  = {| completion := Returned (v_bool (host_existsSync (full_path process_cwd cwd p) host));
       calls := [call_existsSync (full_path process_cwd cwd p)];
       host_after := host |}.
Proof. reflexivity. Qed.

End FileApi.

Example resolve_sample process_cwd :
  Path.resolve process_cwd [js "/home/user/ws"; js "./reports//2024/../notes.txt"]
  = js "/home/user/ws/reports/notes.txt".
Proof. reflexivity. Qed.

Lemma escaping_path process_cwd :
  full_path process_cwd (js "/home/user/ws") (js "../../../etc/passwd")
  = js "/etc/passwd".
Proof. reflexivity. Qed.

(** C2 (the code at the failing input): when [isPathSafe] rejects the
    resolved path of a guest call, [fs.readFileSync], [fs.writeFileSync] and
    [fs.readdirSync] throw "Access denied" without a host call, but
    [fs.existsSync] calls the host on that path and hands its answer to the
    guest. With the workspace /home/user/ws the guest path
    ../../../etc/passwd is such a path: it resolves to /etc/passwd. *)
Theorem existsSyncFn_skips_isPathSafe
    (Host : Type)
    (host_readFileSync : jsstring → Host → jsstring + jsstring)
    (host_writeFileSync : jsstring → jsstring → Host → Host + jsstring)
    (host_existsSync : jsstring → Host → bool)
    (host_readdirSync : jsstring → Host → list jsstring + jsstring)
    (process_cwd cwd : jsstring) (isPathSafe : jsstring → bool)
    (p : jsstring) (host : Host) :
  isPathSafe (full_path process_cwd cwd p) = false →
  let denied := {| completion := Thrown (access_denied p); calls := [];
                   host_after := host |} in
  readFileSyncFn Host host_readFileSync process_cwd cwd isPathSafe p host = denied
  ∧ (∀ data, writeFileSyncFn Host host_writeFileSync process_cwd cwd isPathSafe p data host
             = denied)
  ∧ readdirSyncFn Host host_readdirSync process_cwd cwd isPathSafe p host = denied
  ∧ existsSyncFn Host host_existsSync process_cwd cwd p host
    = {| completion :=
           Returned (v_bool (host_existsSync (full_path process_cwd cwd p) host));
         calls := [call_existsSync (full_path process_cwd cwd p)];
         host_after := host |}
  ∧ full_path process_cwd (js "/home/user/ws") (js "../../../etc/passwd")
    = js "/etc/passwd".
Proof.
  intros Hunsafe denied.
  split; [by apply guarded_functions_deny with (data := [])|].
  split; [intros data; by apply guarded_functions_deny|].
  split; [by apply guarded_functions_deny with (data := [])|].
  split; [apply existsSyncFn_calls_host|apply escaping_path].
Qed.

(** A host on which every file exists and nothing can be read or written. *)
Lemma existsSyncFn_skips_isPathSafe_ws :
  ws_isPathSafe (js "/etc/passwd") = false
  ∧ existsSyncFn unit (λ _ _, true) (js "/opt/app") (js "/home/user/ws")
      (js "../../../etc/passwd") tt
    = {| completion := Returned (v_bool true);
         calls := [call_existsSync (js "/etc/passwd")];
         host_after := tt |}.
Proof.
  split; [reflexivity|].
  exact (proj1 (proj2 (proj2 (proj2
    (existsSyncFn_skips_isPathSafe unit (λ _ _, inr []) (λ _ _ _, inr [])
       (λ _ _, true) (λ _ _, inr []) (js "/opt/app") (js "/home/user/ws")
       ws_isPathSafe (js "../../../etc/passwd") tt eq_refl))))).
Defined.

End SandboxFacts.

(** ** Strings, continued *)

Module StringMoreFacts.
Import StringFacts.

Lemma trimEnd_idempotent s : trimEnd (trimEnd s) = trimEnd s.
Proof.
  induction s as [|c s IH]; [done|]. rewrite (trimEnd_cons c s).
  destruct (trimEnd s) as [|x r] eqn:Hs.
  - destruct (is_white_space c) eqn:Hc; [done|]. cbn [trimEnd]. by rewrite Hc.
  - rewrite trimEnd_cons, IH. done.
Qed.

Lemma trimEnd_prefix s : trimEnd s `prefix_of` s.
Proof.
  induction s as [|c s IH]; [done|]. rewrite trimEnd_cons.
  destruct (trimEnd s) as [|x r].
  - destruct (is_white_space c); [apply prefix_nil|].
    by apply prefix_cons, prefix_nil.
  - by apply prefix_cons.
Qed.

Lemma trimStart_head s :
  match trimStart s with [] => True | c :: _ => is_white_space c = false end.
Proof.
  induction s as [|c s IH]; [done|]. cbn [trimStart].
  destruct (is_white_space c) eqn:Hc; [done|]. exact Hc.
Qed.

Lemma trimEnd_head c s :
  trimEnd (c :: s) = [] ∨ ∃ r, trimEnd (c :: s) = c :: r.
Proof.
  rewrite trimEnd_cons. destruct (trimEnd s); [|eauto].
  destruct (is_white_space c); eauto.
Qed.

Lemma trim_visible_head c s : is_white_space c = false → trim (c :: s) ≠ [].
Proof.
  intros Hc. unfold trim. cbn [trimStart]. rewrite Hc.
  by destruct (trimEnd_cons_visible c s Hc) as [r ->].
Qed.

(** [trim] leaves a trimmed string alone. *)
Lemma trim_idempotent s : trim (trim s) = trim s.
Proof.
  unfold trim. pose proof (trimStart_head s) as Hhead.
  destruct (trimStart s) as [|c t] eqn:Hs; [done|].
  destruct (trimEnd_head c t) as [-> | [r Hr]]; [done|].
  rewrite Hr. cbn [trimStart]. rewrite Hhead, <- Hr. apply trimEnd_idempotent.
Qed.

End StringMoreFacts.

(** ** Scheduler: the label of the next run *)

Module NextRunLabelFacts.
Import Scheduler NextRunLabel.
Local Open Scope Z_scope.

(** A delay of a whole number of minutes, hours or days, as the label
    shows it. *)
Lemma formatNextRun_whole toLocaleDateString now n :
  0 ≤ n →
  (n < 60 →
   formatNextRun toLocaleDateString now (now + n * 60000)
   = js "in " ++ number_text n ++ js " min")
  ∧ (1 ≤ n < 24 →
     formatNextRun toLocaleDateString now (now + n * 3600000)
     = js "in " ++ number_text n ++ js " hrs")
  ∧ (1 ≤ n < 7 →
     formatNextRun toLocaleDateString now (now + n * 86400000)
     = js "in " ++ number_text n ++ js " days").
Proof.
  intros Hn. unfold formatNextRun. split; [|split]; intros Hrange.
  - replace (now + n * 60000 - now) with (n * 60000) by lia.
    rewrite Z.div_mul by lia.
    rewrite bool_decide_eq_false_2 by lia. by rewrite bool_decide_eq_true_2 by lia.
  - replace (now + n * 3600000 - now) with (n * 60 * 60000) by lia.
    rewrite !Z.div_mul by lia.
    rewrite bool_decide_eq_false_2 by lia. rewrite bool_decide_eq_false_2 by lia.
    by rewrite bool_decide_eq_true_2 by lia.
  - replace (now + n * 86400000 - now) with (n * 24 * 60 * 60000) by lia.
    rewrite !Z.div_mul by lia.
    rewrite bool_decide_eq_false_2 by lia. rewrite bool_decide_eq_false_2 by lia.
    rewrite bool_decide_eq_false_2 by lia.
    by rewrite bool_decide_eq_true_2 by lia.
Qed.

(** X7: the label of a next run is "Overdue" for a time in the past;
    otherwise it counts whole minutes below one hour, whole hours below
    one day and whole days below one week, each rounded down from the
    difference in milliseconds, and from one week on it is the date in the
    format of the locale. *)
Theorem formatNextRun_thresholds (toLocaleDateString : Z → jsstring) (now timestamp : Z) :
  let label := formatNextRun toLocaleDateString now timestamp in
  let diffMs := timestamp - now in
  (diffMs < 0 → label = js "Overdue")
  ∧ (0 ≤ diffMs < 3600000 →
     label = js "in " ++ number_text (diffMs / 60000) ++ js " min")
  ∧ (3600000 ≤ diffMs < 86400000 →
     label = js "in " ++ number_text (diffMs / 3600000) ++ js " hrs")
  ∧ (86400000 ≤ diffMs < 604800000 →
     label = js "in " ++ number_text (diffMs / 86400000) ++ js " days")
  ∧ (604800000 ≤ diffMs → label = toLocaleDateString timestamp).
Proof.
  intros label diffMs. subst label. unfold formatNextRun. fold diffMs.
  assert (diffMs / 60000 / 60 = diffMs / 3600000) as Hhours
    by (rewrite Z.div_div by lia; done).
  assert (diffMs / 60000 / 60 / 24 = diffMs / 86400000) as Hdays
    by (rewrite !Z.div_div by lia; done).
  rewrite Hdays, Hhours.
  assert (∀ d, 0 < d → ∀ k, diffMs / d < k ↔ diffMs < k * d) as Hdiv.
  { intros d Hd k. split; intros H.
    - apply Z.nle_gt. intros Hle.
      assert (k ≤ diffMs / d) by (apply Z.div_le_lower_bound; lia). lia.
    - apply Z.div_lt_upper_bound; lia. }
  repeat split; intros Hrange; repeat case_bool_decide; try reflexivity;
    rewrite ?Hdiv in * by lia; lia.
Qed.

End NextRunLabelFacts.

(** ** Scheduler: the five kinds of descriptor *)

Module SchedulerDescriptorFacts.
Import Regex RegexFacts Scheduler StringFacts PreviewFacts DescriptorFacts DailyFacts.
Import SchedulerDescriptors NextRunLabel NextRunLabelFacts.

Local Open Scope Z_scope.

Section Blocks.

Variable tza : Z.
Variable month_start : Z → Z.
Variable toLowerCase : jsstring → jsstring.

(** [setDate(getDate() + 1)] adds one day, whatever the calendar. *)
Lemma setDate_plus_one t :
  setDate tza month_start t (getDate tza month_start t + 1) = t + msPerDay.
Proof.
  unfold setDate, getDate, DateFromTime, MakeDay_in_month_of, MakeDate,
    TimeWithinDay, Day, UTC, LocalTime, msPerDay.
  pose proof (Z.div_mod (t + tza) 86400000). lia.
Qed.

Lemma setHours_after_day_start t h m :
  0 ≤ h → 0 ≤ m → t - msPerDay < setHours tza t h m 0 0.
Proof.
  intros Hh Hm. unfold setHours, UTC, MakeDate, MakeTime.
  pose proof (Day_bounds (LocalTime tza t)) as Hday.
  unfold LocalTime in *. lia.
Qed.









End Blocks.




Section Descriptors.

Variable toLowerCase : jsstring → jsstring.
Hypothesis toLowerCase_ascii :
  ∀ s, forallb is_ascii s = true → toLowerCase s = ascii_lower <$> s.

Lemma in_units_inv unit :
  unit ∈ in_units →
  unit = js "min" ∨ unit = js "mins" ∨ unit = js "minute" ∨ unit = js "minutes"
  ∨ unit = js "hr" ∨ unit = js "hrs" ∨ unit = js "hour" ∨ unit = js "hours"
  ∨ unit = js "day" ∨ unit = js "days".
Proof. unfold in_units. rewrite !elem_of_cons, elem_of_nil. tauto. Qed.

Lemma in_descriptor_normal ds unit :
  forallb is_digit ds = true → unit ∈ in_units →
  trim (toLowerCase (in_descriptor ds unit)) = in_descriptor ds unit.
Proof.
  intros Hds Hunit. unfold in_descriptor.
  rewrite toLowerCase_ascii.
  - rewrite !fmap_app, (digits_lower ds) by done.
    assert (ascii_lower <$> unit = unit) as ->
      by (apply in_units_inv in Hunit; destruct_or!; subst; reflexivity).
    change (ascii_lower <$> js "in ") with (105 :: js "n ")%N.
    change (ascii_lower <$> js " ") with (js " ").
    rewrite <- app_comm_cons, app_assoc.
    apply trim_visible_ends; [reflexivity| |];
      apply in_units_inv in Hunit; destruct_or!; subst; vm_compute; congruence.
  - rewrite !forallb_app, (digits_ascii ds) by done.
    apply in_units_inv in Hunit; destruct_or!; subst; reflexivity.
Qed.

Lemma in_descriptor_match ds unit :
  ds ≠ [] → forallb is_digit ds = true → unit ∈ in_units →
  match_anchored in_re (in_descriptor ds unit) = Some [ds; unit].
Proof.
  destruct ds as [|d ds]; [done|]. intros _ Hds Hunit.
  pose proof Hds as [Hd Hds']%andb_true_iff.
  unfold match_anchored, in_re, in_descriptor.
  rewrite !run_seq.
  change (js "in ") with (js "in" ++ js " "). rewrite <- app_assoc.
  rewrite run_lit.
  change (js " " ++ ?x) with (SPACE :: x).
  rewrite <- app_comm_cons, run_plus_space by by apply digit_not_space.
  rewrite app_comm_cons.
  apply run_group_digits; [done|done|done|].
  apply in_units_inv in Hunit; destruct_or!; subst; reflexivity.
Qed.

Lemma clock_descriptors_parse :
  forallb (λ hh,
    forallb (λ mm, at_descriptor_parses hh mm && tomorrow_descriptor_parses hh mm)
      two_digit_texts) hour_texts = true.
Proof. vm_compute. reflexivity. Qed.

Lemma clock_descriptor_parse hh mm :
  (1 ≤ length hh ≤ 2)%nat → forallb is_digit hh = true →
  length mm = 2%nat → forallb is_digit mm = true →
  at_descriptor_parses hh mm = true ∧ tomorrow_descriptor_parses hh mm = true.
Proof.
  intros Hlh Hdh Hlm Hdm.
  pose proof clock_descriptors_parse as Hall.
  rewrite forallb_forall in Hall.
  apply hour_text_cases, list_elem_of_In, Hall in Hlh; [|done].
  rewrite forallb_forall in Hlh.
  apply two_digit_text_cases, list_elem_of_In, Hlh in Hlm; [|done].
  by apply andb_true_iff in Hlm.
Qed.

End Descriptors.

End SchedulerDescriptorFacts.

(** ** Scheduler: tasks created by the form *)

Module CreateTaskFacts.
Import Regex RegexFacts Scheduler StringFacts PreviewFacts DescriptorFacts DailyFacts.
Import SchedulerDescriptors SchedulerDescriptorFacts StringMoreFacts.

Section Facts.

Variable tza : Z.
Variable month_start : Z → Z.
Variable toLowerCase : jsstring → jsstring.

Local Abbreviation calculateNextRun := (calculateNextRun tza month_start toLowerCase).
Local Abbreviation handleCreateTask := (handleCreateTask tza month_start toLowerCase).


End Facts.


End CreateTaskFacts.

(** ** Numbers of the host *)

Module HostNumberFacts.
Import HostScheduler.

Local Open Scope Z_scope.

Lemma nearest_even_exact m : 0 ≤ m ≤ MAX_SAFE_INTEGER → nearest_even m = m.
Proof.
  intros Hm. unfold nearest_even.
  destruct (decide (m = 0)) as [-> | Hne]; [done|].
  assert (Z.log2 m < 53) as Hlog
    by (apply Z.log2_lt_pow2; unfold MAX_SAFE_INTEGER in Hm; lia).
  by rewrite (proj2 (Z.leb_le _ _)) by lia.
Qed.

(** A safe integer is its own double. *)
Lemma to_double_exact z : Z.abs z ≤ MAX_SAFE_INTEGER → to_double z = Int z.
Proof.
  intros Hz. unfold to_double.
  rewrite nearest_even_exact by lia.
  assert (Z.abs z < 2 ^ 1024) as Hfinite.
  { assert (2 ^ 53 < 2 ^ 1024) by (apply Z.pow_lt_mono_r; lia).
    unfold MAX_SAFE_INTEGER in Hz. lia. }
  rewrite (proj2 (Z.leb_gt _ _)) by done.
  f_equal. lia.
Qed.

Lemma nearest_even_pos m : 0 < m → 0 < nearest_even m.
Proof.
  intros Hm. unfold nearest_even.
  destruct (Z.log2 m - 52 <=? 0) eqn:He; [done|]. apply Z.leb_gt in He.
  set (e := Z.log2 m - 52) in *.
  assert (0 < 2 ^ e) as Hpow by (apply Z.pow_pos_nonneg; lia).
  assert (2 ^ e ≤ m) as Hle.
  { transitivity (2 ^ Z.log2 m); [apply Z.pow_le_mono_r; lia|].
    by apply Z.log2_spec. }
  assert (1 ≤ m / 2 ^ e) as Hq by (apply Z.div_le_lower_bound; lia).
  destruct ((2 ^ (e - 1) <? m mod 2 ^ e)
            || (m mod 2 ^ e =? 2 ^ (e - 1)) && Z.odd (m / 2 ^ e)); nia.
Qed.

(** The double of a positive integer is positive, or the infinity. *)
Lemma to_double_at_least z : 0 ≤ z → at_least 0 (to_double z).
Proof.
  intros Hz. unfold to_double.
  destruct (2 ^ 1024 <=? nearest_even (Z.abs z)).
  - by rewrite (proj2 (Z.ltb_ge _ _)) by lia.
  - cbn. destruct (decide (z = 0)) as [-> | Hne]; [done|].
    pose proof (nearest_even_pos (Z.abs z)). nia.
Qed.

Lemma to_double_positive z : 0 < z → at_least 1 (to_double z).
Proof.
  intros Hz. unfold to_double.
  destruct (2 ^ 1024 <=? nearest_even (Z.abs z)).
  - by rewrite (proj2 (Z.ltb_ge _ _)) by lia.
  - cbn. pose proof (nearest_even_pos (Z.abs z)). nia.
Qed.

Lemma mul_at_least x k : at_least 0 x → 0 < k → at_least 0 (mul x (Int k)).
Proof.
  destruct x as [|[|]|a]; try done; cbn [at_least mul]; intros Ha Hk.
  - rewrite (proj2 (Z.eqb_neq _ _)) by lia.
    by rewrite (proj2 (Z.ltb_ge _ _)) by lia.
  - apply to_double_at_least. nia.
Qed.

Lemma add_at_least now x : 0 < now → at_least 0 x → at_least 1 (add (Int now) x).
Proof.
  destruct x as [|[|]|a]; try done; cbn [at_least add]; intros Hnow Ha.
  apply to_double_positive. lia.
Qed.

Lemma parseInt_exact ds :
  ds ≠ [] → JS.parseInt ds ≤ MAX_SAFE_INTEGER → parseInt ds = Int (JS.parseInt ds).
Proof.
  intros Hne Hsafe. destruct ds as [|d ds]; [done|]. unfold parseInt.
  apply to_double_exact. pose proof (DailyFacts.parseInt_nonneg (d :: ds)). lia.
Qed.

Lemma parseInt_at_least ds : ds ≠ [] → at_least 0 (parseInt ds).
Proof.
  intros Hne. destruct ds as [|d ds]; [done|]. unfold parseInt.
  apply to_double_at_least, DailyFacts.parseInt_nonneg.
Qed.

(** In the safe range the sums of the "in" and "every" blocks are exact. *)
Lemma minutes_exact now n :
  0 ≤ n → in_safe_range now (n * 60000) →
  add (Int now) (mul (mul (Int n) (Int 60)) (Int 1000)) = Int (now + n * 60000).
Proof.
  intros Hn (Hclock & Hinterval & Hsum). unfold maxTime in Hclock. cbn [mul add].
  rewrite (to_double_exact (n * 60)) by (unfold MAX_SAFE_INTEGER in *; lia). cbn [mul].
  rewrite (to_double_exact (n * 60 * 1000)) by (unfold MAX_SAFE_INTEGER in *; lia). cbn [add].
  rewrite to_double_exact by (unfold MAX_SAFE_INTEGER in *; lia). f_equal. lia.
Qed.

Lemma hours_exact now n :
  0 ≤ n → in_safe_range now (n * 3600000) →
  add (Int now) (mul (mul (mul (Int n) (Int 60)) (Int 60)) (Int 1000))
  = Int (now + n * 3600000).
Proof.
  intros Hn (Hclock & Hinterval & Hsum). unfold maxTime in Hclock. cbn [mul add].
  rewrite (to_double_exact (n * 60)) by (unfold MAX_SAFE_INTEGER in *; lia). cbn [mul].
  rewrite (to_double_exact (n * 60 * 60)) by (unfold MAX_SAFE_INTEGER in *; lia). cbn [mul].
  rewrite (to_double_exact (n * 60 * 60 * 1000)) by (unfold MAX_SAFE_INTEGER in *; lia). cbn [add].
  rewrite to_double_exact by (unfold MAX_SAFE_INTEGER in *; lia). f_equal. lia.
Qed.

Lemma days_exact now n :
  0 ≤ n → in_safe_range now (n * 86400000) →
  add (Int now) (mul (mul (mul (mul (Int n) (Int 24)) (Int 60)) (Int 60)) (Int 1000))
  = Int (now + n * 86400000).
Proof.
  intros Hn (Hclock & Hinterval & Hsum). unfold maxTime in Hclock. cbn [mul add].
  rewrite (to_double_exact (n * 24)) by (unfold MAX_SAFE_INTEGER in *; lia). cbn [mul].
  rewrite (to_double_exact (n * 24 * 60)) by (unfold MAX_SAFE_INTEGER in *; lia). cbn [mul].
  rewrite (to_double_exact (n * 24 * 60 * 60)) by (unfold MAX_SAFE_INTEGER in *; lia). cbn [mul].
  rewrite (to_double_exact (n * 24 * 60 * 60 * 1000)) by (unfold MAX_SAFE_INTEGER in *; lia). cbn [add].
  rewrite to_double_exact by (unfold MAX_SAFE_INTEGER in *; lia). f_equal. lia.
Qed.

End HostNumberFacts.

(** ** Scheduler on the host: what the five blocks compute *)

Module HostSchedulerFacts.
Import Regex RegexFacts Scheduler StringFacts PreviewFacts DescriptorFacts DailyFacts.
Import SchedulerDescriptors SchedulerDescriptorFacts HostNumberFacts.

Local Open Scope Z_scope.

Section Host.

Variable LocalTZA : Z → bool → Z.
Variable month_start : Z → Z.
Variable toLowerCase : jsstring → jsstring.
Hypothesis toLowerCase_ascii :
  ∀ s, forallb is_ascii s = true → toLowerCase s = ascii_lower <$> s.

Local Abbreviation nextRun :=
  (HostScheduler.calculateNextRun LocalTZA month_start toLowerCase).

(** An interval descriptor is answered by the last block. *)
Lemma host_every_block_reached now ds unit :
  ds ≠ [] → forallb is_digit ds = true →
  unit = js "minutes" ∨ unit = js "hours" →
  nextRun now (every_descriptor ds unit)
  = HostScheduler.every_block toLowerCase now (every_descriptor ds unit).
Proof.
  intros Hne Hds Hunit. unfold HostScheduler.calculateNextRun.
  rewrite (every_descriptor_normal toLowerCase toLowerCase_ascii) by done.
  unfold HostScheduler.in_block, HostScheduler.at_block,
    HostScheduler.tomorrow_block, HostScheduler.daily_block.
  by rewrite every_descriptor_not_in, every_descriptor_not_at,
    every_descriptor_not_tomorrow,
    (every_descriptor_not_daily toLowerCase toLowerCase_ascii) by done.
Qed.

Lemma host_every_block now ds unit :
  ds ≠ [] → forallb is_digit ds = true →
  unit = js "minutes" ∨ unit = js "hours" →
  let value := HostScheduler.parseInt ds in
  HostScheduler.every_block toLowerCase now (every_descriptor ds unit)
  = Some (HostScheduler.add (HostScheduler.Int now)
            (if startsWith unit (js "min")
             then HostScheduler.mul
                    (HostScheduler.mul value (HostScheduler.Int 60))
                    (HostScheduler.Int 1000)
             else HostScheduler.mul
                    (HostScheduler.mul
                       (HostScheduler.mul value (HostScheduler.Int 60))
                       (HostScheduler.Int 60))
                    (HostScheduler.Int 1000))).
Proof.
  intros Hne Hds Hunit value. unfold HostScheduler.every_block.
  rewrite every_descriptor_match by done.
  destruct Hunit as [-> | ->]; rewrite toLowerCase_ascii by reflexivity;
    reflexivity.
Qed.

(** An interval descriptor gives a number from [now] on; in the safe range
    it is [now] plus the interval. *)
Lemma host_calculateNextRun_every now ds unit :
  ds ≠ [] → forallb is_digit ds = true →
  unit = js "minutes" ∨ unit = js "hours" →
  ∃ next,
    nextRun now (every_descriptor ds unit) = Some next
    ∧ (0 < now → HostScheduler.at_least 1 next)
    ∧ (HostScheduler.in_safe_range now (parseInt ds * unit_ms unit) →
       next = HostScheduler.Int (now + parseInt ds * unit_ms unit)).
Proof.
  intros Hne Hds Hunit.
  rewrite host_every_block_reached, host_every_block by done.
  pose proof (parseInt_nonneg ds) as Hn.
  pose proof (parseInt_at_least ds Hne) as Hvalue.
  eexists. split; [reflexivity|].
  destruct Hunit as [-> | ->].
  - change (startsWith (js "minutes") (js "min")) with true.
    change (unit_ms (js "minutes")) with 60000. cbv iota. split.
    + intros Hnow. apply add_at_least; [done|].
      apply mul_at_least; [|done]. by apply mul_at_least.
    + intros Hsafe. pose proof Hsafe as (_ & Hinterval & _).
      rewrite parseInt_exact by (done || lia).
      by apply minutes_exact.
  - change (startsWith (js "hours") (js "min")) with false.
    change (unit_ms (js "hours")) with 3600000. cbv iota. split.
    + intros Hnow. apply add_at_least; [done|].
      apply mul_at_least; [|done]. apply mul_at_least; [|done].
      by apply mul_at_least.
    + intros Hsafe. pose proof Hsafe as (_ & Hinterval & _).
      rewrite parseInt_exact by (done || lia).
      by apply hours_exact.
Qed.

Lemma host_in_block now ds unit :
  ds ≠ [] → forallb is_digit ds = true → unit ∈ in_units →
  let value := HostScheduler.parseInt ds in
  HostScheduler.in_block toLowerCase now (in_descriptor ds unit)
  = Some (HostScheduler.add (HostScheduler.Int now)
            (if bool_decide (unit_ms unit = 60000)
             then HostScheduler.mul
                    (HostScheduler.mul value (HostScheduler.Int 60))
                    (HostScheduler.Int 1000)
             else if bool_decide (unit_ms unit = 3600000)
             then HostScheduler.mul
                    (HostScheduler.mul
                       (HostScheduler.mul value (HostScheduler.Int 60))
                       (HostScheduler.Int 60))
                    (HostScheduler.Int 1000)
             else HostScheduler.mul
                    (HostScheduler.mul
                       (HostScheduler.mul
                          (HostScheduler.mul value (HostScheduler.Int 24))
                          (HostScheduler.Int 60))
                       (HostScheduler.Int 60))
                    (HostScheduler.Int 1000))).
Proof.
  intros Hne Hds Hunit value. unfold HostScheduler.in_block.
  rewrite in_descriptor_match by done.
  apply in_units_inv in Hunit; destruct_or!; subst unit;
    rewrite toLowerCase_ascii by reflexivity; reflexivity.
Qed.

Lemma host_calculateNextRun_in now ds unit :
  ds ≠ [] → forallb is_digit ds = true → unit ∈ in_units →
  HostScheduler.in_safe_range now (parseInt ds * unit_ms unit) →
  nextRun now (in_descriptor ds unit)
  = Some (HostScheduler.Int (now + parseInt ds * unit_ms unit)).
Proof.
  intros Hne Hds Hunit Hsafe. unfold HostScheduler.calculateNextRun.
  rewrite (in_descriptor_normal toLowerCase toLowerCase_ascii) by done.
  rewrite host_in_block by done. cbn [or_else]. f_equal.
  pose proof (parseInt_nonneg ds) as Hn.
  assert (unit_ms unit = 60000 ∨ unit_ms unit = 3600000 ∨ unit_ms unit = 86400000)
    as Hms by (apply in_units_inv in Hunit; destruct_or!; subst; auto).
  rewrite parseInt_exact
    by (done || destruct Hsafe as (_ & Hinterval & _);
        unfold HostScheduler.MAX_SAFE_INTEGER in *; lia).
  destruct Hms as [Hms | [Hms | Hms]]; rewrite Hms in *.
  - rewrite bool_decide_eq_true_2 by done. by apply minutes_exact.
  - rewrite bool_decide_eq_false_2, bool_decide_eq_true_2 by done.
    by apply hours_exact.
  - rewrite !bool_decide_eq_false_2 by done. by apply days_exact.
Qed.

(** The "daily", "at" and "tomorrow" blocks on descriptors in canonical
    spelling. *)
Lemma host_calculateNextRun_daily now lead hh mm :
  daily_descriptor_parses lead hh mm = true →
  nextRun now (daily_descriptor lead hh mm)
  = Some (HostScheduler.getTime
            (HostScheduler.daily_target LocalTZA month_start now
               (parseInt hh) (parseInt mm))).
Proof.
  unfold daily_descriptor_parses. rewrite !andb_true_iff, !bool_decide_eq_true.
  intros (((((Hascii & Hnormal) & Hin) & Hat) & Htom) & Hdaily).
  unfold HostScheduler.calculateNextRun. rewrite toLowerCase_ascii, Hnormal by done.
  unfold HostScheduler.in_block, HostScheduler.at_block,
    HostScheduler.tomorrow_block, HostScheduler.daily_block.
  by rewrite Hin, Hat, Htom, Hdaily.
Qed.

Lemma host_calculateNextRun_at now hh mm :
  at_descriptor_parses hh mm = true →
  nextRun now (at_descriptor hh mm)
  = Some (HostScheduler.getTime
            (HostScheduler.daily_target LocalTZA month_start now
               (parseInt hh) (parseInt mm))).
Proof.
  unfold at_descriptor_parses. rewrite !andb_true_iff, !bool_decide_eq_true.
  intros (((Hascii & Hnormal) & Hin) & Hat).
  unfold HostScheduler.calculateNextRun. rewrite toLowerCase_ascii, Hnormal by done.
  unfold HostScheduler.in_block, HostScheduler.at_block. by rewrite Hin, Hat.
Qed.

Lemma host_calculateNextRun_tomorrow now hh mm :
  tomorrow_descriptor_parses hh mm = true →
  nextRun now (tomorrow_descriptor hh mm)
  = Some (HostScheduler.getTime
            (HostScheduler.setHours LocalTZA
               (HostScheduler.setDate LocalTZA month_start (Some now)
                  (HostScheduler.getDate LocalTZA month_start now + 1))
               (parseInt hh) (parseInt mm) 0 0)).
Proof.
  unfold tomorrow_descriptor_parses. rewrite !andb_true_iff, !bool_decide_eq_true.
  intros ((((Hascii & Hnormal) & Hin) & Hat) & Htom).
  unfold HostScheduler.calculateNextRun. rewrite toLowerCase_ascii, Hnormal by done.
  unfold HostScheduler.in_block, HostScheduler.at_block,
    HostScheduler.tomorrow_block. by rewrite Hin, Hat, Htom.
Qed.

(** The target of the "at" and "daily" blocks on any host, when the time
    of day asked for is on the local clock: the instant at which it is
    read today, if that is after [now], and otherwise the instant at which
    it is read tomorrow. *)
Lemma host_daily_target_on_the_clock now h m :
  0 ≤ h < 24 → 0 ≤ m < 60 →
  let today :=
    MakeDate (Day (HostScheduler.LocalTime LocalTZA now)) (MakeTime h m 0 0) in
  let tomorrow :=
    MakeDate (Day (HostScheduler.LocalTime LocalTZA now) + 1) (MakeTime h m 0 0) in
  HostScheduler.on_the_clock LocalTZA today →
  (HostScheduler.UTC LocalTZA today ≤ now →
   HostScheduler.on_the_clock LocalTZA tomorrow) →
  HostScheduler.daily_target LocalTZA month_start now h m
  = Some (if bool_decide (HostScheduler.UTC LocalTZA today ≤ now)
          then HostScheduler.UTC LocalTZA tomorrow
          else HostScheduler.UTC LocalTZA today).
Proof.
  intros Hh Hm today tomorrow [Hvalid Hshown] Htomorrow.
  pose proof (MakeTime_in_day h m Hh Hm) as Htime.
  assert (∀ x, Z.abs x ≤ HostScheduler.maxTime → HostScheduler.TimeClip x = Some x)
    as Hclip by (intros x Hx; unfold HostScheduler.TimeClip;
                 by rewrite bool_decide_eq_true_2).
  unfold HostScheduler.daily_target, HostScheduler.setHours. fold today.
  rewrite Hclip by done.
  case_bool_decide as Hle; [|done].
  destruct (Htomorrow Hle) as [Hvalid' _].
  unfold HostScheduler.setDate, HostScheduler.getDate. rewrite Hshown.
  assert (MakeDate
            (MakeDay_in_month_of month_start today
               (DateFromTime month_start today + 1))
            (TimeWithinDay today) = tomorrow) as ->.
  { unfold MakeDay_in_month_of, DateFromTime. subst today tomorrow.
    rewrite Day_MakeDate, TimeWithinDay_MakeDate by done. f_equal. lia. }
  by apply Hclip.
Qed.

(** *** Dates while the offset of the zone does not change *)

Section Steady.

Variable tza now : Z.
Hypothesis zone : HostScheduler.steady_zone LocalTZA now tza.
Hypothesis clock : Z.abs now ≤ HostScheduler.maxTime - 2 * msPerDay.

Lemma host_LocalTime t :
  now - msPerDay ≤ t ≤ now + 2 * msPerDay →
  HostScheduler.LocalTime LocalTZA t = LocalTime tza t.
Proof.
  intros Ht. unfold HostScheduler.LocalTime, LocalTime.
  by rewrite (proj1 zone t Ht).
Qed.

Lemma host_UTC t :
  now + tza - msPerDay ≤ t ≤ now + tza + 2 * msPerDay →
  HostScheduler.UTC LocalTZA t = UTC tza t.
Proof.
  intros Ht. unfold HostScheduler.UTC, UTC.
  by rewrite (proj2 zone t Ht).
Qed.

Lemma TimeClip_near t :
  now - msPerDay ≤ t ≤ now + 2 * msPerDay → HostScheduler.TimeClip t = Some t.
Proof.
  intros Ht. unfold HostScheduler.TimeClip.
  rewrite bool_decide_eq_true_2; [done|].
  unfold HostScheduler.maxTime, msPerDay in *. lia.
Qed.

Lemma host_setHours t h m :
  now ≤ t ≤ now + msPerDay → 0 ≤ h < 24 → 0 ≤ m < 60 →
  HostScheduler.setHours LocalTZA (Some t) h m 0 0
  = Some (setHours tza t h m 0 0).
Proof.
  intros Ht Hh Hm. pose proof (MakeTime_in_day h m Hh Hm) as Htime.
  unfold HostScheduler.setHours, setHours.
  rewrite host_LocalTime by lia.
  pose proof (Day_bounds (LocalTime tza t)) as Hday.
  rewrite host_UTC by (unfold MakeDate, LocalTime in *; lia).
  apply TimeClip_near. unfold UTC, MakeDate, LocalTime in *. lia.
Qed.

Lemma host_setDate_next t :
  now - msPerDay ≤ t ≤ now →
  HostScheduler.setDate LocalTZA month_start (Some t)
    (HostScheduler.getDate LocalTZA month_start t + 1)
  = Some (t + msPerDay).
Proof.
  intros Ht. unfold HostScheduler.setDate, HostScheduler.getDate.
  rewrite host_LocalTime by lia.
  assert (MakeDate
            (MakeDay_in_month_of month_start (LocalTime tza t)
               (DateFromTime month_start (LocalTime tza t) + 1))
            (TimeWithinDay (LocalTime tza t))
          = t + tza + msPerDay) as ->.
  { unfold MakeDate, MakeDay_in_month_of, DateFromTime, TimeWithinDay, Day,
      LocalTime, msPerDay.
    pose proof (Z.div_mod (t + tza) 86400000). lia. }
  rewrite host_UTC by lia.
  replace (UTC tza (t + tza + msPerDay)) with (t + msPerDay) by (unfold UTC; lia).
  apply TimeClip_near. lia.
Qed.

(** The target of the "at" and "daily" blocks is the one of the fixed
    offset [tza]. *)
Lemma host_daily_target h m :
  0 ≤ h < 24 → 0 ≤ m < 60 →
  HostScheduler.daily_target LocalTZA month_start now h m
  = Some (daily_target tza month_start now h m).
Proof.
  intros Hh Hm. unfold HostScheduler.daily_target, daily_target.
  rewrite host_setHours by (done || unfold msPerDay; lia).
  pose proof (setHours_after_day_start tza now h m (proj1 Hh) (proj1 Hm)) as Hafter.
  case_bool_decide as Hle; [|done].
  rewrite host_setDate_next by lia. by rewrite setDate_plus_one.
Qed.

(** The target of the "tomorrow" block. *)
Lemma host_tomorrow_target h m :
  0 ≤ h < 24 → 0 ≤ m < 60 →
  HostScheduler.setHours LocalTZA
    (HostScheduler.setDate LocalTZA month_start (Some now)
       (HostScheduler.getDate LocalTZA month_start now + 1)) h m 0 0
  = Some (UTC tza (MakeDate (Day (LocalTime tza now) + 1) (MakeTime h m 0 0))).
Proof.
  intros Hh Hm. rewrite host_setDate_next by (unfold msPerDay; lia).
  rewrite host_setHours by (done || unfold msPerDay; lia).
  f_equal. unfold setHours. f_equal. f_equal.
  unfold Day, LocalTime, msPerDay.
  replace (now + 86400000 + tza) with (now + tza + 1 * 86400000) by lia.
  by rewrite Z.div_add.
Qed.

End Steady.

End Host.

End HostSchedulerFacts.

(** ** Scheduler on the host: interval descriptors *)

Module HostIntervalFacts.
Import Regex Scheduler SchedulerDescriptors NextRunLabel.
Import DailyFacts NextRunLabelFacts HostSchedulerFacts.

Local Open Scope Z_scope.

(** C6: evaluated when the clock reads [created], "every 30 minutes" gives
    [created] plus thirty minutes, and every "every <N> minutes" or
    "every <N> hours" gives [created] plus the stated interval; evaluated
    again when the clock reads [fired], the same descriptor gives [fired]
    plus the interval, whatever [created] was. Each part holds in the safe
    range of the numbers of the host: when the interval, and the clock
    reading plus the interval, are at most 2^53 - 1. *)
Theorem every_descriptor_interval
    (LocalTZA : Z → bool → Z) (month_start : Z → Z)
    (toLowerCase : jsstring → jsstring) (created fired : Z) :
  (∀ s, forallb is_ascii s = true → toLowerCase s = ascii_lower <$> s) →
  let nextRun := HostScheduler.calculateNextRun LocalTZA month_start toLowerCase in
  let plus_interval now descriptor interval :=
    HostScheduler.in_safe_range now interval →
    nextRun now descriptor = Some (HostScheduler.Int (now + interval)) in
  (plus_interval created (js "every 30 minutes") (30 * 60000)
   ∧ plus_interval fired (js "every 30 minutes") (30 * 60000))
  ∧ (∀ ds, ds ≠ [] → forallb is_digit ds = true →
       plus_interval created (every_descriptor ds (js "minutes")) (parseInt ds * 60000)
       ∧ plus_interval fired (every_descriptor ds (js "minutes")) (parseInt ds * 60000)
       ∧ plus_interval created (every_descriptor ds (js "hours")) (parseInt ds * 3600000)
       ∧ plus_interval fired (every_descriptor ds (js "hours")) (parseInt ds * 3600000)).
Proof.
  intros Hlower nextRun plus_interval.
  assert (∀ now ds, ds ≠ [] → forallb is_digit ds = true →
            plus_interval now (every_descriptor ds (js "minutes")) (parseInt ds * 60000)
            ∧ plus_interval now (every_descriptor ds (js "hours"))
                (parseInt ds * 3600000)) as Hevery.
  { intros now ds Hne Hds. subst plus_interval nextRun. cbn beta. split; intros Hsafe.
    - destruct (host_calculateNextRun_every LocalTZA month_start toLowerCase Hlower
                  now ds (js "minutes") Hne Hds) as (next & -> & _ & ->); auto.
    - destruct (host_calculateNextRun_every LocalTZA month_start toLowerCase Hlower
                  now ds (js "hours") Hne Hds) as (next & -> & _ & ->); auto. }
  split.
  - split; apply (Hevery _ (js "30")); done.
  - intros ds Hne Hds.
    destruct (Hevery created ds Hne Hds), (Hevery fired ds Hne Hds). done.
Qed.

Lemma every_descriptor_interval_half_hour :
  HostScheduler.calculateNextRun HostScheduler.utc_zone thirty_day_months
    ascii_toLowerCase 1000 (js "every 30 minutes")
  = Some (HostScheduler.Int 1801000)
  ∧ HostScheduler.calculateNextRun HostScheduler.utc_zone thirty_day_months
      ascii_toLowerCase 1801000 (js "every 30 minutes")
    = Some (HostScheduler.Int 3601000).
Proof.
  pose proof (every_descriptor_interval HostScheduler.utc_zone thirty_day_months
                ascii_toLowerCase 1000 1801000 (λ _ _, eq_refl)) as [[Hc Hf] _].
  split; [apply Hc|apply Hf]; by vm_compute.
Defined.

(** Beyond the safe range the host rounds: 9007199254740993 is not a
    double, and "every 9007199254740993 minutes" gives a number 61000
    below the exact sum. *)
Lemma every_descriptor_interval_rounded :
  HostScheduler.calculateNextRun HostScheduler.utc_zone thirty_day_months
    ascii_toLowerCase 1000 (js "every 9007199254740993 minutes")
  = Some (HostScheduler.Int 540431955284459520000)
  ∧ 1000 + parseInt (js "9007199254740993") * 60000 = 540431955284459581000.
Proof. by vm_compute. Qed.

(** X2: for a descriptor "in N units" in canonical spelling, with any of
    the ten unit spellings, the next run is N units after now, in the safe
    range of the numbers of the host; the label shown for it at that
    moment is "in N min" for fewer than 60 minutes, "in N hrs" for 1 to 23
    hours and "in N days" for 1 to 6 days. *)
Theorem in_descriptor_delay
    (LocalTZA : Z → bool → Z) (month_start : Z → Z)
    (toLowerCase : jsstring → jsstring) (toLocaleDateString : Z → jsstring)
    (now : Z) (ds unit : jsstring) :
  (∀ s, forallb is_ascii s = true → toLowerCase s = ascii_lower <$> s) →
  ds ≠ [] → forallb is_digit ds = true → unit ∈ in_units →
  let n := parseInt ds in
  HostScheduler.in_safe_range now (n * unit_ms unit) →
  let label := formatNextRun toLocaleDateString now (now + n * unit_ms unit) in
  HostScheduler.calculateNextRun LocalTZA month_start toLowerCase now
    (in_descriptor ds unit)
  = Some (HostScheduler.Int (now + n * unit_ms unit))
  ∧ (unit_ms unit = 60000 → n < 60 →
     label = js "in " ++ number_text n ++ js " min")
  ∧ (unit_ms unit = 3600000 → 1 ≤ n < 24 →
     label = js "in " ++ number_text n ++ js " hrs")
  ∧ (unit_ms unit = 86400000 → 1 ≤ n < 7 →
     label = js "in " ++ number_text n ++ js " days").
Proof.
  intros Hlower Hne Hds Hunit n Hsafe label. subst label.
  split; [by apply host_calculateNextRun_in|].
  destruct (formatNextRun_whole toLocaleDateString now n (parseInt_nonneg ds))
    as (Hmin & Hhrs & Hdays).
  split; [|split]; intros ->; assumption.
Qed.

Lemma in_descriptor_delay_two_days :
  HostScheduler.calculateNextRun HostScheduler.utc_zone thirty_day_months
    ascii_toLowerCase 1000 (js "in 2 days")
  = Some (HostScheduler.Int (1000 + 2 * 86400000)).
Proof.
  refine (proj1 (in_descriptor_delay HostScheduler.utc_zone thirty_day_months
                   ascii_toLowerCase (λ _, []) 1000 (js "2") (js "days")
                   (λ _ _, eq_refl) _ eq_refl _ _)).
  - done.
  - unfold in_units. rewrite !elem_of_cons. tauto.
  - by vm_compute.
Defined.

End HostIntervalFacts.

(** ** Scheduler on the host: times of day *)

Module HostDailyFacts.
Import Regex Scheduler SchedulerDescriptors.
Import DailyFacts SchedulerDescriptorFacts HostSchedulerFacts.

Local Open Scope Z_scope.

Section Steady.

Variable LocalTZA : Z → bool → Z.
Variable month_start : Z → Z.
Variable toLowerCase : jsstring → jsstring.
Hypothesis toLowerCase_ascii :
  ∀ s, forallb is_ascii s = true → toLowerCase s = ascii_lower <$> s.
Variable tza now : Z.
Hypothesis zone : HostScheduler.steady_zone LocalTZA now tza.
Hypothesis clock : Z.abs now ≤ HostScheduler.maxTime - 2 * msPerDay.

Local Abbreviation nextRun :=
  (HostScheduler.calculateNextRun LocalTZA month_start toLowerCase).
Local Abbreviation local := (HostScheduler.LocalTime LocalTZA).

(** The next occurrence of a time of day, for the two descriptors that ask
    for it. *)
Lemma host_next_occurrence h m :
  0 ≤ h < 24 → 0 ≤ m < 60 →
  ∃ next,
    HostScheduler.daily_target LocalTZA month_start now h m = Some next
    ∧ next = (let today :=
                UTC tza (MakeDate (Day (LocalTime tza now)) (MakeTime h m 0 0)) in
              if bool_decide (today ≤ now) then today + msPerDay else today)
    ∧ now < next ≤ now + msPerDay
    ∧ local next = LocalTime tza next
    ∧ TimeWithinDay (local next) = MakeTime h m 0 0
    ∧ (∀ t, now < t < next → TimeWithinDay (local t) ≠ MakeTime h m 0 0).
Proof.
  intros Hh Hm. exists (daily_target tza month_start now h m).
  destruct (daily_target_next_occurrence tza month_start now h m Hh Hm)
    as (Heq & Hbounds & Htime).
  assert (local (daily_target tza month_start now h m)
          = LocalTime tza (daily_target tza month_start now h m)) as Hlocal
    by (apply (host_LocalTime LocalTZA tza now zone); unfold msPerDay in *; lia).
  split; [by apply (host_daily_target LocalTZA month_start tza now zone clock)|].
  split; [done|]. split; [done|]. split; [done|]. split; [by rewrite Hlocal|].
  intros t Ht Hshows.
  rewrite (host_LocalTime LocalTZA tza now zone) in Hshows
    by (unfold msPerDay in *; lia).
  pose proof (MakeTime_in_day h m Hh Hm) as Hrange.
  pose proof (Day_bounds (LocalTime tza now)) as Hday.
  cbn zeta in Heq. rewrite Heq in Ht.
  unfold TimeWithinDay in Hshows.
  pose proof (Z.div_mod (LocalTime tza t) msPerDay) as Hdiv.
  rewrite Hshows in Hdiv.
  set (k := LocalTime tza t / msPerDay) in *.
  set (D := Day (LocalTime tza now)) in *.
  unfold UTC, MakeDate, LocalTime, msPerDay in *.
  case_bool_decide; lia.
Qed.

Lemma host_daily_ten day hour :
  hour = 9 ∨ hour = 11 →
  local now = MakeDate day (MakeTime hour 0 0 0) →
  ∃ next,
    nextRun now (js "daily at 10:00") = Some (HostScheduler.Int next)
    ∧ local next
      = MakeDate (if bool_decide (hour = 9) then day else day + 1) (MakeTime 10 0 0 0).
Proof.
  intros Hhour Hnow.
  rewrite (host_LocalTime LocalTZA tza now zone) in Hnow by (unfold msPerDay; lia).
  destruct (host_next_occurrence 10 0)
    as (next & Htarget & Hnext & _ & Hlocal & _ & _); [lia..|].
  exists next. split.
  - change (js "daily at 10:00")
      with (daily_descriptor (js "daily at ") (js "10") (js "00")).
    rewrite (host_calculateNextRun_daily LocalTZA month_start toLowerCase
               toLowerCase_ascii) by reflexivity.
    change (parseInt (js "10")) with 10. change (parseInt (js "00")) with 0.
    by rewrite Htarget.
  - rewrite Hlocal, Hnext. cbn zeta. rewrite Hnow.
    assert (0 ≤ MakeTime hour 0 0 0 < msPerDay) as Hrange
      by (destruct Hhour as [-> | ->]; by vm_compute).
    rewrite Day_MakeDate by done.
    unfold LocalTime in Hnow.
    destruct Hhour as [-> | ->].
    + rewrite bool_decide_eq_false_2
        by (unfold UTC, MakeDate, MakeTime, msPerDay in *; lia).
      rewrite bool_decide_eq_true_2 by done. unfold LocalTime, UTC. lia.
    + rewrite bool_decide_eq_true_2
        by (unfold UTC, MakeDate, MakeTime, msPerDay in *; lia).
      rewrite bool_decide_eq_false_2 by done.
      unfold LocalTime, UTC, MakeDate, MakeTime, msPerDay. lia.
Qed.

Lemma host_tomorrow h m :
  0 ≤ h < 24 → 0 ≤ m < 60 →
  let next := UTC tza (MakeDate (Day (LocalTime tza now) + 1) (MakeTime h m 0 0)) in
  Day (local next) = Day (local now) + 1
  ∧ TimeWithinDay (local next) = MakeTime h m 0 0.
Proof.
  intros Hh Hm next. pose proof (MakeTime_in_day h m Hh Hm) as Htime.
  pose proof (Day_bounds (LocalTime tza now)) as Hday.
  rewrite !(host_LocalTime LocalTZA tza now zone)
    by (subst next; unfold UTC, MakeDate, LocalTime, msPerDay in *; lia).
  subst next. rewrite LocalTime_UTC. split.
  - by apply Day_MakeDate.
  - by apply TimeWithinDay_MakeDate.
Qed.

End Steady.

(** C7: on a host whose zone keeps one offset from the day before now to
    two days after it, and whose clock is two days inside the range of
    dates: evaluated at 09:00 local time of a day, "daily at 10:00" gives
    10:00 of that day, and evaluated at 11:00 it gives 10:00 of the next
    day; every "daily at HH:MM" and "every day at HH:MM" with a time of day
    gives the next instant, within one day after now, whose local time of
    day is HH:MM: no instant between now and it shows HH:MM. On any host, when HH:MM is on the local clock today, and
    tomorrow if it is needed, the next run is the instant at which HH:MM of
    today is read, if that is after now, and otherwise the instant at
    which HH:MM of tomorrow is read; the local clock then shows HH:MM of
    that day. *)
Theorem daily_descriptor_next_occurrence
    (LocalTZA : Z → bool → Z) (month_start : Z → Z)
    (toLowerCase : jsstring → jsstring) (now : Z) :
  (∀ s, forallb is_ascii s = true → toLowerCase s = ascii_lower <$> s) →
  let nextRun := HostScheduler.calculateNextRun LocalTZA month_start toLowerCase in
  let local := HostScheduler.LocalTime LocalTZA in
  let read := HostScheduler.UTC LocalTZA in
  (∀ tza,
     HostScheduler.steady_zone LocalTZA now tza →
     Z.abs now ≤ HostScheduler.maxTime - 2 * msPerDay →
     (∀ day,
        (local now = MakeDate day (MakeTime 9 0 0 0) →
         ∃ next,
           nextRun now (js "daily at 10:00") = Some (HostScheduler.Int next)
           ∧ local next = MakeDate day (MakeTime 10 0 0 0))
        ∧ (local now = MakeDate day (MakeTime 11 0 0 0) →
           ∃ next,
             nextRun now (js "daily at 10:00") = Some (HostScheduler.Int next)
             ∧ local next = MakeDate (day + 1) (MakeTime 10 0 0 0)))
     ∧ (∀ lead hh mm,
          lead ∈ daily_leads → HostScheduler.time_of_day hh mm →
          let time := MakeTime (parseInt hh) (parseInt mm) 0 0 in
          ∃ next,
            nextRun now (daily_descriptor lead hh mm) = Some (HostScheduler.Int next)
            ∧ now < next ≤ now + msPerDay
            ∧ TimeWithinDay (local next) = time
            ∧ (∀ t, now < t < next → TimeWithinDay (local t) ≠ time)))
  ∧ (∀ lead hh mm,
       lead ∈ daily_leads → HostScheduler.time_of_day hh mm →
       let time := MakeTime (parseInt hh) (parseInt mm) 0 0 in
       let today := MakeDate (Day (local now)) time in
       let tomorrow := MakeDate (Day (local now) + 1) time in
       HostScheduler.on_the_clock LocalTZA today →
       (read today ≤ now → HostScheduler.on_the_clock LocalTZA tomorrow) →
       ∃ next,
         nextRun now (daily_descriptor lead hh mm) = Some (HostScheduler.Int next)
         ∧ next = (if bool_decide (read today ≤ now) then read tomorrow else read today)
         ∧ local next = (if bool_decide (read today ≤ now) then tomorrow else today)).
Proof.
  intros Hlower nextRun local read. split.
  - intros tza zone clock. split.
    + intros day. split; intros Hnow.
      * apply (host_daily_ten LocalTZA month_start toLowerCase Hlower tza now
                 zone clock day 9); auto.
      * apply (host_daily_ten LocalTZA month_start toLowerCase Hlower tza now
                 zone clock day 11); auto.
    + intros lead hh mm Hlead (Hlh & Hdh & Hlm & Hdm & Hh & Hm).
      destruct (host_next_occurrence LocalTZA month_start tza now zone clock
                  (parseInt hh) (parseInt mm))
        as (next & Htarget & _ & Hbounds & _ & Htime & Hfirst);
        [split; auto using parseInt_nonneg..|].
      exists next. split; [|done]. subst nextRun.
      rewrite (host_calculateNextRun_daily LocalTZA month_start toLowerCase Hlower)
        by by apply daily_descriptor_parse.
      by rewrite Htarget.
  - intros lead hh mm Hlead (Hlh & Hdh & Hlm & Hdm & Hh & Hm) time today tomorrow
      Htoday Htomorrow.
    eexists. split; [|split; [reflexivity|]].
    + subst nextRun.
      rewrite (host_calculateNextRun_daily LocalTZA month_start toLowerCase Hlower)
        by by apply daily_descriptor_parse.
      rewrite (host_daily_target_on_the_clock LocalTZA month_start now
                 (parseInt hh) (parseInt mm)); [done|..]; try done;
        split; auto using parseInt_nonneg.
    + case_bool_decide as Hle.
      * by destruct (Htomorrow Hle).
      * by destruct Htoday.
Qed.

(** In New York at 09:30 on the last day of daylight saving time, "daily
    at 09:00" gives 09:00 of the next local day, 24 hours and 30 minutes
    later. *)
Lemma daily_descriptor_next_occurrence_new_york :
  let zone := HostScheduler.new_york_2026 in
  ∃ next,
    HostScheduler.calculateNextRun zone thirty_day_months ascii_toLowerCase
      1793453400000 (js "daily at 09:00")
    = Some (HostScheduler.Int next)
    ∧ next = 1793453400000 + msPerDay + 30 * 60000
    ∧ HostScheduler.LocalTime zone next = MakeDate 20758 (MakeTime 9 0 0 0).
Proof.
  destruct (proj2 (daily_descriptor_next_occurrence HostScheduler.new_york_2026
                     thirty_day_months ascii_toLowerCase 1793453400000
                     (λ _ _, eq_refl))
              (js "daily at ") (js "09") (js "00"))
    as (next & Hrun & Hnext & Hlocal).
  - unfold daily_leads. rewrite elem_of_cons. by left.
  - unfold HostScheduler.time_of_day. repeat split; (reflexivity || (simpl; lia)).
  - split; by vm_compute.
  - intros _. split; by vm_compute.
  - exists next. split; [exact Hrun|]. split.
    + rewrite Hnext. by vm_compute.
    + rewrite Hlocal. by vm_compute.
Defined.

(** A time of day that a change of offset skips is not the time of day of
    the next run: in New York at 01:00 on 8 March 2026, the day on which
    the local clock goes from 02:00 to 03:00, "daily at 02:30" gives an
    instant 90 minutes later, at which the local clock shows 03:30. *)
Lemma daily_descriptor_skipped_time :
  let zone := HostScheduler.new_york_2026 in
  let now := 1772949600000 in
  let next := now + 90 * 60000 in
  TimeWithinDay (HostScheduler.LocalTime zone now) = MakeTime 1 0 0 0
  ∧ HostScheduler.calculateNextRun zone thirty_day_months ascii_toLowerCase now
      (js "daily at 02:30")
    = Some (HostScheduler.Int next)
  ∧ TimeWithinDay (HostScheduler.LocalTime zone next) = MakeTime 3 30 0 0.
Proof. by vm_compute. Qed.

(** X3: on a host whose zone keeps one offset around now, for a descriptor
    "tomorrow at H:MM" in canonical spelling with an hour below 24 and a
    minute below 60, the next run falls on the local day after today, at
    that local time of day. *)
Theorem tomorrow_descriptor_next_day
    (LocalTZA : Z → bool → Z) (month_start : Z → Z)
    (toLowerCase : jsstring → jsstring) (tza now : Z) (hh mm : jsstring) :
  (∀ s, forallb is_ascii s = true → toLowerCase s = ascii_lower <$> s) →
  HostScheduler.steady_zone LocalTZA now tza →
  Z.abs now ≤ HostScheduler.maxTime - 2 * msPerDay →
  HostScheduler.time_of_day hh mm →
  let local := HostScheduler.LocalTime LocalTZA in
  ∃ next,
    HostScheduler.calculateNextRun LocalTZA month_start toLowerCase now
      (tomorrow_descriptor hh mm)
    = Some (HostScheduler.Int next)
    ∧ Day (local next) = Day (local now) + 1
    ∧ TimeWithinDay (local next) = MakeTime (parseInt hh) (parseInt mm) 0 0.
Proof.
  intros Hlower zone clock (Hlh & Hdh & Hlm & Hdm & Hh & Hm) local.
  pose proof (conj (parseInt_nonneg hh) Hh) as Hhour.
  pose proof (conj (parseInt_nonneg mm) Hm) as Hminute.
  eexists. split.
  - rewrite (host_calculateNextRun_tomorrow LocalTZA month_start toLowerCase Hlower)
      by by apply clock_descriptor_parse.
    by rewrite (host_tomorrow_target LocalTZA month_start tza now zone clock).
  - by apply (host_tomorrow LocalTZA tza now zone).
Qed.

Lemma tomorrow_descriptor_next_day_nine :
  ∃ next,
    HostScheduler.calculateNextRun HostScheduler.utc_zone thirty_day_months
      ascii_toLowerCase (20000 * 86400000 + 23 * 3600000) (js "tomorrow at 09:30")
    = Some (HostScheduler.Int next)
    ∧ Day (HostScheduler.LocalTime HostScheduler.utc_zone next)
      = Day (HostScheduler.LocalTime HostScheduler.utc_zone
               (20000 * 86400000 + 23 * 3600000)) + 1
    ∧ TimeWithinDay (HostScheduler.LocalTime HostScheduler.utc_zone next)
      = MakeTime 9 30 0 0.
Proof.
  apply (tomorrow_descriptor_next_day HostScheduler.utc_zone thirty_day_months
           ascii_toLowerCase 0 (20000 * 86400000 + 23 * 3600000) (js "09") (js "30")
           (λ _ _, eq_refl));
    [by split|by vm_compute|].
  unfold HostScheduler.time_of_day. repeat split; (reflexivity || (simpl; lia)).
Defined.

(** X4: on a host whose zone keeps one offset around now, for a descriptor
    "at H:MM" in canonical spelling with an hour below 24 and a minute
    below 60, the next run is the same instant as for "daily at H:MM":
    strictly after now, at most one day later, at that local time of
    day. *)
Theorem at_descriptor_next_occurrence
    (LocalTZA : Z → bool → Z) (month_start : Z → Z)
    (toLowerCase : jsstring → jsstring) (tza now : Z) (hh mm : jsstring) :
  (∀ s, forallb is_ascii s = true → toLowerCase s = ascii_lower <$> s) →
  HostScheduler.steady_zone LocalTZA now tza →
  Z.abs now ≤ HostScheduler.maxTime - 2 * msPerDay →
  HostScheduler.time_of_day hh mm →
  let nextRun := HostScheduler.calculateNextRun LocalTZA month_start toLowerCase in
  ∃ next,
    nextRun now (at_descriptor hh mm) = Some (HostScheduler.Int next)
    ∧ nextRun now (daily_descriptor (js "daily at ") hh mm)
      = Some (HostScheduler.Int next)
    ∧ now < next ≤ now + msPerDay
    ∧ TimeWithinDay (HostScheduler.LocalTime LocalTZA next)
      = MakeTime (parseInt hh) (parseInt mm) 0 0.
Proof.
  intros Hlower zone clock (Hlh & Hdh & Hlm & Hdm & Hh & Hm) nextRun.
  destruct (host_next_occurrence LocalTZA month_start tza now zone clock
              (parseInt hh) (parseInt mm))
    as (next & Htarget & _ & Hbounds & _ & Htime & _);
    [split; auto using parseInt_nonneg..|].
  exists next. subst nextRun. split; [|split; [|done]].
  - rewrite (host_calculateNextRun_at LocalTZA month_start toLowerCase Hlower)
      by by apply clock_descriptor_parse.
    by rewrite Htarget.
  - rewrite (host_calculateNextRun_daily LocalTZA month_start toLowerCase Hlower).
    + by rewrite Htarget.
    + apply daily_descriptor_parse; try done.
      unfold daily_leads. rewrite elem_of_cons. by left.
Qed.

Lemma at_descriptor_next_occurrence_two :
  ∃ next,
    HostScheduler.calculateNextRun HostScheduler.utc_zone thirty_day_months
      ascii_toLowerCase 1000 (js "at 14:00")
    = Some (HostScheduler.Int next)
    ∧ HostScheduler.calculateNextRun HostScheduler.utc_zone thirty_day_months
        ascii_toLowerCase 1000 (js "daily at 14:00")
      = Some (HostScheduler.Int next)
    ∧ 1000 < next ≤ 1000 + msPerDay
    ∧ TimeWithinDay (HostScheduler.LocalTime HostScheduler.utc_zone next)
      = MakeTime 14 0 0 0.
Proof.
  apply (at_descriptor_next_occurrence HostScheduler.utc_zone thirty_day_months
           ascii_toLowerCase 0 1000 (js "14") (js "00") (λ _ _, eq_refl));
    [by split|by vm_compute|].
  unfold HostScheduler.time_of_day. repeat split; (reflexivity || (simpl; lia)).
Defined.

End HostDailyFacts.

(** ** Scheduler on the host: tasks created by the form *)

Module HostCreateTaskFacts.
Import Regex Scheduler SchedulerDescriptors.
Import DescriptorFacts StringMoreFacts HostSchedulerFacts.

Local Open Scope Z_scope.

(** A next run that is a positive number, or the infinity, creates a
    task. *)
Lemma host_handleCreateTask_creates LocalTZA month_start toLowerCase
    now uuid title schedule next :
  trim title ≠ [] → trim schedule ≠ [] →
  HostScheduler.calculateNextRun LocalTZA month_start toLowerCase now schedule
  = Some next →
  HostScheduler.at_least 1 next →
  ∃ task,
    HostScheduler.sent
      (HostScheduler.handleCreateTask LocalTZA month_start toLowerCase now uuid
         (filled_form title schedule))
    = [HostScheduler.scheduler_task_create task]
    ∧ HostScheduler.nextRun task = next
    ∧ HostScheduler.isRecurring task
      = (startsWith schedule (js "every") || startsWith schedule (js "daily")).
Proof.
  intros Htitle Hschedule Hrun Hnext. unfold HostScheduler.handleCreateTask.
  cbn [filled_form form_title form_schedule form_prompt form_notifyBefore].
  destruct (trim title) as [|c1 t1]; [done|].
  destruct (trim schedule) as [|c2 t2]; [done|].
  cbn [truthy negb orb]. rewrite Hrun.
  destruct next as [|[|]|[|p|p]]; cbn [HostScheduler.at_least] in Hnext;
    try done; try lia; by eexists.
Qed.

(** X6: the schedule is parsed in lower case but the recurrence flag is
    read from the text as typed: "Every N minutes" (or hours), with a
    capital letter, creates a task with the same next run as "every N
    minutes" but not recurring, while the lower-case spelling creates a
    recurring one. In the safe range of the numbers of the host that next
    run is now plus the interval. *)
Theorem capital_every_is_one_shot
    (LocalTZA : Z → bool → Z) (month_start : Z → Z)
    (toLowerCase : jsstring → jsstring)
    (now : Z) (uuid title ds unit : jsstring) :
  (∀ s, forallb is_ascii s = true → toLowerCase s = ascii_lower <$> s) →
  trim title ≠ [] → 0 < now →
  ds ≠ [] → forallb is_digit ds = true →
  unit = js "minutes" ∨ unit = js "hours" →
  let created schedule :=
    HostScheduler.sent
      (HostScheduler.handleCreateTask LocalTZA month_start toLowerCase now uuid
         (filled_form title schedule)) in
  ∃ lower capital,
    created (every_descriptor ds unit) = [HostScheduler.scheduler_task_create lower]
    ∧ created (capital_every_descriptor ds unit)
      = [HostScheduler.scheduler_task_create capital]
    ∧ HostScheduler.nextRun lower = HostScheduler.nextRun capital
    ∧ (HostScheduler.in_safe_range now (parseInt ds * unit_ms unit) →
       HostScheduler.nextRun capital
       = HostScheduler.Int (now + parseInt ds * unit_ms unit))
    ∧ HostScheduler.isRecurring lower = true
    ∧ HostScheduler.isRecurring capital = false.
Proof.
  intros Hlower Htitle Hnow Hne Hds Hunit created.
  destruct (host_calculateNextRun_every LocalTZA month_start toLowerCase Hlower
              now ds unit Hne Hds Hunit) as (next & Hrun & Hpos & Hsafe).
  assert (toLowerCase (capital_every_descriptor ds unit)
          = toLowerCase (every_descriptor ds unit)) as Hsame.
  { unfold capital_every_descriptor, every_descriptor.
    rewrite !Hlower.
    - by rewrite !fmap_app.
    - rewrite !forallb_app, (digits_ascii ds) by done.
      by destruct Hunit as [-> | ->].
    - rewrite !forallb_app, (digits_ascii ds) by done.
      by destruct Hunit as [-> | ->]. }
  assert (HostScheduler.calculateNextRun LocalTZA month_start toLowerCase now
            (capital_every_descriptor ds unit) = Some next) as Hrun'.
  { rewrite <- Hrun. unfold HostScheduler.calculateNextRun. by rewrite Hsame. }
  destruct (host_handleCreateTask_creates LocalTZA month_start toLowerCase now uuid
              title _ next Htitle (trim_visible_head 101%N _ eq_refl) Hrun (Hpos Hnow))
    as (lower & Hl & Hln & Hlr).
  destruct (host_handleCreateTask_creates LocalTZA month_start toLowerCase now uuid
              title _ next Htitle (trim_visible_head 69%N _ eq_refl) Hrun' (Hpos Hnow))
    as (capital & Hc & Hcn & Hcr).
  exists lower, capital. subst created. cbn beta.
  split; [done|]. split; [done|]. split; [congruence|].
  split; [intros Hrange; rewrite Hcn; by apply Hsafe|].
  by rewrite Hlr, Hcr.
Qed.

Lemma capital_every_is_one_shot_five_minutes :
  ∃ lower capital,
    HostScheduler.sent
      (HostScheduler.handleCreateTask HostScheduler.utc_zone thirty_day_months
         ascii_toLowerCase 1000 (js "id-1")
         (filled_form (js "Backup") (every_descriptor (js "5") (js "minutes"))))
    = [HostScheduler.scheduler_task_create lower]
    ∧ HostScheduler.sent
        (HostScheduler.handleCreateTask HostScheduler.utc_zone thirty_day_months
           ascii_toLowerCase 1000 (js "id-1")
           (filled_form (js "Backup")
              (capital_every_descriptor (js "5") (js "minutes"))))
      = [HostScheduler.scheduler_task_create capital]
    ∧ HostScheduler.nextRun lower = HostScheduler.nextRun capital
    ∧ HostScheduler.nextRun capital = HostScheduler.Int 301000
    ∧ HostScheduler.isRecurring lower = true
    ∧ HostScheduler.isRecurring capital = false.
Proof.
  destruct (capital_every_is_one_shot HostScheduler.utc_zone thirty_day_months
              ascii_toLowerCase 1000 (js "id-1") (js "Backup") (js "5") (js "minutes")
              (λ _ _, eq_refl))
    as (lower & capital & Hl & Hc & Hsame & Hnext & Hrl & Hrc);
    [by vm_compute|lia|by vm_compute|reflexivity|by left|].
  exists lower, capital. repeat split; try done.
  apply Hnext. by vm_compute.
Defined.

End HostCreateTaskFacts.

(** ** Notification preview: the shape of a body *)

Module PreviewShapeFacts.
Import NotificationPreview StringFacts StringMoreFacts PreviewFacts PreviewWords.

Lemma words_from_visible_prefix cur w rest :
  visible w → words_from cur (w ++ rest) = words_from (cur ++ w) rest.
Proof.
  intros Hw. revert cur. induction Hw as [|c w Hc _ IH]; intros cur.
  - by rewrite app_nil_r.
  - cbn [app words_from]. rewrite Hc, IH, <- app_assoc. done.
Qed.

(** Splitting what was joined gives the words back. *)
Lemma words_unwords ws : well_formed ws → words (unwords ws) = ws.
Proof.
  unfold words. induction 1 as [|w ws [Hne Hw] Hws IH]; [done|].
  destruct ws as [|w' ws].
  - cbn [unwords]. rewrite <- (app_nil_r w) at 1.
    rewrite words_from_visible_prefix by done.
    cbn [app words_from]. by destruct w.
  - rewrite unwords_cons, words_from_visible_prefix by done.
    cbn [app words_from]. rewrite space_is_white, IH. by destruct w.
Qed.

Lemma normalize_unwords ws :
  well_formed ws → normalizeResponseText (unwords ws) = unwords ws.
Proof. intros Hws. by rewrite normalizeResponseText_words, words_unwords. Qed.

Lemma unwords_nil_inv ws : well_formed ws → unwords ws = [] → ws = [].
Proof.
  destruct 1 as [|w ws [Hne _] _]; [done|].
  destruct ws; cbn [unwords]; [done|]. by destruct w.
Qed.

(** A cut of joined words, without its trailing white space, is again a
    joining of words. *)
Lemma trimEnd_take_unwords ws k :
  well_formed ws → ∃ ws', well_formed ws' ∧ trimEnd (take k (unwords ws)) = unwords ws'.
Proof.
  intros Hws. revert k. induction Hws as [|w ws [Hne Hw] Hws IH]; intros k.
  - exists []. split; [constructor|]. cbn [unwords]. by destruct k.
  - assert (∀ j, ∃ ws', well_formed ws' ∧ trimEnd (take j w) = unwords ws') as Hword.
    { intros j. destruct (take j w) as [|c p] eqn:Hp.
      - exists []. by split; [constructor|].
      - exists [c :: p]. split.
        + constructor; [|constructor]. split; [done|].
          rewrite <- Hp. by apply Forall_take.
        + cbn [unwords]. apply trimEnd_visible. rewrite <- Hp. by apply Forall_take. }
    destruct ws as [|w' ws]; [apply Hword|].
    rewrite unwords_cons by done.
    destruct (decide (k ≤ length w)%nat) as [Hk|Hk].
    + rewrite take_app_le by done. apply Hword.
    + rewrite take_app_ge by lia.
      destruct (k - length w)%nat as [|k'] eqn:Hdiff; [lia|]. cbn [take].
      destruct (IH k') as (ws' & Hws' & Hcut).
      rewrite trimEnd_app, trimEnd_cons, Hcut.
      destruct (unwords ws') as [|c u] eqn:Hu.
      * rewrite space_is_white. exists [w]. split.
        -- by repeat constructor.
        -- cbn [unwords]. by apply trimEnd_visible.
      * exists (w :: ws'). split; [by constructor|].
        rewrite unwords_cons, Hu; [done|]. intros ->. done.
Qed.

(** Visible units added at the end extend the last word. *)
Lemma unwords_app_visible ws tail :
  well_formed ws → tail ≠ [] → visible tail →
  ∃ ws', well_formed ws' ∧ unwords ws ++ tail = unwords ws'.
Proof.
  intros Hws Hne Htail. induction Hws as [|w ws [Hw1 Hw2] Hws IH].
  - exists [tail]. split; [by repeat constructor|done].
  - destruct ws as [|w' ws].
    + exists [w ++ tail]. split; [|done]. constructor; [|constructor].
      split; [by intros [-> _]%app_eq_nil|]. apply Forall_app. by split.
    + destruct IH as (ws' & Hws' & Heq).
      exists (w :: ws'). split; [by constructor|].
      assert (ws' ≠ []) as Hne'.
      { intros ->. by apply app_eq_nil in Heq as [_ ->]. }
      rewrite !unwords_cons by done.
      rewrite <- app_assoc, <- app_comm_cons, Heq.
      symmetry. by apply unwords_cons.
Qed.

Lemma ellipsis_visible : ELLIPSIS ≠ [] ∧ visible ELLIPSIS.
Proof. split; [done|]. by repeat constructor. Qed.

Lemma truncate_unwords ws limit :
  well_formed ws →
  ∃ ws', well_formed ws' ∧ truncateResponseText (unwords ws) limit = unwords ws'.
Proof.
  intros Hws. unfold truncateResponseText. case_bool_decide; [eauto|].
  destruct (trimEnd_take_unwords ws (limit - length ELLIPSIS) Hws) as (ws1 & Hws1 & ->).
  destruct ellipsis_visible. by apply unwords_app_visible.
Qed.

Lemma buildNotificationBody_unwords rawText :
  ∃ ws, well_formed ws ∧ buildNotificationBody rawText = unwords ws.
Proof.
  unfold buildNotificationBody. destruct (truthy rawText); cbn [negb].
  - rewrite normalizeResponseText_words. apply truncate_unwords.
    apply words_from_visible. constructor.
  - exists []. by split; [constructor|].
Qed.

(** X8: normalising white space is idempotent, and a notification body
    is a fixed point of the whole pipeline: it is already normalised, and
    building a body from a body gives it back. *)
Theorem buildNotificationBody_normalised (rawText : option jsstring) (text : jsstring) :
  normalizeResponseText (normalizeResponseText text) = normalizeResponseText text
  ∧ normalizeResponseText (buildNotificationBody rawText)
    = buildNotificationBody rawText
  ∧ buildNotificationBody (Some (buildNotificationBody rawText))
    = buildNotificationBody rawText.
Proof.
  assert (normalizeResponseText (buildNotificationBody rawText)
          = buildNotificationBody rawText) as Hfixed.
  { destruct (buildNotificationBody_unwords rawText) as (ws & Hws & ->).
    by apply normalize_unwords. }
  split; [|split; [done|]].
  - rewrite (normalizeResponseText_words text). apply normalize_unwords.
    apply words_from_visible. constructor.
  - pose proof (truncateResponseText_length
                  (normalizeResponseText (default [] rawText)) 140) as Hlen.
    unfold buildNotificationBody at 1.
    destruct (buildNotificationBody rawText) as [|c body] eqn:Hbody; [done|].
    cbn [truthy negb default from_option id]. rewrite Hfixed.
    unfold truncateResponseText. rewrite bool_decide_eq_true_2; [done|].
    rewrite <- Hbody. unfold buildNotificationBody, BODY_LIMIT.
    destruct (truthy rawText); cbn [negb length]; lia.
Qed.

(** X9: [truncateResponseText] leaves a text within the limit alone;
    a longer text becomes a prefix of it of at most limit - 3 units, with
    no white space at its end, followed by "..."; the result is never
    longer than the limit, unless the limit is below 3, where a longer
    text becomes "..." alone. *)
Theorem truncateResponseText_bounds (text : jsstring) (limit : nat) :
  ((length text ≤ limit)%nat → truncateResponseText text limit = text)
  ∧ ((limit < length text)%nat →
       ∃ kept,
         truncateResponseText text limit = kept ++ js "..."
         ∧ kept `prefix_of` text
         ∧ (length kept ≤ limit - 3)%nat
         ∧ trimEnd kept = kept)
  ∧ (length (truncateResponseText text limit) ≤ limit `max` 3)%nat
  ∧ ((limit < 3)%nat → (limit < length text)%nat →
       truncateResponseText text limit = js "...").
Proof.
  unfold truncateResponseText. change (length ELLIPSIS) with 3%nat.
  split; [|split; [|split]].
  - intros Hshort. by rewrite bool_decide_eq_true_2.
  - intros Hlong. rewrite bool_decide_eq_false_2 by lia.
    exists (trimEnd (take (limit - 3) text)). split; [done|]. split; [|split].
    + etrans; [apply trimEnd_prefix|apply prefix_take].
    + pose proof (trimEnd_length (take (limit - 3) text)) as Hkept.
      rewrite length_take in Hkept. lia.
    + apply trimEnd_idempotent.
  - case_bool_decide; [lia|]. rewrite length_app.
    pose proof (trimEnd_length (take (limit - 3) text)) as Hkept.
    rewrite length_take in Hkept. change (length ELLIPSIS) with 3%nat. lia.
  - intros Hsmall Hlong. rewrite bool_decide_eq_false_2 by lia.
    by replace (limit - 3)%nat with 0%nat by lia.
Qed.

End PreviewShapeFacts.

(** ** Notification preview: the text of a response *)

Module ResponseTextFacts.
Import NotificationPreview StringFacts StringMoreFacts PreviewFacts PreviewWords.
Import PreviewShapeFacts ResponseText.

Lemma words_from_space cur a b :
  words_from cur (a ++ SPACE :: b) = words_from cur a ++ words_from [] b.
Proof.
  revert cur. induction a as [|c a IH]; intros cur.
  - cbn [app words_from]. rewrite space_is_white. by destruct cur.
  - cbn [app words_from]. destruct (is_white_space c); [|apply IH].
    destruct cur; by rewrite IH.
Qed.

Lemma words_join_space parts :
  words (join_space parts) = concat (words <$> parts).
Proof.
  unfold words. induction parts as [|p parts IH]; [done|].
  destruct parts as [|q parts].
  - cbn [join_space fmap list_fmap concat]. by rewrite app_nil_r.
  - change (join_space (p :: q :: parts)) with (p ++ SPACE :: join_space (q :: parts)).
    by rewrite words_from_space, IH.
Qed.

Lemma words_from_trimStart s : words_from [] (trimStart s) = words_from [] s.
Proof.
  induction s as [|c s IH]; [done|]. cbn [trimStart words_from].
  destruct (is_white_space c) eqn:Hc; [done|]. cbn [words_from]. by rewrite Hc.
Qed.

Lemma words_from_trimEnd s : ∀ cur, words_from cur (trimEnd s) = words_from cur s.
Proof.
  induction s as [|c s IH]; intros cur; [done|]. rewrite trimEnd_cons.
  destruct (trimEnd s) as [|x r] eqn:Hs.
  - destruct (is_white_space c) eqn:Hc; cbn [words_from]; rewrite ?Hc.
    + rewrite <- (IH []). by destruct cur.
    + by rewrite <- IH.
  - cbn [words_from]. destruct (is_white_space c).
    + rewrite <- (IH []). cbn [words_from]. done.
    + by rewrite <- IH.
Qed.

Lemma words_trim s : words (trim s) = words s.
Proof. unfold words, trim. by rewrite words_from_trimEnd, words_from_trimStart. Qed.

(** X10: for an assistant message, the text extracted is absent or a
    non-empty trimmed string; it is absent exactly when the text parts
    hold no word; and the notification body built from it is the words of
    the text parts, in order, joined by single spaces and truncated to the
    body limit. *)
Theorem extractResponseText_assistant (content : option (list (option ContentItem))) :
  let parts := text_parts (default [] content) in
  let extracted := extractResponseText (assistant_message content) in
  (∀ text, extracted = Some text → text ≠ [] ∧ trim text = text)
  ∧ (extracted = None ↔ concat (words <$> parts) = [])
  ∧ buildNotificationBody extracted
    = truncateResponseText (unwords (concat (words <$> parts))) BODY_LIMIT.
Proof.
  intros parts extracted. subst extracted. unfold extractResponseText. fold parts.
  assert (normalizeResponseText (trim (join_space parts))
          = unwords (concat (words <$> parts))) as Hnorm.
  { by rewrite normalizeResponseText_words, words_trim, words_join_space. }
  assert (trim (join_space parts) = [] ↔ concat (words <$> parts) = []) as Hempty.
  { rewrite <- words_join_space, <- words_trim. split; [by intros ->|].
    intros Hw. destruct (trim (join_space parts)) as [|c t] eqn:Ht; [done|].
    assert (is_white_space c = false) as Hc.
    { unfold trim in Ht. pose proof (trimEnd_prefix (trimStart (join_space parts))) as Hp.
      rewrite Ht in Hp. destruct Hp as [k Hk].
      clear -Hk. induction (join_space parts) as [|d s IH]; [done|].
      cbn [trimStart] in Hk. destruct (is_white_space d) eqn:Hd; [by apply IH|].
      by injection Hk as -> _. }
    unfold words in Hw. cbn [words_from] in Hw. rewrite Hc in Hw.
    by apply (words_from_nonempty ([] ++ [c]) t) in Hw. }
  destruct (trim (join_space parts)) as [|c t] eqn:Ht; cbn [truthy].
  - split; [done|]. split; [by rewrite <- Hempty|].
    rewrite (proj1 Hempty eq_refl). done.
  - split; [|split].
    + intros text [= <-]. split; [done|]. rewrite <- Ht. apply trim_idempotent.
    + split; [done|]. intros Hw%Hempty. done.
    + unfold buildNotificationBody. cbn [truthy negb default from_option id].
      by rewrite Hnorm.
Qed.

End ResponseTextFacts.

(** ** Events of a session *)

Module EventRoutingFacts.
Import NotificationRouting HistorySync PartialMessages RoutingFacts.

(** X11: for an event of a session with a non-empty id, judged against
    the same active session: the history is marked stale exactly when a
    notification is due and some session is active; a partial message is
    handled exactly when the session of the event is the active one, and
    then neither happens; with no active session only the notification
    can happen, for a finished session. *)
Theorem session_event_routing
    (status sessionId : jsstring) (activeSessionId : option jsstring) :
  sessionId ≠ [] →
  let stale := shouldMarkHistoryStale activeSessionId sessionId status in
  let notify := shouldNotifyForSession status (Some sessionId) activeSessionId in
  let partial := shouldHandlePartialMessage activeSessionId (Some sessionId) in
  stale = notify && truthy activeSessionId
  ∧ (partial = true ↔ activeSessionId = Some sessionId)
  ∧ (partial = true → stale = false ∧ notify = false)
  ∧ (truthy activeSessionId = false →
     stale = false ∧ partial = false
     ∧ notify = bool_decide (status = js "completed") || bool_decide (status = js "error")).
Proof.
  intros Hid stale notify partial. subst stale notify partial.
  rewrite shouldNotifyForSession_cascade.
  unfold shouldMarkHistoryStale, shouldHandlePartialMessage.
  destruct sessionId as [|c sid]; [done|]. cbn [truthy negb orb andb].
  destruct activeSessionId as [[|d a]|]; cbn [truthy negb orb andb];
    rewrite ?andb_true_r, ?andb_false_r, ?orb_false_r.
  - repeat split; try done; by destruct (_ || _).
  - repeat case_bool_decide; try congruence; cbn [andb orb];
      rewrite ?andb_true_r, ?andb_false_r; repeat split; try done; try congruence.
  - repeat split; try done; by destruct (_ || _).
Qed.

Lemma session_event_routing_background :
  shouldMarkHistoryStale (Some (js "s1")) (js "s2") (js "completed")
  = shouldNotifyForSession (js "completed") (Some (js "s2")) (Some (js "s1"))
    && truthy (Some (js "s1")).
Proof.
  refine (proj1 (session_event_routing (js "completed") (js "s2") (Some (js "s1")) _)).
  by vm_compute.
Defined.

End EventRoutingFacts.

(** ** Paths below a folder *)

Module PathFacts.
Import Path PathNames Workspace WorkspaceFacts.

Lemma segments_from_app cur a b :
  segments_from cur (a ++ SLASH :: b) = segments_from cur a ++ segments_from [] b.
Proof.
  revert cur. induction a as [|c a IH]; intros cur.
  - cbn [app segments_from]. by rewrite N.eqb_refl.
  - cbn [app segments_from]. destruct (c =? SLASH); by rewrite IH.
Qed.

Lemma segments_app a b : segments (a ++ SLASH :: b) = segments a ++ segments b.
Proof. apply segments_from_app. Qed.

Lemma normalize_descend allowAboveRoot segs : ∀ kept,
  DOTDOT ∉ segs →
  foldl (normalize_step allowAboveRoot) kept segs
  = rev (List.filter proper segs) ++ kept.
Proof.
  induction segs as [|seg segs IH]; intros kept Hno; [done|].
  apply not_elem_of_cons in Hno as [Hseg Hno].
  cbn [foldl List.filter]. rewrite IH by done. unfold normalize_step, proper.
  destruct (bool_decide (seg = []) || bool_decide (seg = DOT)); cbn [negb]; [done|].
  rewrite bool_decide_eq_false_2 by done. cbn [rev]. by rewrite <- app_assoc.
Qed.

Lemma join_with_sep_app a b :
  a ≠ [] → b ≠ [] →
  join_with_sep (a ++ b) = join_with_sep a ++ SLASH :: join_with_sep b.
Proof.
  intros Ha Hb. induction a as [|x a IH]; [done|].
  destruct a as [|y a].
  - destruct b; [done|]. done.
  - change (join_with_sep ((x :: y :: a) ++ b))
      with (x ++ SLASH :: join_with_sep ((y :: a) ++ b)).
    rewrite IH by done. cbn [join_with_sep]. by rewrite <- app_assoc.
Qed.

(** [resolve] of one and of two arguments, the second of them not
    absolute: the segments kept for the first, then the walk along the
    second. [kept] is in reverse order. *)
Lemma resolve_below process_cwd cwd p :
  isAbsolute p = false →
  ∃ kept,
    resolve process_cwd [cwd] = SLASH :: join_with_sep (rev kept)
    ∧ resolve process_cwd [cwd; p]
      = SLASH :: join_with_sep (rev (foldl (normalize_step false) kept (segments p))).
Proof.
  intros Hrel.
  assert (∀ base,
    normalizeString (base ++ SLASH :: []) false
    = join_with_sep (rev (foldl (normalize_step false) [] (segments base)))) as Hroot.
  { intros base. unfold normalizeString. by rewrite segments_app, foldl_app. }
  assert (∀ base,
    normalizeString (base ++ SLASH :: p ++ SLASH :: []) false
    = join_with_sep (rev (foldl (normalize_step false)
                            (foldl (normalize_step false) [] (segments base))
                            (segments p)))) as Hfull.
  { intros base. unfold normalizeString.
    by rewrite !segments_app, !foldl_app. }
  unfold resolve. cbn [rev app resolve_scan].
  destruct p as [|c p].
  - assert (∀ kept root,
              root = SLASH :: join_with_sep (rev kept) →
              ∃ kept', root = SLASH :: join_with_sep (rev kept')
                       ∧ root = SLASH :: join_with_sep
                                  (rev (foldl (normalize_step false) kept' (segments []))))
      as Hsame by (intros kept root ->; by exists kept).
    destruct cwd as [|d cwd]; [eapply Hsame, (f_equal (cons SLASH)), Hroot|].
    destruct (isAbsolute (d :: cwd)); eapply Hsame, (f_equal (cons SLASH)).
    + apply (Hroot (d :: cwd)).
    + rewrite <- (Hroot (process_cwd ++ SLASH :: d :: cwd)).
      by rewrite <- app_assoc.
  - rewrite Hrel. destruct cwd as [|d cwd].
    + exists (foldl (normalize_step false) [] (segments process_cwd)).
      split; apply (f_equal (cons SLASH)); [apply Hroot|].
      rewrite <- Hfull. by rewrite <- ?app_assoc.
    + destruct (isAbsolute (d :: cwd)).
      * exists (foldl (normalize_step false) [] (segments (d :: cwd))).
        split; apply (f_equal (cons SLASH)); [apply (Hroot (d :: cwd))|].
        rewrite <- Hfull. done.
      * exists (foldl (normalize_step false) [] (segments (process_cwd ++ SLASH :: d :: cwd))).
        split; apply (f_equal (cons SLASH)).
        -- rewrite <- Hroot. by rewrite <- ?app_assoc.
        -- rewrite <- Hfull. by rewrite <- ?app_assoc.
Qed.

(** A path that does not climb stays below the directory it is resolved
    against. *)
Lemma resolve_within process_cwd cwd p :
  isAbsolute p = false →
  DOTDOT ∉ segments p →
  within (resolve process_cwd [cwd]) (resolve process_cwd [cwd; p]).
Proof.
  intros Hrel Hno. destruct (resolve_below process_cwd cwd p Hrel) as (kept & -> & ->).
  rewrite normalize_descend, rev_app_distr, rev_involutive by done.
  destruct (List.filter proper (segments p)) as [|seg segs] eqn:Hsegs.
  { left. by rewrite app_nil_r. }
  right. unfold with_sep.
  destruct (rev kept) as [|k ks] eqn:Hkept.
  { exists (join_with_sep (seg :: segs)). reflexivity. }
  rewrite join_with_sep_app by done.
  destruct (endsWith1 _ _).
  - by exists (SLASH :: join_with_sep (seg :: segs)).
  - exists (join_with_sep (seg :: segs)). cbn [app]. by rewrite <- app_assoc.
Qed.

End PathFacts.

Module SandboxPathFacts.
Import Path Workspace WorkspaceFacts Sandbox SandboxPaths PathFacts.

(** X17: on a POSIX host, a guest path that has no ".." segment and does
    not start with two separators resolves, in the file API of the sandbox,
    to the workspace folder or to a path below it, the folder ending at a
    separator. *)
Theorem full_path_within (process_cwd cwd p : jsstring) :
  startsWith p (js "//") = false →
  DOTDOT ∉ segments p →
  within (workspace_root process_cwd cwd) (full_path process_cwd cwd p).
Proof.
  intros Hslashes Hno. unfold full_path, workspace_root.
  change (js "/") with [SLASH]. change (js "//") with [SLASH; SLASH] in Hslashes.
  apply resolve_within.
  - destruct p as [|c p]; [done|]. cbn [startsWith] in *.
    rewrite andb_true_r. destruct (SLASH =? c) eqn:Hc; cbn [andb] in *.
    + destruct p as [|d p]; [done|].
      cbn [drop isAbsolute]. rewrite andb_true_r in Hslashes. by rewrite N.eqb_sym.
    + cbn [isAbsolute]. by rewrite N.eqb_sym.
  - destruct p as [|c p]; [done|]. cbn [startsWith].
    rewrite andb_true_r. destruct (SLASH =? c) eqn:Hc; [|done].
    rewrite skipn_cons, drop_0. unfold segments in Hno. cbn [segments_from] in Hno.
    rewrite N.eqb_sym, Hc in Hno. by apply not_elem_of_cons in Hno as [_ Hno].
Qed.

Lemma full_path_within_report :
  within (workspace_root (js "/opt/app") (js "/home/user/ws"))
    (full_path (js "/opt/app") (js "/home/user/ws") (js "/reports/./2024//notes.txt")).
Proof.
  apply full_path_within; [reflexivity|].
  apply (bool_decide_unpack _). by vm_compute.
Defined.



End SandboxPathFacts.

(** ** File names and joined paths *)

Module PathNameFacts.
Import Path PathNames PathFacts.

Lemma segments_from_plain cur s :
  SLASH ∉ s → segments_from cur s = [cur ++ s].
Proof.
  revert cur. induction s as [|c s IH]; intros cur Hs.
  - by rewrite app_nil_r.
  - apply not_elem_of_cons in Hs as [Hc Hs]. cbn [segments_from].
    rewrite (proj2 (N.eqb_neq c SLASH)) by done.
    rewrite IH by done. by rewrite <- app_assoc.
Qed.

Lemma segments_from_no_slash s : ∀ cur,
  SLASH ∉ cur → Forall (λ seg, SLASH ∉ seg) (segments_from cur s).
Proof.
  induction s as [|c s IH]; intros cur Hcur; cbn [segments_from].
  - by constructor.
  - destruct (c =? SLASH) eqn:Hc.
    + constructor; [done|]. apply IH. by apply not_elem_of_nil.
    + apply IH. apply N.eqb_neq in Hc.
      intros [?|Heq%list_elem_of_singleton]%elem_of_app; [done|congruence].
Qed.

Lemma segments_join segs :
  segs ≠ [] → Forall (λ seg, SLASH ∉ seg) segs →
  segments (join_with_sep segs) = segs.
Proof.
  intros Hne Hall. induction Hall as [|seg segs Hseg Hall IH]; [done|].
  destruct segs as [|seg' segs].
  - cbn [join_with_sep]. unfold segments. by rewrite segments_from_plain.
  - change (join_with_sep (seg :: seg' :: segs))
      with (seg ++ SLASH :: join_with_sep (seg' :: segs)).
    rewrite segments_app, IH by done. unfold segments.
    by rewrite segments_from_plain.
Qed.

Lemma join_with_sep_snoc segs seg :
  join_with_sep (segs ++ [seg])
  = match segs with
    | [] => seg
    | _ => join_with_sep segs ++ SLASH :: seg
    end.
Proof.
  destruct segs as [|x segs]; [done|]. by rewrite join_with_sep_app.
Qed.

Lemma normalize_step_clean kept seg :
  SLASH ∉ seg → Forall clean kept → Forall clean (normalize_step false kept seg).
Proof.
  intros Hseg Hkept. unfold normalize_step.
  destruct (bool_decide (seg = []) || bool_decide (seg = DOT)) eqn:Hdrop; [done|].
  apply orb_false_iff in Hdrop as [Hempty%bool_decide_eq_false Hdot%bool_decide_eq_false].
  case_bool_decide as Hup.
  - destruct Hkept as [|top below Htop Hbelow]; [done|].
    rewrite bool_decide_eq_false_2; [done|]. by destruct Htop as (_ & _ & ? & _).
  - by constructor.
Qed.

Lemma normalize_steps_clean segs : ∀ kept,
  Forall (λ seg, SLASH ∉ seg) segs → Forall clean kept →
  Forall clean (foldl (normalize_step false) kept segs).
Proof.
  induction segs as [|seg segs IH]; intros kept Hsegs Hkept; [done|].
  apply Forall_cons in Hsegs as [Hseg Hsegs]. cbn [foldl].
  by apply IH, normalize_step_clean.
Qed.

(** [resolve] answers a separator followed by clean segments. *)
Lemma resolve_clean process_cwd args :
  ∃ segs, Forall clean segs ∧ resolve process_cwd args = SLASH :: join_with_sep segs.
Proof.
  unfold resolve. destruct (resolve_scan (rev args) []) as [acc absolute].
  eexists. split; [|reflexivity]. apply Forall_rev, normalize_steps_clean; [|done].
  apply segments_from_no_slash, not_elem_of_nil.
Qed.

Lemma clean_proper segs :
  Forall clean segs → List.filter proper segs = segs ∧ DOTDOT ∉ segs.
Proof.
  induction 1 as [|seg segs (Hempty & Hdot & Hup & _) _ [IH1 IH2]].
  - split; [done|apply not_elem_of_nil].
  - split.
    + cbn [List.filter]. unfold proper at 1.
      rewrite !bool_decide_eq_false_2 by done. cbn [orb negb]. by rewrite IH1.
    + apply not_elem_of_cons. by split.
Qed.

Lemma foldl_skip allowAboveRoot kept segs :
  foldl (normalize_step allowAboveRoot) kept ([] :: segs)
  = foldl (normalize_step allowAboveRoot) kept segs.
Proof. reflexivity. Qed.

(** [normalize] of a clean absolute path followed by one more clean
    segment. *)
Lemma normalize_clean_snoc segs seg :
  Forall clean segs → clean seg →
  normalize ((SLASH :: join_with_sep segs) ++ SLASH :: seg)
  = SLASH :: join_with_sep (segs ++ [seg]).
Proof.
  intros Hsegs Hseg.
  assert (Forall (λ s, SLASH ∉ s) segs) as Hplain.
  { eapply Forall_impl; [done|]. by intros s (_ & _ & _ & ?). }
  pose proof Hseg as (Hne & _ & _ & Hslash).
  assert (normalizeString ((SLASH :: join_with_sep segs) ++ SLASH :: seg) false
          = join_with_sep (segs ++ [seg])) as Hbody.
  { unfold normalizeString. rewrite segments_app.
    change (SLASH :: join_with_sep segs) with ([] ++ SLASH :: join_with_sep segs).
    rewrite segments_app. unfold segments at 1 3. cbn [segments_from].
    rewrite (segments_from_plain [] seg) by done. cbn [app].
    rewrite foldl_skip.
    destruct segs as [|x segs].
    - change (segments (join_with_sep [])) with [@nil code_unit].
      cbn [app]. rewrite foldl_skip.
      destruct (clean_proper [seg]) as [Hfilter Hno]; [by constructor|].
      rewrite normalize_descend, app_nil_r, rev_involutive by done.
      exact (f_equal join_with_sep Hfilter).
    - rewrite segments_join by done.
      destruct (clean_proper ((x :: segs) ++ [seg])) as [Hfilter Hno].
      { apply Forall_app. split; [done|by constructor]. }
      rewrite normalize_descend, app_nil_r, rev_involutive by done.
      exact (f_equal join_with_sep Hfilter). }
  unfold normalize. cbn [app isAbsolute]. rewrite N.eqb_refl. cbn [negb].
  change (SLASH :: join_with_sep segs ++ SLASH :: seg)
    with ((SLASH :: join_with_sep segs) ++ SLASH :: seg).
  rewrite Hbody.
  assert (endsWith1 ((SLASH :: join_with_sep segs) ++ SLASH :: seg) SLASH = false)
    as ->.
  { unfold endsWith1. rewrite last_app, last_cons.
    destruct (last seg) as [c|] eqn:Hlast; [|by apply last_None in Hlast].
    apply N.eqb_neq. intros ->. apply Hslash.
    apply last_Some in Hlast as [l' ->]. apply elem_of_app. right.
    by apply list_elem_of_singleton. }
  rewrite join_with_sep_snoc.
  destruct segs as [|x segs]; [by destruct seg|].
  by destruct (join_with_sep (x :: segs) ++ SLASH :: seg) eqn:E; [destruct (join_with_sep (x :: segs))|].
Qed.

(** [join] of a resolved path and a clean segment. *)
Lemma join_clean segs seg :
  Forall clean segs → clean seg →
  join [SLASH :: join_with_sep segs; seg] = SLASH :: join_with_sep (segs ++ [seg]).
Proof.
  intros Hsegs Hseg. unfold join. cbn [List.filter].
  destruct Hseg as (Hne & Hrest). rewrite !bool_decide_eq_false_2 by done.
  cbn [negb foldl]. by apply normalize_clean_snoc.
Qed.

End PathNameFacts.

(** ** Pasted images *)

Module PastedImageFacts.
Import Path PathNames PathFacts PathNameFacts PastedImages.

Lemma extname_loop_plain path : SLASH ∉ path → ∀ i st,
  (i ≤ length path)%nat →
  (scan_end st = None → i = length path) →
  plain_scan path st →
  plain_scan path (extname_loop path i st).
Proof.
  intros Hplain. induction i as [|j IH]; intros st Hi Hstart Hst; [done|].
  cbn [extname_loop].
  destruct (lookup_lt_is_Some_2 path j) as [c Hc]; [lia|].
  unfold charCodeAt.
  repeat match goal with |- context [default 0 ?t] =>
    replace t with (Some c) by (symmetry; exact Hc) end.
  cbn [default from_option id].
  assert (c ≠ SLASH) as Hslash.
  { intros ->. apply Hplain. by apply list_elem_of_lookup_2 in Hc. }
  rewrite (proj2 (N.eqb_neq c SLASH)) by done.
  destruct Hst as (Hpart & Hend & Hdot).
  destruct (scan_end st) as [e|] eqn:He.
  - destruct Hend as [|[= ->]]; [done|].
    destruct (c =? DOT_UNIT) eqn:Hd; destruct (startDot st) as [d|] eqn:Hsd;
      (apply IH; [lia|cbn; rewrite ?He; discriminate|]);
      (split; [done|]); (split; [cbn; rewrite ?He; by right|]);
      cbn; rewrite ?He, ?Hsd; try done.
    intros dot [= <-]. by apply N.eqb_eq in Hd as ->.
  - assert (S j = length path) as Hj by auto.
    destruct (startDot st) as [d|] eqn:Hsd; [by destruct (Hdot d eq_refl) as [_ ?]|].
    destruct (c =? DOT_UNIT) eqn:Hd; cbn [startDot scan_end]; rewrite ?Hsd;
      (apply IH; [lia|cbn; discriminate|]);
      (split; [done|]); (split; [cbn; rewrite ?Hj; by right|]);
      cbn; rewrite ?Hj, ?Hsd; try done.
    intros dot [= <-]. by apply N.eqb_eq in Hd as ->.
Qed.

(** On a name without separators [extname] answers nothing or what
    follows, and includes, one of its dots. *)
Lemma extname_plain path :
  SLASH ∉ path →
  extname path = [] ∨ ∃ stem ext, path = stem ++ DOT_UNIT :: ext
                                  ∧ extname path = DOT_UNIT :: ext.
Proof.
  intros Hplain. unfold extname.
  match goal with |- context [extname_loop path ?i ?st] =>
    pose proof (extname_loop_plain path Hplain i st) as Hscan;
    destruct (extname_loop path i st) as [sd sp se ms pre] end.
  destruct Hscan as (_ & _ & Hdot); [done|done| |].
  { split; [done|]. split; [by left|]. done. }
  cbn [startDot scan_end preDotState startPart] in *.
  destruct sd as [dot|]; [|by left]. destruct se as [e|]; [|by left].
  destruct (_ || _); [by left|]. right.
  destruct (Hdot dot eq_refl) as [Hlookup [= ->]].
  exists (take dot path), (drop (S dot) path).
  unfold slice. rewrite firstn_all.
  pose proof (take_drop_middle path dot DOT_UNIT Hlookup) as Hsplit.
  split; [done|]. rewrite <- Hsplit at 1. rewrite drop_app_length'; [done|].
  rewrite length_take. apply lookup_lt_Some in Hlookup. lia.
Qed.

Lemma name_unit_ascii c : is_name_unit c = true → is_ascii c = true.
Proof.
  unfold is_name_unit, is_alphanumeric, is_digit, is_ascii.
  rewrite !orb_true_iff, !andb_true_iff, !N.leb_le, !N.eqb_eq, N.ltb_lt. lia.
Qed.

Lemma name_unit_not_slash s : forallb is_name_unit s = true → SLASH ∉ s.
Proof.
  intros Hs Hin. apply list_elem_of_In in Hin.
  by apply (proj1 (forallb_forall _ _) Hs) in Hin.
Qed.

Lemma name_units_ascii s : forallb is_name_unit s = true → forallb is_ascii s = true.
Proof.
  rewrite !forallb_forall. intros Hs c Hc. by apply name_unit_ascii, Hs.
Qed.

Lemma sanitize_names baseName : forallb is_name_unit (sanitize baseName) = true.
Proof.
  induction baseName as [|c s IH]; [done|]. unfold sanitize. rewrite fmap_cons.
  cbn [forallb]. apply andb_true_iff. split; [|exact IH].
  by destruct (is_name_unit c) eqn:Hc.
Qed.

Lemma known_exts_shape :
  Forall (λ ext, forallb is_alphanumeric ext = true ∧ ext ≠ []
                 ∧ ascii_lower <$> ext = ext) known_exts.
Proof. repeat constructor; by vm_compute. Qed.

Lemma preferred_ext_known mime : preferred_ext mime ∈ known_exts.
Proof.
  unfold preferred_ext, lookup_ext, mimeToExt. cbn [find fst snd].
  repeat (case_bool_decide;
          [apply (bool_decide_unpack _); by vm_compute|]).
  apply (bool_decide_unpack _); by vm_compute.
Qed.

Lemma alphanumeric_name_unit c : is_alphanumeric c = true → is_name_unit c = true.
Proof. unfold is_name_unit. by intros ->. Qed.

Section FinalName.

Variable toLowerCase : jsstring → jsstring.
Hypothesis toLowerCase_ascii :
  ∀ s, forallb is_ascii s = true → toLowerCase s = ascii_lower <$> s.

(** The final name keeps to the alphabet of file names and carries the
    preferred extension. *)
Lemma final_name_shape sanitizedBase ext :
  forallb is_name_unit sanitizedBase = true →
  ext ∈ known_exts →
  forallb is_name_unit (final_name toLowerCase sanitizedBase ext) = true
  ∧ ∃ stem, ascii_lower <$> final_name toLowerCase sanitizedBase ext
            = stem ++ js "." ++ ext.
Proof.
  intros Hbase Hext.
  pose proof (proj1 (Forall_forall _ _) known_exts_shape ext Hext)
    as (Halnum & Hne & Hlow).
  assert (forallb is_name_unit ext = true) as Hext_names.
  { rewrite forallb_forall in *. intros c Hc. by apply alphanumeric_name_unit, Halnum. }
  change (js ".") with [DOT_UNIT].
  assert (∀ stem, forallb is_name_unit stem = true →
            forallb is_name_unit (stem ++ [DOT_UNIT] ++ ext) = true) as Hnames.
  { intros stem Hstem. rewrite !forallb_app, Hstem, Hext_names. reflexivity. }
  unfold final_name.
  destruct (extname_plain sanitizedBase (name_unit_not_slash _ Hbase))
    as [-> | (stem & e & Hsplit & ->)].
  - rewrite (toLowerCase_ascii []) by done. cbn [fmap list_fmap truthy negb].
    split; [by apply Hnames|]. exists (ascii_lower <$> sanitizedBase).
    change (js ".") with [DOT_UNIT]. by rewrite !fmap_app, Hlow.
  - rewrite Hsplit in Hbase. rewrite forallb_app in Hbase.
    apply andb_true_iff in Hbase as [Hstem Hdot_e].
    rewrite toLowerCase_ascii by by apply name_units_ascii.
    rewrite fmap_cons. cbn [truthy negb].
    destruct ext as [|x ext]; [done|]. cbn [truthy andb].
    change (js ".") with [DOT_UNIT].
    change (ascii_lower DOT_UNIT) with DOT_UNIT.
    case_bool_decide as Hdiffer.
    + assert (take (length sanitizedBase - length (DOT_UNIT :: (ascii_lower <$> e)))
                sanitizedBase = stem) as ->.
      { rewrite Hsplit, length_app. cbn [length]. rewrite length_fmap.
        replace (length stem + S (length e) - S (length e))%nat
          with (length stem) by lia.
        by rewrite take_app_length. }
      split; [by apply Hnames|]. exists (ascii_lower <$> stem).
      by rewrite !fmap_app, Hlow.
    + split; [by rewrite Hsplit, forallb_app, Hstem|].
      exists (ascii_lower <$> stem). rewrite Hsplit, fmap_app, fmap_cons.
      change (ascii_lower DOT_UNIT) with DOT_UNIT.
      by injection Hdiffer as ->.
Qed.

Lemma final_name_clean sanitizedBase ext :
  forallb is_name_unit sanitizedBase = true →
  ext ∈ known_exts →
  clean (final_name toLowerCase sanitizedBase ext).
Proof.
  intros Hbase Hext.
  destruct (final_name_shape sanitizedBase ext Hbase Hext) as [Hnames [stem Hstem]].
  pose proof (proj1 (Forall_forall _ _) known_exts_shape ext Hext)
    as (Halnum & Hne & _).
  change (js ".") with [DOT_UNIT] in Hstem.
  destruct ext as [|x ext]; [done|]. cbn [forallb] in Halnum.
  apply andb_true_iff in Halnum as [Hx Hrest].
  assert (is_alphanumeric DOT_UNIT = false) as Hdot by reflexivity.
  repeat split.
  - intros Hnil. rewrite Hnil in Hstem. by destruct stem.
  - intros Heq. rewrite Heq in Hstem. by destruct stem as [|a [|b stem]].
  - intros Heq. rewrite Heq in Hstem.
    change (ascii_lower <$> DOTDOT) with [DOT_UNIT; DOT_UNIT] in Hstem.
    destruct stem as [|a [|b [|d stem]]]; try done.
    injection Hstem as <- _. by rewrite Hdot in Hx.
  - by apply name_unit_not_slash.
Qed.

End FinalName.

Lemma attachments_name_clean : clean (js ".localdesk-attachments").
Proof.
  repeat split; try (by vm_compute).
  apply (bool_decide_unpack _). by vm_compute.
Qed.

Lemma resolve_absolute process_cwd args :
  negb (truthy (Some (resolve process_cwd args)))
  || bool_decide (resolve process_cwd args = DOT) = false.
Proof.
  destruct (resolve_clean process_cwd args) as (segs & _ & ->).
  by rewrite bool_decide_eq_false_2.
Qed.

Lemma save_pasted_image_paths process_cwd cwd finalName :
  clean finalName →
  let root := resolve process_cwd [cwd] in
  let attachmentsDir := join [root; js ".localdesk-attachments"] in
  root ≠ [] ∧ root ≠ DOT
  ∧ attachmentsDir = attachments_dir root
  ∧ join [attachmentsDir; finalName] = attachmentsDir ++ SLASH :: finalName.
Proof.
  intros Hfinal root attachmentsDir. subst attachmentsDir root.
  destruct (resolve_clean process_cwd [cwd]) as (segs & Hsegs & ->).
  split; [done|]. split; [done|].
  rewrite join_clean by (done || apply attachments_name_clean).
  rewrite join_clean; [|apply Forall_app; split; [done|]|done].
  2: { constructor; [apply attachments_name_clean|done]. }
  rewrite !join_with_sep_snoc. unfold attachments_dir.
  destruct segs as [|seg segs].
  - cbn [app]. split; [reflexivity|]. done.
  - rewrite bool_decide_eq_false_2.
    + split; [reflexivity|]. done.
    + apply Forall_cons in Hsegs as [(Hne & _) _].
      destruct seg; [done|]. by destruct segs.
Qed.

(** X14: whatever the payload, the handler of "save-pasted-image" never
    reports an invalid workspace folder, and when it saves an image the
    file name holds only letters, digits, ".", "_" and "-" and ends, up to
    the case of letters, with "." and the extension of the MIME type; the
    folder made is .localdesk-attachments directly in the resolved
    workspace folder, the file is written directly in that folder under
    that name, and it holds at most 15 MiB. *)
Theorem save_pasted_image_confined
    (process_cwd : jsstring) (toLowerCase : jsstring → jsstring)
    (decode_base64 : jsstring → list N)
    (dataUrl cwd fileName : option jsstring) (now uuid : jsstring) :
  (∀ s, forallb is_ascii s = true → toLowerCase s = ascii_lower <$> s) →
  let outcome := save_pasted_image process_cwd toLowerCase decode_base64
                   dataUrl cwd fileName now uuid in
  outcome ≠ save_error (js "Invalid workspace folder")
  ∧ ∀ w, outcome = save_ok w →
      forallb is_name_unit (saved_name w) = true
      ∧ (∃ stem, ascii_lower <$> saved_name w
                 = stem ++ js "." ++ preferred_ext (saved_mime w))
      ∧ made_dir w = attachments_dir (resolve process_cwd [default [] cwd])
      ∧ written_path w = made_dir w ++ SLASH :: saved_name w
      ∧ N.of_nat (length (written_data w)) ≤ maxBytes.
Proof.
  intros Hlower outcome. subst outcome. unfold save_pasted_image.
  assert (∀ message,
            message ≠ js "Invalid workspace folder" →
            save_error message ≠ save_error (js "Invalid workspace folder")
            ∧ ∀ w, save_error message = save_ok w →
                forallb is_name_unit (saved_name w) = true
                ∧ (∃ stem, ascii_lower <$> saved_name w
                           = stem ++ js "." ++ preferred_ext (saved_mime w))
                ∧ made_dir w = attachments_dir (resolve process_cwd [default [] cwd])
                ∧ written_path w = made_dir w ++ SLASH :: saved_name w
                ∧ N.of_nat (length (written_data w)) ≤ maxBytes) as Herror.
  { intros message Hmessage. split; [congruence|done]. }
  destruct (negb (truthy dataUrl) || negb (truthy cwd)).
  { apply Herror. by vm_compute. }
  rewrite resolve_absolute.
  set (root := resolve process_cwd [default [] cwd]).
  set (sanitizedBase := sanitize _).
  destruct (match_data_url _) as [[group1 base64]|].
  2: { apply Herror. by vm_compute. }
  case_bool_decide as Hsize.
  { apply Herror. by vm_compute. }
  set (ext := preferred_ext (toLowerCase group1)).
  pose proof (preferred_ext_known (toLowerCase group1)) as Hext. fold ext in Hext.
  pose proof (sanitize_names
    (if truthy fileName then basename (default [] fileName)
     else js "pasted-" ++ now ++ js "-" ++ take 8 uuid)) as Hbase.
  fold sanitizedBase in Hbase.
  destruct (final_name_shape toLowerCase Hlower sanitizedBase ext Hbase Hext)
    as [Hnames Hstem].
  pose proof (final_name_clean toLowerCase Hlower sanitizedBase ext Hbase Hext)
    as Hclean.
  destruct (save_pasted_image_paths process_cwd (default [] cwd) _ Hclean)
    as (_ & _ & Hdir & Hpath).
  fold root in Hdir, Hpath.
  split; [done|]. intros w [= <-]. cbn.
  split; [done|]. split; [done|]. split; [done|]. split; [done|].
  by apply N.nlt_ge.
Qed.

Lemma save_pasted_image_confined_shot :
  save_pasted_image (js "/opt/app") Scheduler.ascii_toLowerCase (λ _, [137; 80])
    (Some (js "data:image/JPEG;base64,iVA=")) (Some (js "/home/user/ws"))
    (Some (js "../../etc/shot 1.PNG")) (js "17") (js "abcdef0123")
  ≠ save_error (js "Invalid workspace folder")
  ∧ ∀ w,
      save_pasted_image (js "/opt/app") Scheduler.ascii_toLowerCase (λ _, [137; 80])
        (Some (js "data:image/JPEG;base64,iVA=")) (Some (js "/home/user/ws"))
        (Some (js "../../etc/shot 1.PNG")) (js "17") (js "abcdef0123")
      = save_ok w →
      forallb is_name_unit (saved_name w) = true
      ∧ (∃ stem, ascii_lower <$> saved_name w
                 = stem ++ js "." ++ preferred_ext (saved_mime w))
      ∧ made_dir w = attachments_dir (resolve (js "/opt/app") [js "/home/user/ws"])
      ∧ written_path w = made_dir w ++ SLASH :: saved_name w
      ∧ N.of_nat (length (written_data w)) ≤ maxBytes.
Proof.
  exact (save_pasted_image_confined (js "/opt/app") Scheduler.ascii_toLowerCase
           (λ _, [137; 80]) (Some (js "data:image/JPEG;base64,iVA="))
           (Some (js "/home/user/ws")) (Some (js "../../etc/shot 1.PNG"))
           (js "17") (js "abcdef0123") (λ _ _, eq_refl)).
Defined.

End PastedImageFacts.

(** ** Image previews *)

Module ImagePreviewFacts.
Import Path PathNames Workspace WorkspaceFacts PathFacts PathNameFacts.

Lemma endsWith1_clean l seg : clean seg → endsWith1 (l ++ seg) SLASH = false.
Proof.
  intros (Hne & _ & _ & Hslash). unfold endsWith1. rewrite last_app.
  destruct (last seg) as [c|] eqn:E; [|by apply last_None in E].
  apply N.eqb_neq. intros ->. apply Hslash.
  apply last_Some in E as [l' ->]. apply elem_of_app. right.
  by apply list_elem_of_singleton.
Qed.

Lemma join_with_sep_last segs seg :
  clean seg → endsWith1 (SLASH :: join_with_sep (segs ++ [seg])) SLASH = false.
Proof.
  intros Hseg. rewrite join_with_sep_snoc. destruct segs as [|x segs].
  - by apply (endsWith1_clean [SLASH]).
  - rewrite (app_comm_cons _ _ SLASH).
    change (SLASH :: seg) with ([SLASH] ++ seg). rewrite app_assoc.
    by apply endsWith1_clean.
Qed.

(** A separator followed by clean segments is in normal form. *)
Lemma normalize_clean segs :
  Forall clean segs → normalize (SLASH :: join_with_sep segs) = SLASH :: join_with_sep segs.
Proof.
  intros Hsegs. destruct segs as [|seg segs _] using rev_ind; [reflexivity|].
  apply Forall_app in Hsegs as [Hsegs Hseg%Forall_inv].
  assert (Forall (λ s, SLASH ∉ s) (segs ++ [seg])) as Hplain.
  { apply Forall_app. split; [|constructor; [|done]].
    - eapply Forall_impl; [done|]. by intros s (_ & _ & _ & ?).
    - by destruct Hseg as (_ & _ & _ & ?). }
  destruct (clean_proper (segs ++ [seg])) as [Hfilter Hno].
  { apply Forall_app. split; [done|by constructor]. }
  unfold normalize. cbn [isAbsolute]. rewrite N.eqb_refl. cbn [negb].
  rewrite join_with_sep_last by done.
  assert (normalizeString (SLASH :: join_with_sep (segs ++ [seg])) false
          = join_with_sep (segs ++ [seg])) as ->.
  { unfold normalizeString.
    change (SLASH :: join_with_sep (segs ++ [seg]))
      with ([] ++ SLASH :: join_with_sep (segs ++ [seg])).
    rewrite segments_app, segments_join by (done || by destruct segs).
    change (segments []) with [@nil code_unit]. cbn [app]. rewrite foldl_skip.
    rewrite normalize_descend, app_nil_r, rev_involutive by done.
    exact (f_equal join_with_sep Hfilter). }
  rewrite join_with_sep_snoc.
  destruct Hseg as (Hne & _).
  destruct segs as [|x segs]; [by destruct seg|].
  by destruct (join_with_sep (x :: segs) ++ SLASH :: seg) eqn:E;
    [destruct (join_with_sep (x :: segs))|].
Qed.

(** [resolve] leaves a resolved path alone. *)
Lemma resolve_clean_fixed process_cwd segs :
  Forall clean segs →
  resolve process_cwd [SLASH :: join_with_sep segs] = SLASH :: join_with_sep segs.
Proof.
  intros Hsegs. unfold resolve. cbn [rev app resolve_scan isAbsolute].
  rewrite N.eqb_refl. f_equal. unfold normalizeString.
  change (SLASH :: join_with_sep segs ++ [SLASH])
    with ([] ++ SLASH :: (join_with_sep segs ++ SLASH :: [])).
  rewrite !segments_app. change (segments []) with [@nil code_unit].
  cbn [app]. rewrite foldl_skip, foldl_app. cbn [foldl].
  change (normalize_step false ?k []) with k.
  destruct segs as [|x segs]; [reflexivity|].
  assert (Forall (λ s, SLASH ∉ s) (x :: segs)) as Hplain.
  { eapply Forall_impl; [done|]. by intros s (_ & _ & _ & ?). }
  destruct (clean_proper (x :: segs) Hsegs) as [Hfilter Hno].
  rewrite segments_join, normalize_descend, app_nil_r, rev_involutive by done.
  exact (f_equal join_with_sep Hfilter).
Qed.

Lemma normalize_resolve process_cwd args :
  normalize (resolve process_cwd args) = resolve process_cwd args.
Proof.
  destruct (resolve_clean process_cwd args) as (segs & Hsegs & ->).
  by apply normalize_clean.
Qed.

(** X20: on a POSIX host the handler of "get-image-preview" lets through
    every relative path without a ".." segment, for every workspace
    folder: the path checked is the path resolved against the resolved
    folder, and it is the folder or lies below it. *)
Theorem get_image_preview_allows
    (process_cwd : jsstring) (toLowerCase : jsstring → jsstring)
    (cwd path : jsstring) :
  cwd ≠ [] → path ≠ [] → isAbsolute path = false → DOTDOT ∉ segments path →
  let root := resolve process_cwd [cwd] in
  get_image_preview process_cwd toLowerCase false (Some cwd) (Some path)
  = Allowed (resolve process_cwd [root; path])
  ∧ within root (resolve process_cwd [root; path]).
Proof.
  intros Hcwd Hpath Hrel Hno root.
  destruct (resolve_clean process_cwd [cwd]) as (segs & Hsegs & Hroot).
  assert (within root (resolve process_cwd [root; path])) as Hin.
  { pose proof (resolve_within process_cwd root path Hrel Hno) as Hin.
    subst root. rewrite Hroot in Hin |- *. by rewrite resolve_clean_fixed in Hin. }
  split; [|done]. unfold get_image_preview.
  assert (truthy (Some cwd) = true) as -> by (by destruct cwd).
  assert (truthy (Some path) = true) as -> by (by destruct path).
  cbn [negb orb default from_option id]. subst root.
  rewrite !normalize_resolve.
  destruct Hin as [Heq | [rest Hrest]].
  - by rewrite bool_decide_eq_true_2.
  - unfold with_sep in Hrest.
    rewrite (proj2 (startsWith_prefix _ _)) by eauto. by rewrite orb_true_r.
Qed.

Lemma get_image_preview_allows_logo :
  get_image_preview (js "/opt/app") Scheduler.ascii_toLowerCase false
    (Some (js "/home/user/ws")) (Some (js "assets/./logo.png"))
  = Allowed (js "/home/user/ws/assets/logo.png").
Proof.
  refine (proj1 (get_image_preview_allows (js "/opt/app") Scheduler.ascii_toLowerCase
                   (js "/home/user/ws") (js "assets/./logo.png") _ _ eq_refl _));
    [by vm_compute|by vm_compute|].
  apply (bool_decide_unpack _). by vm_compute.
Defined.

End ImagePreviewFacts.

(** ** The answer of "list-directory" *)

Module DirectoryListingFacts.
Import Path PathNames Workspace WorkspaceFacts DirectoryListing.
Local Open Scope Z_scope.

(** The handler lets a path through exactly when its comparison form
    starts with that of the workspace of some stored session. *)
Lemma list_directory_found process_cwd toLowerCase normalizeNFC allSessions dirPath :
  let form := comparable process_cwd toLowerCase normalizeNFC in
  list_directory process_cwd toLowerCase normalizeNFC allSessions dirPath
  = if existsb (λ s, truthy (cwd s)
                     && startsWith (form dirPath) (form (default [] (cwd s))))
         allSessions
    then Allowed dirPath
    else Refused (js "No active session cwd found").
Proof.
  intros form. unfold list_directory. fold form.
  destruct (find _ allSessions) as [s|] eqn:Hfind.
  - apply find_some in Hfind as [Hin Hs].
    destruct (truthy (cwd s)) eqn:Hcwd; [|done]. cbn [negb] in Hs.
    rewrite (proj2 (existsb_exists _ _)).
    2: { exists s. by rewrite Hcwd, Hs. }
    cbn [mbind option_bind]. destruct (cwd s) as [root|] eqn:Hroot; [|done].
    cbn [mbind option_bind]. rewrite Hcwd. cbn [negb default from_option id] in *.
    by rewrite Hs.
  - destruct (existsb _ _) eqn:Hsome; [|done].
    apply existsb_exists in Hsome as (s & Hin & Hs).
    apply (find_none _ _ Hfind) in Hin.
    destruct (truthy (cwd s)); cbn [negb andb] in *; congruence.
Qed.

(** X12: the access check of "list-directory" has two outcomes only: it
    lets the path through as given, or it refuses with "No active session
    cwd found"; the refusal "Access denied" is never reached. The path is
    let through exactly when its comparison form starts with the
    comparison form of the non-empty workspace of some stored session;
    with no stored session every path is refused. *)
Theorem list_directory_outcomes
    (process_cwd : jsstring) (toLowerCase normalizeNFC : jsstring → jsstring)
    (allSessions : list Session) (dirPath : jsstring) :
  let form := comparable process_cwd toLowerCase normalizeNFC in
  let outcome := list_directory process_cwd toLowerCase normalizeNFC allSessions dirPath in
  (outcome = Allowed dirPath ∨ outcome = Refused (js "No active session cwd found"))
  ∧ (outcome = Allowed dirPath
     ↔ ∃ s root rest, s ∈ allSessions ∧ cwd s = Some root ∧ root ≠ []
                      ∧ form dirPath = form root ++ rest)
  ∧ list_directory process_cwd toLowerCase normalizeNFC [] dirPath
    = Refused (js "No active session cwd found").
Proof.
  intros form outcome. subst outcome. rewrite list_directory_found. fold form.
  destruct (existsb _ _) eqn:Hsome.
  - split; [by left|]. split; [|reflexivity]. split; [intros _|done].
    apply existsb_exists in Hsome as (s & Hin%list_elem_of_In & Hs).
    apply andb_true_iff in Hs as [Hcwd Hs].
    apply RoutingFacts.truthy_spec in Hcwd as (root & Hroot & Hne).
    rewrite Hroot in Hs. apply startsWith_prefix in Hs as [rest Hrest].
    by exists s, root, rest.
  - split; [by right|]. split; [|reflexivity]. split; [done|].
    intros (s & root & rest & Hin & Hroot & Hne & Hrest).
    assert (existsb (λ s, truthy (cwd s)
                          && startsWith (form dirPath) (form (default [] (cwd s))))
              allSessions = true) as Hyes; [|congruence].
    apply existsb_exists. exists s. split; [by apply list_elem_of_In|].
    rewrite Hroot. apply andb_true_iff. split; [by destruct root|].
    apply startsWith_prefix. by exists rest.
Qed.

Section Facts.

Variable localeCompare : jsstring → jsstring → Z.
Hypothesis localeCompare_consistent : consistent localeCompare.

Lemma compare_items_consistent : consistent (compare_items localeCompare).
Proof.
  destruct localeCompare_consistent as [Hflip Htrans]. split.
  - intros a b. unfold compare_items.
    destruct (isDirectory a), (isDirectory b); cbn [andb negb]; try lia; apply Hflip.
  - intros a b c. unfold compare_items.
    destruct (isDirectory a), (isDirectory b), (isDirectory c); cbn [andb negb];
      try lia; apply Htrans.
Qed.

Lemma in_order_trans : Transitive (in_order localeCompare).
Proof. intros a b c. apply compare_items_consistent. Qed.

Lemma insert_item_Permutation x sorted :
  insert_item localeCompare x sorted ≡ₚ x :: sorted.
Proof.
  induction sorted as [|y rest IH]; [done|]. cbn [insert_item].
  case_bool_decide; [done|]. rewrite IH. apply Permutation_swap.
Qed.

Lemma insert_item_sorted x sorted :
  StronglySorted (in_order localeCompare) sorted →
  StronglySorted (in_order localeCompare) (insert_item localeCompare x sorted).
Proof.
  pose proof in_order_trans as Htrans.
  induction 1 as [|y rest Hsorted IH Hall]; cbn [insert_item].
  - by repeat constructor.
  - case_bool_decide as Hle.
    + constructor; [by constructor|]. constructor; [done|].
      eapply Forall_impl; [done|]. intros z Hz. by etrans.
    + constructor; [done|].
      rewrite insert_item_Permutation. constructor; [|done].
      unfold in_order.
      assert (0 < compare_items localeCompare x y) as Hgt by lia.
      apply compare_items_consistent in Hgt. lia.
Qed.

Lemma sort_items_sorted files :
  StronglySorted (in_order localeCompare) (sort_items localeCompare files).
Proof.
  induction files as [|x files IH]; [constructor|]. by apply insert_item_sorted.
Qed.

Lemma sort_items_Permutation files : sort_items localeCompare files ≡ₚ files.
Proof.
  induction files as [|x files IH]; [done|].
  cbn [sort_items foldr]. rewrite insert_item_Permutation.
  by constructor.
Qed.

End Facts.

(** In an array in the order of the comparator the directories come
    first. *)
Lemma sorted_directories_first localeCompare items :
  StronglySorted (in_order localeCompare) items →
  items = filter (λ i, isDirectory i = true) items
          ++ filter (λ i, isDirectory i = false) items.
Proof.
  induction 1 as [|x rest Hsorted IH Hall]; [done|].
  rewrite !filter_cons. destruct (isDirectory x) eqn:Hx.
  - rewrite decide_True by done. rewrite decide_False by done.
    cbn [app]. by rewrite <- IH.
  - rewrite decide_False by done. rewrite decide_True by done.
    assert (Forall (λ i, isDirectory i = false) rest) as Hfiles.
    { eapply Forall_impl; [done|]. intros z. unfold in_order, compare_items.
      rewrite Hx. cbn [andb negb]. destruct (isDirectory z); [lia|done]. }
    assert (filter (λ i, isDirectory i = true) rest = []
            ∧ filter (λ i, isDirectory i = false) rest = rest) as [-> ->]; [|done].
    clear -Hfiles. induction Hfiles as [|z rest Hz _ [IH1 IH2]]; [done|].
    rewrite !filter_cons, decide_False, decide_True by congruence.
    by rewrite IH1, IH2.
Qed.

(** X13: when [localeCompare] is a consistent comparator, so is the
    comparator of "list-directory", and the answer of the handler is in
    its order: every directory comes before every file. The answer is
    empty, or it holds exactly the entries read from the directory, each
    once. *)
Theorem list_directory_answer_sorted
    (localeCompare : jsstring → jsstring → Z) (stat_size : jsstring → option Z)
    (process_cwd : jsstring) (toLowerCase normalizeNFC : jsstring → jsstring)
    (readdir : jsstring → option (list Dirent))
    (allSessions : list Session) (dirPath : jsstring) :
  consistent localeCompare →
  let answer := list_directory_answer localeCompare stat_size process_cwd
                  toLowerCase normalizeNFC readdir allSessions dirPath in
  consistent (compare_items localeCompare)
  ∧ StronglySorted (in_order localeCompare) answer
  ∧ answer = filter (λ i, isDirectory i = true) answer
             ++ filter (λ i, isDirectory i = false) answer
  ∧ (answer = []
     ∨ ∃ entries, readdir dirPath = Some entries
                  ∧ answer ≡ₚ to_item stat_size dirPath <$> entries).
Proof.
  intros Hconsistent answer.
  assert (StronglySorted (in_order localeCompare) answer) as Hsorted.
  { subst answer. unfold list_directory_answer.
    destruct (list_directory _ _ _ _ _); [constructor|].
    destruct (readdir _); [|constructor]. by apply sort_items_sorted. }
  split; [by apply compare_items_consistent|]. split; [done|].
  split; [by apply sorted_directories_first with localeCompare|].
  subst answer. unfold list_directory_answer. rewrite list_directory_found.
  destruct (existsb _ _); [|by left].
  destruct (readdir dirPath) as [entries|]; [|by left].
  right. exists entries. split; [done|]. by apply sort_items_Permutation.
Qed.

Lemma list_directory_answer_sorted_by_length :
  StronglySorted (in_order (λ a b, Z.of_nat (length a) - Z.of_nat (length b)))
    (list_directory_answer (λ a b, Z.of_nat (length a) - Z.of_nat (length b))
       (λ _, Some 10) (js "/opt/app") Scheduler.ascii_toLowerCase id
       (λ _, Some [ {| entry_name := js "notes.txt"; entry_isDirectory := false |};
                    {| entry_name := js "src"; entry_isDirectory := true |} ])
       [ws_session] (js "/home/user/ws")).
Proof.
  refine (proj1 (proj2 (list_directory_answer_sorted
                          (λ a b, Z.of_nat (length a) - Z.of_nat (length b))
                          (λ _, Some 10) (js "/opt/app") Scheduler.ascii_toLowerCase id
                          (λ _, Some [ {| entry_name := js "notes.txt";
                                          entry_isDirectory := false |};
                                       {| entry_name := js "src";
                                          entry_isDirectory := true |} ])
                          [ws_session] (js "/home/user/ws") _))).
  split; intros; lia.
Defined.

End DirectoryListingFacts.

(** ** Limits of requests *)

Module RequestLimitFacts.
Import Numbers RequestLimits.

Lemma lt_Finite x y : lt (Finite x) (Finite y) = true ↔ (x < y)%Q.
Proof.
  cbn [lt]. rewrite negb_true_iff. split.
  - intros Hle. apply Qnot_le_lt. intros H%Qle_bool_iff. congruence.
  - intros Hlt. destruct (Qle_bool y x) eqn:Hle; [|done].
    apply Qle_bool_iff in Hle. by apply Qlt_not_le in Hlt.
Qed.

Lemma lt_Finite_false x y : lt (Finite x) (Finite y) = false ↔ (y <= x)%Q.
Proof.
  cbn [lt]. rewrite negb_false_iff. apply Qle_bool_iff.
Qed.

(** X15: the number of recent folders asked of the session store is
    always between 1 and 20: 8 when no limit, zero or not-a-number is
    given, and the limit itself when it is a whole number from 1 to 20.
    The side of an image preview is at most 512 pixels: 320 unless a
    positive size is given, and never below 1 unless the size given is a
    fraction between 0 and 1, which is used as it is. *)
Theorem request_limits_bounded :
  (∀ limit, between 1 20 (boundedLimit limit))
  ∧ (∀ limit, truthy_number limit = false → boundedLimit limit = of_Z 8)
  ∧ (∀ k, (1 ≤ k ≤ 20)%Z → boundedLimit (Some (of_Z k)) = of_Z k)
  ∧ (∀ maxSize, between 1 512 (maxPixels maxSize)
                ∨ ∃ q, maxSize = Some (Finite q) ∧ maxPixels maxSize = Finite q
                       ∧ (0 < q)%Q ∧ (q < 1)%Q)
  ∧ (∀ k, (1 ≤ k ≤ 512)%Z → maxPixels (Some (of_Z k)) = of_Z k).
Proof.
  split; [|split; [|split; [|split]]].
  - intros limit. unfold boundedLimit.
    destruct limit as [[|negative|q]|]; cbn [truthy_number];
      try (exists (inject_Z 8); split; [done|]; split; by apply Qle_bool_iff).
    + destruct negative; cbn.
      * exists (inject_Z 1). split; [done|]. split; by apply Qle_bool_iff.
      * exists (inject_Z 20). split; [done|]. split; by apply Qle_bool_iff.
    + destruct (Qeq_bool q 0); cbn [negb];
        [exists (inject_Z 8); split; [done|]; split; by apply Qle_bool_iff|].
      cbn [default from_option id]. unfold max, of_Z.
      destruct (lt (Finite q) (Finite (inject_Z 1))) eqn:Hlow.
      * exists (inject_Z 1). split; [reflexivity|]. split; by apply Qle_bool_iff.
      * apply lt_Finite_false in Hlow. unfold min.
        destruct (lt (Finite (inject_Z 20)) (Finite q)) eqn:Hhigh.
        -- exists (inject_Z 20). split; [done|]. split; by apply Qle_bool_iff.
        -- apply lt_Finite_false in Hhigh. by exists q.
  - intros limit Hfalsy. unfold boundedLimit. by rewrite Hfalsy.
  - intros k Hk. unfold boundedLimit, of_Z. cbn [truthy_number default from_option id].
    assert (Qeq_bool (inject_Z k) 0 = false) as ->.
    { apply not_true_iff_false. intros H%Qeq_bool_iff.
      unfold Qeq in H. cbn in H. lia. }
    cbn [negb]. unfold max.
    assert (lt (Finite (inject_Z k)) (Finite (inject_Z 1)) = false) as ->.
    { apply lt_Finite_false. rewrite <- Zle_Qle. lia. }
    unfold min.
    assert (lt (Finite (inject_Z 20)) (Finite (inject_Z k)) = false) as ->.
    { apply lt_Finite_false. rewrite <- Zle_Qle. lia. }
    done.
  - intros maxSize. unfold maxPixels.
    destruct maxSize as [[|negative|q]|];
      try (left; exists (inject_Z 320); split; [done|]; split; by apply Qle_bool_iff).
    + destruct negative; cbn;
        [left; exists (inject_Z 320)|left; exists (inject_Z 512)];
        (split; [done|]; split; by apply Qle_bool_iff).
    + unfold of_Z. destruct (lt (Finite (inject_Z 0)) (Finite q)) eqn:Hpos.
      * apply lt_Finite in Hpos. unfold min.
        destruct (lt (Finite (inject_Z 512)) (Finite q)) eqn:Hhigh.
        -- left. exists (inject_Z 512). split; [done|]. split; by apply Qle_bool_iff.
        -- apply lt_Finite_false in Hhigh.
           destruct (Qlt_le_dec q (inject_Z 1)) as [Hsmall|Hone].
           ++ right. by exists q.
           ++ left. by exists q.
      * left. exists (inject_Z 320). split; [done|]. split; by apply Qle_bool_iff.
  - intros k Hk. unfold maxPixels, of_Z.
    assert (lt (Finite (inject_Z 0)) (Finite (inject_Z k)) = true) as ->.
    { apply lt_Finite. rewrite <- Zlt_Qlt. lia. }
    unfold min.
    assert (lt (Finite (inject_Z 512)) (Finite (inject_Z k)) = false) as ->.
    { apply lt_Finite_false. rewrite <- Zle_Qle. lia. }
    done.
Qed.

End RequestLimitFacts.

(** ** Loading the development server *)

Module DevServerFacts.
Import DevServer.

(** The first success among the calls [attempt + 1 .. attempt + n]. *)
Lemma tryLoad_spec loadURL maxAttempts : ∀ fuel attempt outcome,
  tryLoad loadURL maxAttempts attempt fuel = Some outcome →
  ∃ n, (attempt < n ≤ attempt + fuel)%nat
       ∧ (∀ k, (attempt < k < n)%nat →
               loadURL k = false ∧ (Z.of_nat k < maxAttempts)%Z)
       ∧ (outcome = loaded n ∧ loadURL n = true
          ∨ outcome = gave_up n ∧ loadURL n = false ∧ (maxAttempts ≤ Z.of_nat n)%Z).
Proof.
  induction fuel as [|fuel IH]; intros attempt outcome; [done|].
  cbn [tryLoad]. destruct (loadURL (S attempt)) eqn:Hload.
  - intros [= <-]. exists (S attempt). split; [lia|]. split; [lia|]. by left.
  - case_bool_decide as Hmax.
    + intros [= <-]. exists (S attempt). split; [lia|]. split; [lia|]. by right.
    + intros (n & Hn & Hbefore & Hend)%IH. exists n. split; [lia|]. split; [|done].
      intros k Hk. destruct (decide (k = S attempt)) as [->|]; [split; [done|lia]|].
      apply Hbefore. lia.
Qed.

Lemma tryLoad_returns loadURL maxAttempts : ∀ fuel attempt,
  (maxAttempts ≤ Z.of_nat (attempt + fuel))%Z → (0 < fuel)%nat →
  is_Some (tryLoad loadURL maxAttempts attempt fuel).
Proof.
  induction fuel as [|fuel IH]; intros attempt Hmax Hfuel; [lia|].
  cbn [tryLoad]. destruct (loadURL (S attempt)); [done|].
  case_bool_decide as Hlast; [done|]. apply IH; lia.
Qed.

(** X16: [loadURLWithRetry] ends: it calls [win.loadURL] at least once
    and at most max(1, maxAttempts) times (60 by default), every call but
    the last one fails, and it stops at the first call that succeeds, or
    gives up after exactly max(1, maxAttempts) failed calls. *)
Theorem loadURLWithRetry_attempts
    (loadURL : nat → bool) (maxAttempts : option Z) (fuel : nat) :
  (default 60%Z maxAttempts ≤ Z.of_nat fuel)%Z → (0 < fuel)%nat →
  ∃ outcome n,
    loadURLWithRetry loadURL maxAttempts fuel = Some outcome
    ∧ (1 ≤ n)%nat ∧ (Z.of_nat n ≤ Z.max 1 (default 60%Z maxAttempts))%Z
    ∧ (∀ k, (1 ≤ k < n)%nat → loadURL k = false)
    ∧ (outcome = loaded n ∧ loadURL n = true
       ∨ outcome = gave_up n ∧ loadURL n = false
         ∧ Z.of_nat n = Z.max 1 (default 60%Z maxAttempts)).
Proof.
  intros Hfuel Hpos. unfold loadURLWithRetry.
  destruct (tryLoad_returns loadURL (default 60%Z maxAttempts) fuel O)
    as [outcome Hrun]; [done|done|].
  destruct (tryLoad_spec _ _ _ _ _ Hrun) as (n & Hn & Hbefore & Hend).
  exists outcome, n. split; [done|]. split; [lia|].
  assert (Z.of_nat n ≤ Z.max 1 (default 60%Z maxAttempts))%Z as Hbound.
  { destruct (decide (n = 1%nat)) as [->|]; [lia|].
    destruct (Hbefore (n - 1)%nat) as [_ ?]; lia. }
  split; [done|]. split; [intros k Hk; apply Hbefore; lia|].
  destruct Hend as [?|(? & ? & ?)]; [by left|right].
  split; [done|]. split; [done|]. lia.
Qed.

Lemma loadURLWithRetry_attempts_third :
  ∃ outcome n,
    loadURLWithRetry (λ k, bool_decide (k = 3%nat)) None 60 = Some outcome
    ∧ (1 ≤ n)%nat ∧ (Z.of_nat n ≤ Z.max 1 (default 60%Z None))%Z
    ∧ (∀ k, (1 ≤ k < n)%nat → bool_decide (k = 3%nat) = false)
    ∧ (outcome = loaded n ∧ bool_decide (n = 3%nat) = true
       ∨ outcome = gave_up n ∧ bool_decide (n = 3%nat) = false
         ∧ Z.of_nat n = Z.max 1 (default 60%Z None)).
Proof.
  apply (loadURLWithRetry_attempts (λ k, bool_decide (k = 3%nat)) None 60);
    [by vm_compute|lia].
Defined.

End DevServerFacts.

(** ** The [render_page] tool *)

Module RenderPageFacts.
Import Path PastedImages Numbers Sandbox RenderPage WorkspaceFacts.

Lemma span_spec f s :
  let '(run, rest) := span f s in
  s = run ++ rest ∧ forallb f run = true
  ∧ match rest with c :: _ => f c = false | [] => True end.
Proof.
  induction s as [|c s IH]; [done|]. cbn [span].
  destruct (f c) eqn:Hc; [|done].
  destruct (span f s) as [run rest]. destruct IH as (-> & Hrun & Hrest).
  cbn [forallb]. by rewrite Hc, Hrun.
Qed.

Lemma match_channel_spec s channel group3 :
  match_channel s = Some (channel, group3) →
  channel ≠ [] ∧ (SLASH ∉ channel)
  ∧ match group3 with
    | None => s = channel
    | Some ds => s = channel ++ SLASH :: ds ∧ ds ≠ [] ∧ forallb is_digit ds = true
    end.
Proof.
  unfold match_channel. pose proof (span_spec (λ c, negb (c =? SLASH)) s) as Hspan.
  destruct (span _ s) as [run rest]. destruct Hspan as (-> & Hrun & Hrest).
  case_bool_decide as Hempty; [done|].
  assert (SLASH ∉ run) as Hplain.
  { intros Hin%list_elem_of_In. apply (proj1 (forallb_forall _ _) Hrun) in Hin.
    by rewrite N.eqb_refl in Hin. }
  destruct rest as [|c ds].
  - intros [= <- <-]. by rewrite app_nil_r.
  - apply negb_false_iff, N.eqb_eq in Hrest as ->.
    destruct (negb _ && _) eqn:Hds; [|done]. intros [= <- <-].
    apply andb_true_iff in Hds as [Hne%negb_true_iff%bool_decide_eq_false Hds].
    done.
Qed.

(** A post id found by [convertTelegramUrl] is a non-empty string of
    digits. *)
Lemma convertTelegramUrl_postId parse_url url ds :
  postId (convertTelegramUrl parse_url url) = Some ds →
  ds ≠ [] ∧ forallb is_digit ds = true.
Proof.
  unfold convertTelegramUrl.
  destruct (parse_url url) as [parsed|]; [|done].
  destruct (_ || _); [|done].
  destruct (startsWith (pathname parsed) (js "/s/")).
  - cbn [postId].
    destruct (strip (js "/s/") (pathname parsed)) as [rest|]; [|done].
    cbn [mbind option_bind].
    destruct (match_channel rest) as [[channel [g3|]]|] eqn:Hm; try done.
    apply match_channel_spec in Hm as (_ & _ & _ & Hne & Hds).
    destruct g3; [done|]. by intros [= <-].
  - destruct (strip (js "/") (pathname parsed)) as [rest|]; [|done].
    cbn [mbind option_bind].
    destruct (match_channel rest) as [[channel [g3|]]|] eqn:Hm; try done.
    apply match_channel_spec in Hm as (_ & _ & _ & Hne & Hds).
    cbn [postId]. destruct g3; [done|]. by intros [= <-].
Qed.

(** X21: [convertTelegramUrl] marks a link as Telegram only for the
    hosts t.me and telegram.me, and leaves every other link unchanged and
    without post id. A post id is always a non-empty string of digits. A
    link is either left as it is, or rewritten to https://t.me/s/ followed
    by the channel and the post id of its path, which is then a separator,
    a channel without separator, and nothing or a separator and digits. A
    Telegram link whose path ends with a separator after the channel is not
    treated as Telegram, unless the channel is "s". *)
Theorem convertTelegramUrl_shape
    (parse_url : jsstring → option ParsedURL) (url : jsstring) :
  let converted := convertTelegramUrl parse_url url in
  (isTelegram converted = true →
     ∃ parsed, parse_url url = Some parsed
               ∧ (hostname parsed = js "t.me" ∨ hostname parsed = js "telegram.me"))
  ∧ (isTelegram converted = false →
     converted_url converted = url ∧ postId converted = None)
  ∧ (∀ ds, postId converted = Some ds → ds ≠ [] ∧ forallb is_digit ds = true)
  ∧ (converted_url converted = url
     ∨ ∃ parsed channel,
         parse_url url = Some parsed ∧ channel ≠ [] ∧ (SLASH ∉ channel)
         ∧ (pathname parsed = SLASH :: channel ∧ postId converted = None
            ∧ converted_url converted = js "https://t.me/s/" ++ channel
            ∨ ∃ ds, pathname parsed = SLASH :: channel ++ SLASH :: ds
                    ∧ postId converted = Some ds
                    ∧ converted_url converted
                      = js "https://t.me/s/" ++ channel ++ SLASH :: ds))
  ∧ (∀ parsed channel,
       parse_url url = Some parsed →
       pathname parsed = SLASH :: channel ++ [SLASH] → SLASH ∉ channel →
       channel ≠ js "s" →
       isTelegram converted = false).
Proof.
  intros converted. subst converted. unfold convertTelegramUrl.
  destruct (parse_url url) as [parsed|] eqn:Hparse.
  2: { repeat split; try done; by left. }
  destruct (bool_decide (hostname parsed = js "t.me")
            || bool_decide (hostname parsed = js "telegram.me")) eqn:Hhost.
  2: { repeat split; try done; by left. }
  assert (hostname parsed = js "t.me" ∨ hostname parsed = js "telegram.me") as Hhosts.
  { apply orb_true_iff in Hhost as [?%bool_decide_eq_true|?%bool_decide_eq_true]; eauto. }
  destruct (startsWith (pathname parsed) (js "/s/")) eqn:Hs.
  - cbn [isTelegram converted_url postId].
    split; [eauto|]. split; [done|]. split; [|split; [by left|]].
    + intros ds Hds. apply (convertTelegramUrl_postId parse_url url).
      unfold convertTelegramUrl. by rewrite Hparse, Hhost, Hs.
    + intros parsed' channel [= <-] Hpath Hplain Hchannel.
      exfalso. rewrite Hpath in Hs. change (js "/s/") with [SLASH; 115; SLASH] in Hs.
      cbn [startsWith] in Hs. destruct channel as [|c channel]; [done|].
      cbn [app startsWith] in Hs.
      apply andb_true_iff in Hs as [_ [Hc Hs]%andb_true_iff].
      apply N.eqb_eq in Hc as <-.
      destruct channel as [|d channel]; [done|]. cbn [app startsWith] in Hs.
      apply andb_true_iff in Hs as [Hd%N.eqb_eq _]. subst d.
      apply Hplain. rewrite !elem_of_cons. tauto.
  - destruct (strip (js "/") (pathname parsed)) as [rest|] eqn:Hstrip.
    2: { cbn [mbind option_bind]. repeat split; try done. left; reflexivity. }
    assert (pathname parsed = SLASH :: rest) as Hpath.
    { unfold strip in Hstrip.
      destruct (startsWith (pathname parsed) (js "/")) eqn:Hslash; [|done].
      injection Hstrip as <-. apply startsWith_prefix in Hslash as [rest' ->].
      reflexivity. }
    cbn [mbind option_bind].
    destruct (match_channel rest) as [[channel group3]|] eqn:Hm.
    + apply match_channel_spec in Hm as (Hne & Hplain & Hrest).
      cbn [isTelegram converted_url postId].
      split; [eauto|]. split; [done|]. split; [|split].
      * intros ds. destruct group3 as [g3|]; [|done].
        destruct Hrest as (_ & Hg & Hds). destruct g3; [done|]. by intros [= <-].
      * right. exists parsed, channel. split; [done|]. split; [done|]. split; [done|].
        destruct group3 as [g3|].
        -- destruct Hrest as (-> & Hg & Hds). right. exists g3.
           split; [by rewrite Hpath|]. destruct g3; [done|]. done.
        -- subst rest. left. by rewrite app_nil_r.
      * intros parsed' channel' [= <-] Hpath' Hplain' _. exfalso.
        rewrite Hpath in Hpath'. injection Hpath' as Hrest'.
        destruct group3 as [g3|].
        -- destruct Hrest as (-> & Hg & Hds).
           assert (channel = channel' ∧ SLASH :: g3 = [SLASH]) as [_ Hg3];
             [|by injection Hg3 as ->].
           clear -Hrest' Hplain Hplain'.
           revert channel' Hrest' Hplain'.
           induction channel as [|c channel IH]; intros [|c' channel'] Heq Hp'.
           ++ done.
           ++ injection Heq as <- _. apply not_elem_of_cons in Hp' as [? _]. done.
           ++ injection Heq as -> _. apply not_elem_of_cons in Hplain as [? _]. done.
           ++ injection Heq as -> Heq. apply not_elem_of_cons in Hplain as [_ ?].
              apply not_elem_of_cons in Hp' as [_ ?].
              destruct (IH H channel' Heq H0) as [-> ?]. done.
        -- subst rest. apply Hplain. rewrite Hrest'. apply elem_of_app. right.
           by apply list_elem_of_singleton.
    + repeat split; try done. left; reflexivity.
Qed.





(** X23: the retry loop of [executeRenderPageTool] makes between one and
    three passes; every pass before the last one failed with a message
    without "timeout"; the page is loaded exactly when the last pass
    succeeds; a failed last pass is the third one or a timeout, and the
    error returned then starts with "Failed to load page after 3
    attempts", also when a timeout ended the loop at the first pass. *)
Theorem load_page_attempts (load : nat → PageLoad) :
  let n := fst (load_page load) in
  let error := snd (load_page load) in
  (1 ≤ n ≤ 3)%nat
  ∧ (∀ k, (1 ≤ k < n)%nat →
       ∃ message, load k = page_failed message
                  ∧ includes message (js "timeout") = false)
  ∧ (load n = page_loaded → error = None)
  ∧ (∀ message, load n = page_failed message →
       (n = 3%nat ∨ includes message (js "timeout") = true)
       ∧ ∃ rest, error = Some (FAILED_TO_LOAD ++ rest))
  ∧ (∀ message, load 1%nat = page_failed message →
       includes message (js "timeout") = true →
       n = 1%nat ∧ ∃ rest, error = Some (FAILED_TO_LOAD ++ rest))
  ∧ FAILED_TO_LOAD = [10060] ++ js " Failed to load page after 3 attempts: ".
Proof.
  intros n error.
  assert (FAILED_TO_LOAD = [10060] ++ js " Failed to load page after 3 attempts: ")
    as Hline by reflexivity.
  subst n error. unfold load_page, MAX_RETRIES. cbn [load_loop].
  unfold MAX_RETRIES.
  destruct (load 1%nat) as [|m1] eqn:H1.
  { cbn [fst snd attempts lastError renderWindow negb]. rewrite H1.
    repeat split; intros; try lia; try done. }
  destruct (includes m1 (js "timeout")) eqn:T1; cbn [orb].
  { cbn [fst snd attempts lastError renderWindow negb]. rewrite H1.
    repeat split; intros; try lia; try done; simplify_eq; eauto; congruence. }
  rewrite bool_decide_eq_false_2 by lia.
  assert (∀ k, (1 ≤ k < 2)%nat → ∃ message, load k = page_failed message
             ∧ includes message (js "timeout") = false) as Hone.
  { intros k Hk. assert (k = 1%nat) as -> by lia. eauto. }
  destruct (load 2%nat) as [|m2] eqn:H2.
  { cbn [fst snd attempts lastError renderWindow negb]. rewrite H2.
    repeat split; intros; try lia; try done; simplify_eq; eauto; congruence. }
  destruct (includes m2 (js "timeout")) eqn:T2; cbn [orb].
  { cbn [fst snd attempts lastError renderWindow negb]. rewrite H2.
    repeat split; intros; try lia; try done; simplify_eq; eauto; congruence. }
  rewrite bool_decide_eq_false_2 by lia.
  assert (∀ k, (1 ≤ k < 3)%nat → ∃ message, load k = page_failed message
             ∧ includes message (js "timeout") = false) as Htwo.
  { intros k Hk. assert (k = 1%nat ∨ k = 2%nat) as [-> | ->] by lia; eauto. }
  destruct (load 3%nat) as [|m3] eqn:H3.
  { cbn [fst snd attempts lastError renderWindow negb]. rewrite H3.
    repeat split; intros; try lia; try done; simplify_eq; eauto; congruence. }
  rewrite bool_decide_eq_true_2, orb_true_r by lia.
  cbn [fst snd attempts lastError renderWindow negb]. rewrite H3.
  repeat split; intros; try lia; try done; simplify_eq; eauto; congruence.
Qed.

End RenderPageFacts.
